(** * Gd-tg-bot: a shallow embedding of the transfer pipeline

    The development follows the Python sources module by module:

    - [GDrive]       gdrive_handler.py  (link parsing, recursive enumeration)
    - [AuthManager]  auth_manager.py    (the persisted credential store)
    - [FileManager]  file_manager.py    (download to scratch, upload, cleanup)
    - [Main]         main.py            (per-chat lock, the per-file loop)

    Python exceptions are values of [exn]; code that can raise returns
    [exn + A].  Calls to the outside world (Drive API, Telegram API, clock)
    take their answers from an explicit description of that world. *)

From Stdlib Require Import ZArith Lia Bool Ascii String List Sorting.Sorted
  Sorting.Permutation.
From stdpp Require Import base option list gmap strings pretty.

Local Open Scope string_scope.
Local Open Scope Z_scope.
Local Set Warnings "-register-all".

(** ** Exceptions *)

(** The exception classes the sources raise, catch or let through. *)
Inductive exn : Type :=
| HttpError (status : Z)          (* googleapiclient.errors.HttpError *)
| JSONDecodeError                 (* json.JSONDecodeError *)
| UnicodeDecodeError_             (* reading bytes that are not text *)
| NameError (name : string)       (* unbound global name *)
| AttributeError (name : string)  (* attribute the object does not have *)
| KeyError (key : nat)            (* power_labels[n] *)
| TypeError_                      (* operation the value does not support *)
| ConnectionError_                (* named in download_gdrive_file *)
| IOError_                        (* raised by download_gdrive_file *)
| FileNotFoundError_              (* os.path.getsize / open on a missing path *)
| IsADirectoryError_              (* open / os.remove on a directory *)
| ServiceError                    (* any failure of googleapiclient's build *)
| TelegramError                   (* any failure of a Telegram Bot API call *)
| RefreshError.                   (* google.auth.exceptions.RefreshError *)

(** [except ConnectionError]: matches ConnectionError only. *)
Definition is_ConnectionError (e : exn) : bool :=
  match e with ConnectionError_ => true | _ => false end.

(** [except IOError]: IOError is OSError, which FileNotFoundError,
    IsADirectoryError and ConnectionError subclass. *)
Definition is_IOError (e : exn) : bool :=
  match e with
  | IOError_ | FileNotFoundError_ | IsADirectoryError_ | ConnectionError_ => true
  | _ => false
  end.

(** Both [except HttpError as error] handlers of the sources format
    [error.details] into a text before they raise.  HttpError has no such
    attribute ([resp], [content], [uri], [error_details], [reason] are what
    it has), so the handler itself raises AttributeError, which leaves the
    [try] statement it was raised in. *)
Definition error_details (e : exn) : exn := AttributeError "details".

(** ** Strings

    A text is the list of its characters, each given by its code point,
    for the texts whose code points are all below 256: the letter e acute
    is the one character 233, not the bytes of an encoding.  Texts with
    other characters are outside the model.
    [needle in haystack] on such texts: *)
Fixpoint contains (needle haystack : string) : bool :=
  if String.prefix needle haystack then true
  else
    match haystack with
    | EmptyString => false
    | String _ rest => contains needle rest
    end.

(** ** gdrive_handler.py *)
Module GDrive.

Definition FOLDER_MIME : string := "application/vnd.google-apps.folder".

(** *** get_file_id_from_link

    [re.search(r'(?:P1|P2)([a-zA-Z0-9_-]+)', s)]: the leftmost position at
    which one of the literal alternatives occurs and is followed by at least
    one identifier character; group 1 is the longest run of such characters. *)

Definition is_id_char (c : ascii) : bool :=
  let n := nat_of_ascii c in
  ((97 <=? n) && (n <=? 122))%nat       (* a-z *)
  || ((65 <=? n) && (n <=? 90))%nat     (* A-Z *)
  || ((48 <=? n) && (n <=? 57))%nat     (* 0-9 *)
  || Ascii.eqb c "_" || Ascii.eqb c "-".

Fixpoint strip_prefix (p s : string) : option string :=
  match p, s with
  | EmptyString, _ => Some s
  | String a p', String b s' =>
      if Ascii.eqb a b then strip_prefix p' s' else None
  | String _ _, EmptyString => None
  end.

Fixpoint take_id (s : string) : string :=
  match s with
  | String c s' => if is_id_char c then String c (take_id s') else EmptyString
  | EmptyString => EmptyString
  end.

(** One alternative tried at the current position. *)
Definition match_here (alt s : string) : option string :=
  match strip_prefix alt s with
  | Some rest =>
      match take_id rest with
      | EmptyString => None
      | run => Some run
      end
  | None => None
  end.

Fixpoint first_match (alts : list string) (s : string) : option string :=
  match alts with
  | [] => None
  | alt :: alts' =>
      match match_here alt s with
      | Some run => Some run
      | None => first_match alts' s
      end
  end.

Fixpoint re_search (alts : list string) (s : string) : option string :=
  match first_match alts s with
  | Some run => Some run
  | None =>
      match s with
      | String _ s' => re_search alts s'
      | EmptyString => None
      end
  end.

Definition get_file_id_from_link (drive_link : string) : option string :=
  match re_search ["/file/d/"; "id="] drive_link with
  | Some file_id => Some file_id
  | None => re_search ["/drive/folders/"; "folders/"] drive_link
  end.

(** *** The remote store

    A [files] resource as the API returns it with
    [fields='id, name, mimeType, size']; [size] is absent for folders and
    for Google Docs type files. *)
Record drive_file : Type := DriveFile {
  f_id : string;
  f_name : string;
  f_mimeType : string;
  f_size : option Z
}.

(** The tree behind a link, as the caller's credentials show it.  Children
    are kept in no particular order.  [listable = false] stands for a folder
    on which [files().list] answers with an HttpError. *)
Inductive node : Type :=
| Node (meta : drive_file) (listable : bool) (children : list node).

Definition meta_of (n : node) : drive_file :=
  match n with Node m _ _ => m end.

Definition children_of (n : node) : list node :=
  match n with Node _ _ cs => cs end.

Definition mime_is_folder (m : drive_file) : bool :=
  String.eqb (f_mimeType m) FOLDER_MIME.

(** [orderBy='folder,name']: folders first, then ascending by name. *)
Definition folder_name_le (a b : drive_file) : bool :=
  match mime_is_folder a, mime_is_folder b with
  | true, false => true
  | false, true => false
  | _, _ => String.leb (f_name a) (f_name b)
  end.

Section OrderBy.
Context {B : Type}.

(** Stable insertion on entries keyed by their [drive_file]. *)
Fixpoint insert_by (x : drive_file * B) (l : list (drive_file * B))
  : list (drive_file * B) :=
  match l with
  | [] => [x]
  | y :: l' =>
      if folder_name_le (fst x) (fst y) then x :: y :: l'
      else y :: insert_by x l'
  end.

Fixpoint order_by_folder_name (l : list (drive_file * B))
  : list (drive_file * B) :=
  match l with
  | [] => []
  | x :: l' => insert_by x (order_by_folder_name l')
  end.
End OrderBy.

(** Splitting a result list in pages of [S k] entries. *)
Fixpoint paginate_fuel {A : Type} (fuel k : nat) (l : list A) : list (list A) :=
  match l with
  | [] => []
  | _ :: _ =>
      match fuel with
      | O => [l]
      | S fuel' => take (S k) l :: paginate_fuel fuel' k (drop (S k) l)
      end
  end.

Definition paginate {A : Type} (k : nat) (l : list A) : list (list A) :=
  paginate_fuel (length l) k l.

(** What the service answers to the paged [files().list] queries for one
    folder id: an HttpError, or the pages in order (the last one carries no
    nextPageToken).  Each entry comes with the answer the service would give
    when that entry's own id is listed. *)
Inductive listing : Type :=
| ListRaises (e : exn)
| Pages (ps : list (list (drive_file * listing))).

(** The Drive service with page size [S k]. *)
Fixpoint files_list (k : nat) (n : node) : listing :=
  match n with
  | Node _ ok cs =>
      if ok then
        Pages (paginate k
                 (order_by_folder_name
                    (map (fun c => (meta_of c, files_list k c)) cs)))
      else ListRaises (HttpError 403)
  end.

(** *** list_files_in_folder_recursive *)

(** The dict built at lines 72-79 (keys id, name, mimeType, size, path,
    is_folder). *)
Record file_info : Type := FileInfo {
  fi_id : string;
  fi_name : string;
  fi_mimeType : string;
  fi_size : Z;
  fi_path : string;
  fi_is_folder : bool
}.

Definition item_path (current_path name : string) : string :=
  match current_path with
  | EmptyString => name
  | _ => current_path +:+ "/" +:+ name
  end.

Definition item_details (current_path : string) (item : drive_file) : file_info :=
  {| fi_id := f_id item;
     fi_name := f_name item;
     fi_mimeType := f_mimeType item;
     fi_size := default 0 (f_size item);
     fi_path := item_path current_path (f_name item);
     fi_is_folder := String.eqb (f_mimeType item) FOLDER_MIME |}.

(** Lines 92-97: [except HttpError as error] logs a text with
    [error.details] in it and so raises AttributeError; [except Exception as
    e] logs and raises [e] again. *)
Definition except_handlers (e : exn) : exn :=
  match e with
  | HttpError _ => error_details e
  | _ => e
  end.

(** The function takes the service's answers for [folder_id] in place of
    the id.  The outer loop is the [while True] over pages, the inner one the
    [for item in response.get('files', [])].  An exception in the [try],
    that of a nested call included, goes through [except_handlers]. *)
Fixpoint list_files_in_folder_recursive (answers : listing) (current_path : string)
  : exn + list file_info :=
  match answers with
  | ListRaises e => inl (except_handlers e)
  | Pages ps =>
      (fix pages_loop (ps : list (list (drive_file * listing)))
           (files_and_folders : list file_info) : exn + list file_info :=
         match ps with
         | [] => inr files_and_folders
         | response :: ps' =>
             match
               (fix items_loop (items : list (drive_file * listing))
                    (files_and_folders : list file_info) : exn + list file_info :=
                  match items with
                  | [] => inr files_and_folders
                  | (item, sub_answers) :: items' =>
                      let details := item_details current_path item in
                      let files_and_folders := (files_and_folders ++ [details])%list in
                      if fi_is_folder details then
                        match list_files_in_folder_recursive sub_answers (fi_path details) with
                        | inl e => inl (except_handlers e)
                        | inr sub_items => items_loop items' (files_and_folders ++ sub_items)%list
                        end
                      else items_loop items' files_and_folders
                  end) response files_and_folders
             with
             | inl e => inl e
             | inr files_and_folders => pages_loop ps' files_and_folders
             end
         end) ps []
  end.

(** The two loops of [list_files_in_folder_recursive] under names of their
    own, for the proofs. *)
Fixpoint items_loop (current_path : string) (items : list (drive_file * listing))
    (files_and_folders : list file_info) : exn + list file_info :=
  match items with
  | [] => inr files_and_folders
  | (item, sub_answers) :: items' =>
      let details := item_details current_path item in
      let files_and_folders := (files_and_folders ++ [details])%list in
      if fi_is_folder details then
        match list_files_in_folder_recursive sub_answers (fi_path details) with
        | inl e => inl (except_handlers e)
        | inr sub_items =>
            items_loop current_path items' (files_and_folders ++ sub_items)%list
        end
      else items_loop current_path items' files_and_folders
  end.

Fixpoint pages_loop (current_path : string)
    (ps : list (list (drive_file * listing)))
    (files_and_folders : list file_info) : exn + list file_info :=
  match ps with
  | [] => inr files_and_folders
  | response :: ps' =>
      match items_loop current_path response files_and_folders with
      | inl e => inl e
      | inr files_and_folders => pages_loop current_path ps' files_and_folders
      end
  end.

(** Every folder of the tree can be listed. *)
Fixpoint all_listable (n : node) : bool :=
  match n with
  | Node _ ok cs => ok && forallb all_listable cs
  end.

(** *** get_file_metadata and get_drive_items_from_link *)

(** The first node carrying [file_id], searching the visible roots and
    their descendants. *)
Fixpoint find_node (file_id : string) (n : node) : option node :=
  match n with
  | Node m _ cs =>
      if String.eqb (f_id m) file_id then Some n
      else
        (fix find_in (cs : list node) : option node :=
           match cs with
           | [] => None
           | c :: cs' =>
               match find_node file_id c with
               | Some hit => Some hit
               | None => find_in cs'
               end
           end) cs
  end.

Fixpoint find_in_drive (file_id : string) (drive : list node) : option node :=
  match drive with
  | [] => None
  | n :: drive' =>
      match find_node file_id n with
      | Some hit => Some hit
      | None => find_in_drive file_id drive'
      end
  end.

(** [get_file_metadata] returns the metadata dict, or None after logging any
    error (a 404 here). *)
Definition get_file_metadata (drive : list node) (file_id : string)
  : option drive_file :=
  meta_of <$> find_in_drive file_id drive.

(** The answers of [files().list(q="'<folder_id>' in parents ...")]. *)
Definition files_list_of_id (k : nat) (drive : list node) (folder_id : string)
  : listing :=
  match find_in_drive folder_id drive with
  | Some n => files_list k n
  | None => ListRaises (HttpError 404)
  end.

Inductive error_msg : Type :=
| InvalidLinkFormat                (* "Invalid Google Drive link format." *)
| CouldNotFetchMetadata            (* "Could not fetch metadata for ..." *)
| ErrorProcessingFolder (name : string) (e : exn).

(** Returns the pair [(files_to_process, error_message)] of the source. *)
Definition get_drive_items_from_link (k : nat) (drive : list node)
    (drive_link : string) : option (list file_info) * option error_msg :=
  match get_file_id_from_link drive_link with
  | None => (None, Some InvalidLinkFormat)
  | Some file_id =>
      match get_file_metadata drive file_id with
      | None => (None, Some CouldNotFetchMetadata)
      | Some initial_metadata =>
          if String.eqb (f_mimeType initial_metadata) FOLDER_MIME then
            match list_files_in_folder_recursive
                    (files_list_of_id k drive file_id)
                    (f_name initial_metadata) with
            | inr all_items =>
                let files_to_process :=
                  List.filter (fun item => negb (fi_is_folder item)) all_items in
                (Some files_to_process, None)
            | inl e =>
                (None, Some (ErrorProcessingFolder (f_name initial_metadata) e))
            end
          else
            let file_details :=
              {| fi_id := f_id initial_metadata;
                 fi_name := f_name initial_metadata;
                 fi_mimeType := f_mimeType initial_metadata;
                 fi_size := default 0 (f_size initial_metadata);
                 fi_path := f_name initial_metadata;
                 fi_is_folder := false |} in
            (Some [file_details], None)
      end
  end.

(** *** The scenario of the specification *)

Definition plain_file (file_id name : string) (bytes : Z) : node :=
  Node (DriveFile file_id name "text/plain" (Some bytes)) true [].

Definition folder (folder_id name : string) (children : list node) : node :=
  Node (DriveFile folder_id name FOLDER_MIME None) true children.

(** A folder holding b.txt (10 B), a.txt (20 B) and the subfolder sub with
    c.txt (5 B). *)
Definition scenario_children : list node :=
  [ plain_file "idB" "b.txt" 10;
    plain_file "idA" "a.txt" 20;
    folder "idSub" "sub" [ plain_file "idC" "c.txt" 5 ] ].

Definition scenario_drive (root_id root_name : string) : list node :=
  [ folder root_id root_name scenario_children ].

Definition scenario_link : string :=
  "https://drive.google.com/drive/folders/ROOT".

(** *** The enumeration order in the specification's words

    Modelled on section 4.2, step 3 of the specification: the children of a
    folder are taken folders-before-files then by name; a subfolder stands
    for its own enumeration, in place; a file stands for itself, with the
    slash-joined chain of ancestor names as path; folders themselves are not
    part of the output. *)
Fixpoint spec_enumerate (n : node) (path_of_n : string) : list file_info :=
  match n with
  | Node _ _ cs =>
      concat
        (map snd
           (order_by_folder_name
              (map (fun c =>
                      let d := item_details path_of_n (meta_of c) in
                      (meta_of c,
                       if mime_is_folder (meta_of c)
                       then spec_enumerate c (fi_path d)
                       else [d])) cs)))
  end.

(** *** Notions used in the statements and proofs about the walk *)

Definition key_le {B} (x y : drive_file * B) : Prop :=
  folder_name_le (fst x) (fst y) = true.

(** Ordering looks at the keys only. *)
Definition on_snd {B C} (f : B -> C) (p : drive_file * B) : drive_file * C :=
  (fst p, f (snd p)).

Definition keyed (cs : list node) : list (drive_file * node) :=
  order_by_folder_name (map (fun c => (meta_of c, c)) cs).

Definition spec_entry (path_of_n : string) (c : node) : list file_info :=
  let d := item_details path_of_n (meta_of c) in
  if mime_is_folder (meta_of c) then spec_enumerate c (fi_path d) else [d].

(** Folders before files, then by name. *)
Definition node_le (a b : node) : Prop :=
  folder_name_le (meta_of a) (meta_of b) = true.

Definition not_folder (item : file_info) : bool := negb (fi_is_folder item).

Definition walk_ok (k : nat) (n : node) : Prop :=
  forall path all,
    list_files_in_folder_recursive (files_list k n) path = inr all ->
    List.filter not_folder all = spec_enumerate n path.

(** With every folder listable the walk returns. *)
Definition walk_returns (k : nat) (n : node) : Prop :=
  all_listable n = true ->
  forall path, exists all,
    list_files_in_folder_recursive (files_list k n) path = inr all.

(** The scenario folder with a further subfolder that cannot be listed. *)
Definition locked_drive : list node :=
  [ folder "ROOT" "Root"
      (scenario_children
       ++ [ Node (DriveFile "idPriv" "private" FOLDER_MIME None) false
              [ plain_file "idD" "d.txt" 7 ] ])%list ].

(** A linked folder that cannot be listed. *)
Definition unlistable_drive (folder_id name : string) : list node :=
  [ Node (DriveFile folder_id name FOLDER_MIME None) false [] ].

(** *** Notions for further properties of the link parser and the walk *)

Fixpoint all_id_chars (s : string) : bool :=
  match s with
  | EmptyString => true
  | String c s' => is_id_char c && all_id_chars s'
  end.

(** The text is empty or starts with a character that ends an id. *)
Definition stops_id (s : string) : bool :=
  match s with
  | EmptyString => true
  | String c _ => negb (is_id_char c)
  end.

(** The text holds no question mark. *)
Fixpoint no_qmark (s : string) : bool :=
  match s with
  | EmptyString => true
  | String c s' => negb (Ascii.eqb c "?") && no_qmark s'
  end.

(** The text is empty or starts with a question mark. *)
Definition query_or_end (s : string) : bool :=
  match s with
  | EmptyString => true
  | String c _ => Ascii.eqb c "?"
  end.

(** [t] is what is left of [s] from some position on. *)
Inductive tail_of (t : string) : string -> Prop :=
| tail_here : tail_of t t
| tail_later c s : tail_of t s -> tail_of t (String c s).

(** The folder itself and every folder reached from it through folders can
    be listed. *)
Fixpoint walkable (n : node) : bool :=
  match n with
  | Node _ ok cs =>
      ok && forallb (fun c => negb (mime_is_folder (meta_of c)) || walkable c) cs
  end.

Definition child_ok (c : node) : bool :=
  negb (mime_is_folder (meta_of c)) || walkable c.

(** The walk of a folder ends in its list or in the HttpError of the first
    folder that cannot be listed. *)
Definition walk_decided (k : nat) (n : node) : Prop :=
  forall path,
    if walkable n
    then exists all, list_files_in_folder_recursive (files_list k n) path = inr all
    else list_files_in_folder_recursive (files_list k n) path
         = inl (AttributeError "details").

(** The files below a folder, in the order in which the store keeps them. *)
Fixpoint stored_files (n : node) (path_of_n : string) : list file_info :=
  match n with
  | Node _ _ cs =>
      concat
        (map (fun c =>
                let d := item_details path_of_n (meta_of c) in
                if mime_is_folder (meta_of c) then stored_files c (fi_path d)
                else [d]) cs)
  end.

End GDrive.

(** ** auth_manager.py *)
Module AuthManager.

(** The fields [save_user_credentials] persists and the Credentials
    constructor reads back from the stored dict. *)
Record credentials : Type := Credentials {
  token : option string;
  refresh_token : option string;
  token_uri : string;
  client_id : string;
  client_secret : string;
  scopes : list string
}.

(** Python truthiness of an optional string. *)
Definition truthy (s : option string) : bool :=
  match s with
  | Some (String _ _) => true
  | _ => false
  end.

(** A JSON value that is not an object.  Of an array only the elements
    that are strings matter to the three operations. *)
Inductive not_an_object : Type :=
| JScalar                       (* null, true, false or a number *)
| JString (s : string)
| JArray (strings : list string).

(** What [json.load] returns: an object of entries as [save] writes them,
    or some other value. *)
Inductive json : Type :=
| JObject (all_tokens : gmap string credentials)
| JOther (v : not_an_object).

(** The state of TOKEN_STORAGE_FILE.  [Stored m] is the text [json.dump]
    writes for the dict [m] (user id text to entry); [Garbage] is a text
    that is not JSON; [Undecodable] is content that is no text at all, on
    which reading raises UnicodeDecodeError; [NotAnObject v] is the JSON
    text of [v].  An object with entries other than those [save] writes is
    not among the states. *)
Inductive token_file : Type :=
| Absent
| Garbage
| Undecodable
| NotAnObject (v : not_an_object)
| Stored (all_tokens : gmap string credentials).

Definition exists_ (f : token_file) : bool :=
  match f with Absent => false | _ => true end.

(** [open(TOKEN_STORAGE_FILE, 'r')] followed by [json.load]. *)
Definition json_load (f : token_file) : exn + json :=
  match f with
  | Stored all_tokens => inr (JObject all_tokens)
  | NotAnObject v => inr (JOther v)
  | Garbage => inl JSONDecodeError
  | Undecodable => inl UnicodeDecodeError_
  | Absent => inl FileNotFoundError_
  end.

(** [str(user_id)]. *)
Definition str (user_id : Z) : string := pretty user_id.

(** [str(user_id) in all_tokens] for a value that is not a dict: the
    elements of a list are compared with the text, a string is searched for
    it, anything else is not iterable. *)
Definition in_ (key : string) (v : not_an_object) : exn + bool :=
  match v with
  | JScalar => inl TypeError_
  | JString s => inr (contains key s)
  | JArray strings => inr (bool_decide (key ∈ strings))
  end.

(** Every operation maps the file's state to a result (or the exception
    that escapes) and the file's new state. *)
Definition save_user_credentials (user_id : Z) (creds : credentials)
    (f : token_file) : (exn + unit) * token_file :=
  let loaded : exn + json :=
    if exists_ f then
      match json_load f with
      | inr all_tokens => inr all_tokens
      | inl JSONDecodeError => inr (JObject ∅)         (* "Starting fresh." *)
      | inl e => inl e
      end
    else inr (JObject ∅) in
  match loaded with
  | inr (JObject all_tokens) =>
      (inr tt, Stored (<[str user_id := creds]> all_tokens))
  | inr (JOther _) => (inl TypeError_, f)   (* all_tokens[str(user_id)] = ... *)
  | inl e => (inl e, f)
  end.

Definition delete_user_credentials (user_id : Z) (f : token_file)
  : (exn + bool) * token_file :=
  let loaded : exn + json :=
    if exists_ f then json_load f else inr (JObject ∅) in
  match loaded with
  | inr (JObject all_tokens) =>
      match all_tokens !! str user_id with
      | Some _ => (inr true, Stored (delete (str user_id) all_tokens))
      | None => (inr false, f)
      end
  | inr (JOther v) =>
      match in_ (str user_id) v with
      | inr true => (inl TypeError_, f)     (* del all_tokens[str(user_id)] *)
      | inr false => (inr false, f)
      | inl e => (inl e, f)
      end
  | inl e => (inl e, f)
  end.

(** A Credentials object: the fields [save] persists, and the time at
    which the access token expires, which it does not persist (lines
    71-78).  The Credentials constructor at line 97 gets the six fields of
    the stored dict and so builds an object without expiry. *)
Record credentials_object : Type := Object {
  persisted : credentials;
  expiry : option Z
}.

Definition from_dict (user_creds_dict : credentials) : credentials_object :=
  Object user_creds_dict None.

Section Load.
(** The library's view of time: whether an expiry time is reached. *)
Variable reached : Z -> bool.
(** [credentials.refresh(Request())], which either raises or leaves the
    refreshed credential in the object. *)
Variable refresh : credentials_object -> exn + credentials_object.

(** [credentials.expired]: False for an object without expiry. *)
Definition expired (c : credentials_object) : bool :=
  match expiry c with
  | None => false
  | Some t => reached t
  end.

Definition load_user_credentials (user_id : Z) (f : token_file)
  : (exn + option credentials_object) * token_file :=
  if negb (exists_ f) then (inr None, f)
  else
    match json_load f with
    | inl JSONDecodeError => (inr None, f)
    | inl e => (inl e, f)
    | inr (JOther _) => (inl (AttributeError "get"), f)   (* all_tokens.get *)
    | inr (JObject all_tokens) =>
        match all_tokens !! str user_id with
        | None => (inr None, f)
        | Some user_creds_dict =>
            let credentials := from_dict user_creds_dict in
            if expired credentials
               && truthy (refresh_token (persisted credentials)) then
              (* try: refresh, then save the refreshed credentials *)
              let attempt : (exn + credentials_object) * token_file :=
                match refresh credentials with
                | inr refreshed =>
                    match save_user_credentials user_id (persisted refreshed) f
                    with
                    | (inr _, f') => (inr refreshed, f')
                    | (inl e, f') => (inl e, f')
                    end
                | inl e => (inl e, f)
                end in
              match attempt with
              | (inr refreshed, f') => (inr (Some refreshed), f')
              | (inl _, f') =>
                  (* except Exception: delete, return None *)
                  match delete_user_credentials user_id f' with
                  | (inr _, f'') => (inr None, f'')
                  | (inl e, f'') => (inl e, f'')
                  end
              end
            else (inr (Some credentials), f)
        end
    end.
End Load.

(** *** The authorization flows (lines 10-59)

    [active_flows] maps the text of a user id to the flow object made for
    that user's last login link. *)
Record flow : Type := Flow { flow_state : string }.

Section Flows.
(** [flow.authorization_url(...)] for a new flow: the URL and the state. *)
Variable authorization_url : Z -> string * string.
(** [flow.fetch_token(code=code)] followed by [flow.credentials]; it raises
    for a code the provider refuses. *)
Variable fetch_token : flow -> string -> exn + credentials.

Definition get_auth_url (user_id : Z) (active_flows : gmap string flow)
  : string * gmap string flow :=
  let '(url, state) := authorization_url user_id in
  (url, <[str user_id := Flow state]> active_flows).

(** The result, the flows and the token file after the call. *)
Definition exchange_code_for_credentials (user_id : Z) (code : string)
    (active_flows : gmap string flow) (f : token_file)
  : option credentials * gmap string flow * token_file :=
  match active_flows !! str user_id with
  | None => (None, active_flows, f)
  | Some user_flow =>
      let attempt : (exn + credentials) * token_file :=
        match fetch_token user_flow code with
        | inr creds =>
            match save_user_credentials user_id creds f with
            | (inr _, f') => (inr creds, f')
            | (inl e, f') => (inl e, f')
            end
        | inl e => (inl e, f)
        end in
      match attempt with
      | (inr creds, f') => (Some creds, delete (str user_id) active_flows, f')
      | (inl _, f') => (None, delete (str user_id) active_flows, f')
      end
  end.
End Flows.

(** Sample data for the examples. *)
Definition sample_credentials : credentials :=
  Credentials (Some "stale") (Some "1//refresh")
    "https://oauth2.googleapis.com/token" "client" "secret"
    ["https://www.googleapis.com/auth/drive.readonly"].

Definition with_token (t : string) (c : credentials) : credentials :=
  Credentials (Some t) (refresh_token c) (token_uri c) (client_id c)
    (client_secret c) (scopes c).

(** The object a login leaves behind: its access token expires at time
    1000; a clock that has passed 2000; a refresh that would succeed and one
    that would be refused. *)
Definition sample_object : credentials_object :=
  Object sample_credentials (Some 1000).
Definition after_2000 (t : Z) : bool := t <=? 2000.
Definition refresh_granted (c : credentials_object)
  : exn + credentials_object :=
  inr (Object (with_token "fresh" (persisted c)) (Some 5600)).
Definition refresh_revoked (c : credentials_object)
  : exn + credentials_object :=
  inl RefreshError.

(** The states in which the file can be read as a dict of entries: it is
    missing, is not JSON (and taken for empty), or was written by [save]. *)
Definition usable (f : token_file) : bool :=
  match f with
  | Absent | Garbage | Stored _ => true
  | Undecodable | NotAnObject _ => false
  end.

(** The file is missing or was written by [save]. *)
Definition well_formed (f : token_file) : bool :=
  match f with
  | Absent | Stored _ => true
  | _ => false
  end.

(** Whether the user has an entry. *)
Definition has_entry (user_id : Z) (f : token_file) : bool :=
  match f with
  | Stored all_tokens => bool_decide (is_Some (all_tokens !! str user_id))
  | _ => false
  end.

End AuthManager.

(** ** The local file system, the Telegram bot and the log of effects *)

Inductive stage : Type := Downloading | Uploading.

(** The texts the bot sends, by the template that produces them. *)
Inductive message : Type :=
| Busy
| NoFilesFound
| FoundFiles (count : nat)
| Preparing (file_name : string)
| LoginRequired (file_name : string) (file_size threshold : Z)
| WorkspaceDocNotice (file_name : string)
| DownloadMissing (file_name : string)
| DownloadedEmpty (file_name : string) (file_size : Z)
| Progress (st : stage) (percentage : Z) (file_name : string) (total_size : Z)
    (is_final : bool) (index total : nat) (file_path_in_drive : string)
| TooLarge (original_filename : string) (file_size limit : Z)
| UploadFailed (original_filename : string) (e : exn)
| GDriveConnectionError (file_name : string) (e : exn)
| FileSystemError (file_name : string) (e : exn)
| UnexpectedError (file_name : string) (e : exn)
| Summary (successful_uploads failed_uploads : nat).

(** What the code did to the outside world, oldest first.  The two
    [Called_] entries mark the entry into the functions of
    file_manager.py. *)
Inductive event : Type :=
| Called_download_gdrive_file (file_id : string)
| NextChunk (file_id : string)
| Called_upload_to_telegram (file_path : string)
| SendMessage (chat_id : Z) (text : message) (ok : bool)
| EditText (text : message) (ok : bool)
| SendDocument (chat_id : Z) (file_path filename caption : string) (ok : bool).

(** [fs] maps the path of every regular local file to its size in bytes,
    [dirs] the path of every directory to the size [os.path.getsize]
    reports for it; a path in both counts as a regular file.  No code of
    the bot creates or removes a directory.  When the bot runs the download
    directory exists (config.py, lines 21-23), so [downloads/.] and
    [downloads/..] are directories then.
    [bot_answers] tells for the coming Telegram Bot API calls, in order,
    whether they succeed; once it is used up the calls succeed. *)
Record world : Type := World {
  fs : gmap string Z;
  dirs : gmap string Z;
  bot_answers : list bool;
  log : list event
}.

(** Computations that act on the world and may raise. *)
Definition M (A : Type) : Type := world -> (exn + A) * world.

Definition ret {A : Type} (a : A) : M A := fun w => (inr a, w).

Definition raise {A : Type} (e : exn) : M A := fun w => (inl e, w).

(** A call that computes its result, or raises, without touching the
    world. *)
Definition lift {A : Type} (r : exn + A) : M A := fun w => (r, w).

Definition bind {A B : Type} (m : M A) (k : A -> M B) : M B :=
  fun w =>
    match m w with
    | (inr a, w') => k a w'
    | (inl e, w') => (inl e, w')
    end.

(** [try: m except Exception as e: h e]. *)
Definition try_except {A : Type} (m : M A) (h : exn -> M A) : M A :=
  fun w =>
    match m w with
    | (inr a, w') => (inr a, w')
    | (inl e, w') => h e w'
    end.

(** [try: m finally: c], for a cleanup [c] that does not raise. *)
Definition try_finally {A : Type} (m : M A) (c : world -> world) : M A :=
  fun w => let '(r, w') := m w in (r, c w').

Declare Scope m_scope.
Delimit Scope m_scope with M.
Notation "x <- m ;; k" := (bind m (fun x => k))
  (at level 100, m at next level, right associativity) : m_scope.
Notation "m ;;; k" := (bind m (fun _ => k))
  (at level 100, right associativity) : m_scope.

Definition record (ev : event) : M unit :=
  fun w => (inr tt, World (fs w) (dirs w) (bot_answers w) (log w ++ [ev])%list).

(** One Telegram Bot API call: it is logged with its outcome and raises
    when it fails. *)
Definition bot_call (ev : bool -> event) : M unit :=
  fun w =>
    let '(ok, rest) :=
      match bot_answers w with
      | [] => (true, [])
      | b :: rest => (b, rest)
      end in
    (if ok then inr tt else inl TelegramError,
     World (fs w) (dirs w) rest (log w ++ [ev ok])%list).

(** [os.path.exists]. *)
Definition path_exists (p : string) (w : world) : bool :=
  bool_decide (is_Some (fs w !! p)) || bool_decide (is_Some (dirs w !! p)).

(** The path names a directory. *)
Definition is_directory (p : string) (w : world) : bool :=
  match fs w !! p with
  | Some _ => false
  | None => bool_decide (is_Some (dirs w !! p))
  end.

(** [os.path.getsize]. *)
Definition path_getsize (p : string) (w : world) : exn + Z :=
  match fs w !! p with
  | Some n => inr n
  | None =>
      match dirs w !! p with
      | Some n => inr n
      | None => inl FileNotFoundError_
      end
  end.

Definition remove_file (p : string) (w : world) : world :=
  World (delete p (fs w)) (dirs w) (bot_answers w) (log w).

(** [os.remove]: it removes a regular file and raises on anything else. *)
Definition remove (p : string) : M unit :=
  fun w =>
    match fs w !! p with
    | Some _ => (inr tt, remove_file p w)
    | None =>
        if is_directory p w then (inl IsADirectoryError_, w)
        else (inl FileNotFoundError_, w)
    end.

(** The number of network chunk reads in a log. *)
Definition chunk_reads (l : list event) : nat :=
  length (List.filter (fun ev => match ev with NextChunk _ => true | _ => false end) l).

Definition is_send_document (ev : event) : bool :=
  match ev with SendDocument _ _ _ _ _ => true | _ => false end.

Definition is_too_large_notice (ev : event) : bool :=
  match ev with SendMessage _ (TooLarge _ _ _) _ => true | _ => false end.

(** Entries that belong to a transfer: a call into file_manager.py, a chunk
    read, a document sent. *)
Definition is_transfer_event (ev : event) : bool :=
  match ev with
  | Called_download_gdrive_file _ | NextChunk _ | Called_upload_to_telegram _
  | SendDocument _ _ _ _ _ => true
  | _ => false
  end.

(** The outcome of the next Telegram call. *)
Definition next_answer (w : world) : bool :=
  match bot_answers w with [] => true | b :: _ => b end.

(** Sample worlds for the examples: the download directory with no file in
    it, and with one file. *)
Definition download_dirs : gmap string Z :=
  {[ "downloads/" := 4096; "downloads/." := 4096; "downloads/.." := 4096 ]}.

Definition empty_world : world := World ∅ download_dirs [] [].

Definition world_with_file (p : string) (size : Z) (answers : list bool)
  : world :=
  World {[ p := size ]} download_dirs answers [].

(** A computation whose final world is related by [R] to the one it
    starts in, whether it returns or raises. *)
Definition respects (R : world -> world -> Prop) {A : Type} (m : M A) : Prop :=
  forall w, R w (snd (m w)).

(** All further Telegram calls succeed at [w'] if they do at [w]. *)
Definition stays_quiet (w w' : world) : Prop :=
  bot_answers w = [] -> bot_answers w' = [].

(** The log of [w'] has the entries of kind [p] that the log of [w] has. *)
Definition same_entries (p : event -> bool) (w w' : world) : Prop :=
  List.filter p (log w') = List.filter p (log w).

(** From [w] to [w'] no file was touched and nothing of a transfer was
    done. *)
Definition only_messages (w w' : world) : Prop :=
  fs w' = fs w
  /\ exists evs, log w' = (log w ++ evs)%list
                 /\ existsb is_transfer_event evs = false.

(** ** file_manager.py *)
Module FileManager.

Definition DOWNLOAD_DIR : string := "downloads".

(** [os.path.join(DOWNLOAD_DIR, name)]: a name that starts with a slash is
    taken as it is. *)
Definition join_download_dir (name : string) : string :=
  match name with
  | String c _ =>
      if Ascii.eqb c "/" then name else DOWNLOAD_DIR +:+ "/" +:+ name
  | EmptyString => DOWNLOAD_DIR +:+ "/" +:+ name
  end.

(** [c.isalnum()] for the characters with code points below 256: the
    ASCII letters and digits, and of the others the letters
    (U+00AA, U+00B5, U+00BA, U+00C0-U+00D6, U+00D8-U+00F6, U+00F8-U+00FF),
    the superscript digits (U+00B2, U+00B3, U+00B9) and the fractions
    (U+00BC-U+00BE). *)
Definition isalnum (c : ascii) : bool :=
  let n := nat_of_ascii c in
  (((97 <=? n) && (n <=? 122))
   || ((65 <=? n) && (n <=? 90))
   || ((48 <=? n) && (n <=? 57))
   || (n =? 170) || (n =? 181) || (n =? 186)
   || ((192 <=? n) && (n <=? 214))
   || ((216 <=? n) && (n <=? 246))
   || ((248 <=? n) && (n <=? 255))
   || (n =? 178) || (n =? 179) || (n =? 185)
   || ((188 <=? n) && (n <=? 190)))%nat.

Fixpoint sanitize (file_name : string) : string :=
  match file_name with
  | EmptyString => EmptyString
  | String c rest =>
      String (if isalnum c || Ascii.eqb c "." || Ascii.eqb c "_" || Ascii.eqb c "-"
              then c else "_"%char)
             (sanitize rest)
  end.

Definition scratch_path (file_id file_name : string) : string :=
  let safe_file_name := sanitize file_name in
  let safe_file_name :=
    match safe_file_name with
    | EmptyString => file_id
    | _ => safe_file_name
    end in
  join_download_dir safe_file_name.

(** *** format_bytes

    [size] is an int or None.  The first test [size > power] compares the
    int; from the first [size /= power] on [size] is a float: the quotient
    rounded to 53 significant bits, after which dividing by 1024 only moves
    the exponent.  So the float after [n] divisions is exactly
    [float53 size / 1024^n] and the later tests are
    [float53 size > 1024^(n+1)].  As long as a label exists (at most four
    divisions, hence a size of at most 1024^5, below 2^53) nothing is
    rounded.  [{size:.2f}] prints the value rounded to hundredths, ties to
    even.  Beyond four divisions [power_labels[n]] raises KeyError.  Sizes
    are taken to lie between -(2^53) and 2^1024, as file sizes do: outside
    that range Python rounds, or refuses, the conversion to float. *)
Definition power : Z := 2 ^ 10.

Definition power_labels (n : nat) : option string :=
  match n with
  | 0%nat => Some ""
  | 1%nat => Some "K"
  | 2%nat => Some "M"
  | 3%nat => Some "G"
  | 4%nat => Some "T"
  | _ => None
  end.

(** [num / den] rounded to the nearest integer, ties to even ([0 < den]). *)
Definition round_half_even (num den : Z) : Z :=
  let q := num / den in
  let r := num mod den in
  if 2 * r <? den then q
  else if den <? 2 * r then q + 1
  else if Z.even q then q else q + 1.

(** A positive int rounded to 53 significant bits, as the division that
    turns it into a float rounds it. *)
Definition float53 (size : Z) : Z :=
  let excess := Z.log2 size + 1 - 53 in
  if excess <=? 0 then size
  else round_half_even size (2 ^ excess) * 2 ^ excess.

(** The number of turns of [while size > power] on the float, started with
    [n] turns done; [fuel] bounds the turns still to come. *)
Fixpoint scale (fuel : nat) (size : Z) (n : nat) : nat :=
  match fuel with
  | O => n
  | S fuel' =>
      if size >? power ^ (Z.of_nat n + 1) then scale fuel' size (S n) else n
  end.

(** A number of hundredths printed with two decimals. *)
Definition two_decimals (hundredths : Z) : string :=
  let a := Z.abs hundredths in
  (if hundredths <? 0 then "-" else "")
  +:+ pretty (a / 100) +:+ "."
  +:+ (if a mod 100 <? 10 then "0" else "") +:+ pretty (a mod 100).

Inductive formatted : Type :=
| Text (s : string)
| RaisesKeyError (n : nat).

Definition format_bytes (size : option Z) : formatted :=
  match size with
  | None => Text "0 B"
  | Some size =>
      let '(n, size) :=
        if size >? power then
          let size := float53 size in
          (scale (Z.to_nat (Z.log2 size)) size 1, size)
        else (0%nat, size) in
      match power_labels n with
      | Some label =>
          Text (two_decimals (round_half_even (size * 100) (power ^ Z.of_nat n))
                +:+ " " +:+ label +:+ "B")
      | None => RaisesKeyError n
      end
  end.

(** The number of divisions and the float that is printed. *)
Definition turns (size : Z) : nat * Z :=
  if size >? power then
    (scale (Z.to_nat (Z.log2 (float53 size))) (float53 size) 1, float53 size)
  else (0%nat, size).

(** A call [format_bytes(size)] whose text goes into a message or a log
    line. *)
Definition call_format_bytes (size : Z) : M string :=
  lift (match format_bytes (Some size) with
        | Text s => inr s
        | RaisesKeyError n => inl (KeyError n)
        end).

(** *** download_gdrive_file *)

(** One answer of [downloader.next_chunk()]: [percent] is
    [int(status.progress() * 100)] ([None] for a falsy status), [received]
    the bytes written to the file, [clock_over_2s] the outcome of
    [time.time() - last_reported_time > 2] at that moment. *)
Record chunk : Type := Chunk {
  percent : option Z;
  received : Z;
  clock_over_2s : bool
}.

(** How the media request of a file behaves, call after call. *)
Inductive download : Type :=
| LastChunk (c : chunk)                     (* returns (status, True) *)
| MoreChunks (c : chunk) (rest : download)  (* returns (status, False) *)
| ChunkRaises (e : exn).

(** A progress callback: file name, percentage, total size, is_final. *)
Definition callback : Type := string -> Z -> Z -> bool -> M unit.

Definition write_chunk (p : string) (n : Z) (w : world) : world :=
  World (<[p := default 0 (fs w !! p) + n]> (fs w)) (dirs w) (bot_answers w)
        (log w).

Definition truncate (p : string) (w : world) : world :=
  World (<[p := 0]> (fs w)) (dirs w) (bot_answers w) (log w).

(** [io.FileIO(file_path, 'wb')]: a regular file is emptied, a missing one
    created, a directory refused. *)
Definition open_wb (p : string) : M unit :=
  fun w =>
    if is_directory p w then (inl IsADirectoryError_, w)
    else (inr tt, truncate p w).

(** [open(file_path, 'rb')]. *)
Definition open_rb (p : string) : M unit :=
  fun w =>
    match fs w !! p with
    | Some _ => (inr tt, w)
    | None =>
        if is_directory p w then (inl IsADirectoryError_, w)
        else (inl FileNotFoundError_, w)
    end.

Section Download.
(** [gdrive_handler.get_drive_service(credentials)], which returns the
    service object or lets the exception of the library's [build] through. *)
Variable get_drive_service
  : option AuthManager.credentials_object -> exn + unit.
(** The media behind each file id, as [get_media] will deliver it. *)
Variable get_media : string -> download.

Definition after_chunk (file_name : string) (file_size : Z)
    (progress_callback : option callback) (c : chunk)
    (downloaded_percentage : Z) : M Z :=
  match percent c with
  | Some current_progress =>
      if current_progress >? downloaded_percentage then
        let downloaded_percentage := current_progress in
        match progress_callback with
        | Some cb =>
            if clock_over_2s c || (downloaded_percentage mod 5 =? 0) then
              (cb file_name downloaded_percentage file_size false ;;;
               ret downloaded_percentage)%M
            else ret downloaded_percentage
        | None => ret downloaded_percentage
        end
      else ret downloaded_percentage
  | None => ret downloaded_percentage
  end.

(** [while not done: status, done = downloader.next_chunk() ...]. *)
Fixpoint chunks_loop (file_id file_name : string) (file_size : Z)
    (file_path : string) (progress_callback : option callback)
    (d : download) (downloaded_percentage : Z) : M unit :=
  (record (NextChunk file_id) ;;;
   match d with
   | ChunkRaises e => raise e
   | LastChunk c =>
       (fun w => (inr tt, write_chunk file_path (received c) w)) ;;;
       _ <- after_chunk file_name file_size progress_callback c
              downloaded_percentage ;;
       ret tt
   | MoreChunks c rest =>
       (fun w => (inr tt, write_chunk file_path (received c) w)) ;;;
       downloaded_percentage <-
         after_chunk file_name file_size progress_callback c
           downloaded_percentage ;;
       chunks_loop file_id file_name file_size file_path progress_callback
         rest downloaded_percentage
   end)%M.

(** Lines 66-74.  Both handlers remove what was written; the first then
    builds the text of a ConnectionError with [error.details] in it, which
    raises AttributeError, the second raises IOError. *)
Definition download_handlers (file_path : string) (e : exn) : M string :=
  ((fun w => if path_exists file_path w then remove file_path w
             else (inr tt, w)) ;;;
   raise (match e with
          | HttpError _ => error_details e
          | _ => IOError_
          end))%M.

Definition download_gdrive_file (file_id file_name : string) (file_size : Z)
    (credentials : option AuthManager.credentials_object)
    (progress_callback : option callback) : M string :=
  (record (Called_download_gdrive_file file_id) ;;;
   lift (get_drive_service credentials) ;;;                      (* line 26 *)
   let file_path := scratch_path file_id file_name in
   call_format_bytes file_size ;;;                               (* line 36 *)
   fun w =>
     if path_exists file_path w
        && match path_getsize file_path w with
           | inr n => n =? file_size
           | inl _ => false
           end
        && (file_size >? 0)
     then (inr file_path, w)          (* "Skipping download." *)
     else
       try_except
         (open_wb file_path ;;;
          chunks_loop file_id file_name file_size file_path
            progress_callback (get_media file_id) 0 ;;;
          match progress_callback with
          | Some cb => cb file_name 100 file_size true
          | None => ret tt
          end ;;;
          ret file_path)
         (download_handlers file_path)
         w)%M.
End Download.

(** *** upload_to_telegram *)
Section Upload.
Variable MAX_FILE_SIZE_TG_BYTES : Z.

Definition upload_to_telegram (chat_id : Z) (file_path caption
    original_filename : string)
    (progress_callback_telegram : option callback) : M bool :=
  (record (Called_upload_to_telegram file_path) ;;;
   file_size <- (fun w => (path_getsize file_path w, w)) ;;     (* line 78 *)
   call_format_bytes file_size ;;;                              (* line 79 *)
   if file_size >? MAX_FILE_SIZE_TG_BYTES then
     (* lines 82 and 83 each format the size, then the limit *)
     call_format_bytes file_size ;;;
     call_format_bytes MAX_FILE_SIZE_TG_BYTES ;;;
     bot_call (SendMessage chat_id
                 (TooLarge original_filename file_size
                    MAX_FILE_SIZE_TG_BYTES)) ;;;
     ret false
   else
     try_finally
       (try_except
          (open_rb file_path ;;;
           match progress_callback_telegram with
           | Some cb => cb original_filename 0 file_size false
           | None => ret tt
           end ;;;
           bot_call (SendDocument chat_id file_path original_filename
                       caption) ;;;
           match progress_callback_telegram with
           | Some cb => cb original_filename 100 file_size true
           | None => ret tt
           end ;;;
           ret true)
          (fun e =>
             bot_call (SendMessage chat_id
                         (UploadFailed original_filename e)) ;;;
             ret false))
       (* [os.remove] in a [try] of its own: a failure is logged *)
       (fun w => if path_exists file_path w
                 then snd (try_except (remove file_path) (fun _ => ret tt) w)
                 else w))%M.
End Upload.

(** *** Notions for further properties of the transfer functions *)

(** The characters [sanitize] keeps. *)
Definition is_safe_char (c : ascii) : bool :=
  isalnum c || Ascii.eqb c "." || Ascii.eqb c "_" || Ascii.eqb c "-".

Fixpoint all_safe (s : string) : bool :=
  match s with
  | EmptyString => true
  | String c s' => is_safe_char c && all_safe s'
  end.

Fixpoint has_slash (s : string) : bool :=
  match s with
  | EmptyString => false
  | String c s' => Ascii.eqb c "/" || has_slash s'
  end.

(** What a media request delivers in the end: the bytes of all its chunks,
    or the exception of the chunk read that fails. *)
Fixpoint script_result (d : download) : exn + Z :=
  match d with
  | LastChunk c => inr (received c)
  | MoreChunks c rest =>
      match script_result rest with
      | inr n => inr (received c + n)
      | inl e => inl e
      end
  | ChunkRaises e => inl e
  end.

(** The chunk reads it takes to get there. *)
Fixpoint script_reads (d : download) : nat :=
  match d with
  | LastChunk _ | ChunkRaises _ => 1
  | MoreChunks _ rest => S (script_reads rest)
  end.

Definition is_edit (ev : event) : bool :=
  match ev with EditText _ _ => true | _ => false end.

(** A progress callback that always returns, leaves the files alone and
    does nothing but edit messages. *)
Definition harmless (cb : option callback) : Prop :=
  forall f, cb = Some f ->
    forall name perc size fin w,
      exists w' evs,
        f name perc size fin w = (inr tt, w')
        /\ fs w' = fs w
        /\ log w' = (log w ++ evs)%list
        /\ forallb is_edit evs = true.

(** The same of the calls with one total size: the calls a transfer of a
    file of that size makes. *)
Definition harmless_for (size : Z) (cb : option callback) : Prop :=
  forall f, cb = Some f ->
    forall name perc fin w,
      exists w' evs,
        f name perc size fin w = (inr tt, w')
        /\ fs w' = fs w
        /\ log w' = (log w ++ evs)%list
        /\ forallb is_edit evs = true.

(** The reuse test of line 41. *)
Definition reuses (file_path : string) (file_size : Z) (w : world) : bool :=
  path_exists file_path w
  && match path_getsize file_path w with
     | inr n => n =? file_size
     | inl _ => false
     end
  && (file_size >? 0).

(** The exception [download_gdrive_file] raises when a chunk read fails
    with [e]. *)
Definition download_error (e : exn) : exn :=
  match e with
  | HttpError _ => AttributeError "details"
  | _ => IOError_
  end.

(** The percentages of the download progress texts in a log, final one
    apart. *)
Fixpoint download_percentages (l : list event) : list Z :=
  match l with
  | [] => []
  | EditText (Progress Downloading percentage _ _ false _ _ _) _ :: l' =>
      percentage :: download_percentages l'
  | _ :: l' => download_percentages l'
  end.

(** Each number is above the one before it, the first above [bound]. *)
Fixpoint increasing_from (bound : Z) (l : list Z) : Prop :=
  match l with
  | [] => True
  | x :: l' => bound < x /\ increasing_from x l'
  end.

(** Sample data for the examples: a service that is always built, a media
    request that delivers an empty body in one chunk, and one that delivers
    30 bytes in two chunks. *)
Definition service_built (credentials : option AuthManager.credentials_object)
  : exn + unit := inr tt.

Definition empty_media (file_id : string) : download :=
  LastChunk (Chunk (Some 0) 0 false).

Definition two_chunk_media (file_id : string) : download :=
  MoreChunks (Chunk (Some 50) 15 false) (LastChunk (Chunk (Some 100) 15 false)).

End FileManager.

(** ** main.py *)
Module Main.

Section Job.
(** config.py *)
Variable LARGE_FILE_THRESHOLD_BYTES : Z.
Variable MAX_FILE_SIZE_TG_BYTES : Z.
(** [gdrive_handler.get_drive_service] and the Drive media behind each
    file id. *)
Variable get_drive_service
  : option AuthManager.credentials_object -> exn + unit.
Variable get_media : string -> FileManager.download.
(** Whether the global name [os] is bound in main.py.  The module has no
    [import os]: the program as written is the instance [false]. *)
Variable os_bound : bool.

Variable chat_id : Z.
(** The result of [auth_manager.load_user_credentials(user.id)]. *)
Variable credentials : option AuthManager.credentials_object.

(** [os.path.exists], [os.path.getsize] and [os.remove] as main.py
    evaluates them. *)
Definition os_path_exists (p : string) : M bool :=
  fun w => if os_bound then (inr (path_exists p w), w)
           else (inl (NameError "os"), w).

Definition os_path_getsize (p : string) : M Z :=
  fun w => if os_bound then (path_getsize p w, w)
           else (inl (NameError "os"), w).

Definition os_remove (p : string) : M unit :=
  fun w => if os_bound then remove p w
           else (inl (NameError "os"), w).

(** [current_op_msg.edit_text(...)] in the loop body. *)
Definition edit_text (text : message) : M unit := bot_call (EditText text).

(** The two progress updaters.  The text is built first, with
    [format_bytes(total_size)] in it, outside the [try].  The text of
    [current_op_msg] is the "Preparing" text, which no progress text
    equals, so the edit is always tried; its failure is logged at debug
    level and dropped. *)
Definition progress_updater (st : stage) (index total : nat)
    (file_path_in_drive : string) : FileManager.callback :=
  fun current_file_name percentage total_size is_final =>
    (FileManager.call_format_bytes total_size ;;;
     try_except
       (edit_text (Progress st percentage current_file_name total_size
                     is_final index total file_path_in_drive))
       (fun _ => ret tt))%M.

(** Lines 230-232. *)
Definition upload_caption (file_info : GDrive.file_info) : M string :=
  (size_text <- FileManager.call_format_bytes (GDrive.fi_size file_info) ;;
   let caption := GDrive.fi_path file_info +:+ " (" +:+ size_text +:+ ")" in
   if (1024 <? String.length caption)%nat then
     size_text <- FileManager.call_format_bytes (GDrive.fi_size file_info) ;;
     ret (GDrive.fi_name file_info +:+ " (" +:+ size_text
          +:+ ") (Path too long)")
   else ret caption)%M.

(** Lines 228-248: the upload and the counting of its outcome. *)
Definition upload_step (index total : nat) (file_info : GDrive.file_info)
    (downloaded_file_path : string) (counters : nat * nat) : M (nat * nat) :=
  let '(successful_uploads, failed_uploads) := counters in
  (caption <- upload_caption file_info ;;
   upload_success <-
     FileManager.upload_to_telegram MAX_FILE_SIZE_TG_BYTES chat_id
       downloaded_file_path caption
       (GDrive.fi_name file_info)
       (Some (progress_updater Uploading index total
                (GDrive.fi_path file_info))) ;;
   if upload_success : bool then ret (S successful_uploads, failed_uploads)
   else ret (successful_uploads, S failed_uploads))%M.

(** Lines 211-225: [None] stands for [continue] after counting a failure,
    [Some tt] for going on to the upload. *)
Definition after_download (file_name : string) (file_size : Z)
    (downloaded_file_path : string) : M (option unit) :=
  (suspicious <-
     (if negb (AuthManager.truthy (Some downloaded_file_path)) then ret true
      else
        present <- os_path_exists downloaded_file_path ;;
        if negb present then ret true
        else
          n <- os_path_getsize downloaded_file_path ;;
          ret ((n =? 0) && (file_size >? 0))) ;;
   if suspicious : bool then
     present <- os_path_exists downloaded_file_path ;;
     if negb present && (file_size >? 0) then
       edit_text (DownloadMissing file_name) ;;;
       ret None
     else
       present <- os_path_exists downloaded_file_path ;;
       empty <- (if present : bool then
                   n <- os_path_getsize downloaded_file_path ;;
                   ret ((n =? 0) && (file_size >? 0))
                 else ret false) ;;
       if empty : bool then
         FileManager.call_format_bytes file_size ;;;     (* line 221 *)
         FileManager.call_format_bytes file_size ;;;     (* line 222 *)
         edit_text (DownloadedEmpty file_name file_size) ;;;
         os_remove downloaded_file_path ;;;
         ret None
       else ret (Some tt)
   else ret (Some tt))%M.

(** The body of the [try] at lines 186-248; both [continue] and falling
    off its end lead to the next file. *)
Definition file_body (index total : nat) (file_info : GDrive.file_info)
    (counters : nat * nat) : M (nat * nat) :=
  let '(successful_uploads, failed_uploads) := counters in
  let file_name := GDrive.fi_name file_info in
  let file_id := GDrive.fi_id file_info in
  let file_size := GDrive.fi_size file_info in
  let file_path_in_drive := GDrive.fi_path file_info in
  (if (file_size >? LARGE_FILE_THRESHOLD_BYTES)
      && negb (bool_decide (is_Some credentials))
   then
     FileManager.call_format_bytes file_size ;;;
     FileManager.call_format_bytes LARGE_FILE_THRESHOLD_BYTES ;;;
     edit_text (LoginRequired file_name file_size LARGE_FILE_THRESHOLD_BYTES) ;;;
     ret (successful_uploads, S failed_uploads)
   else
     (if contains "google-apps" (GDrive.fi_mimeType file_info)
         && (file_size =? 0)
      then edit_text (WorkspaceDocNotice file_name)
      else ret tt) ;;;
     downloaded_file_path <-
       FileManager.download_gdrive_file get_drive_service get_media file_id
         file_name file_size credentials
         (Some (progress_updater Downloading index total file_path_in_drive)) ;;
     go_on <- after_download file_name file_size downloaded_file_path ;;
     match go_on with
     | None => ret (successful_uploads, S failed_uploads)
     | Some _ =>
         upload_step index total file_info downloaded_file_path counters
     end)%M.

(** One turn of the [for] loop: the "Preparing" message, the [try] and
    its three handlers. *)
Definition process_file (index total : nat) (file_info : GDrive.file_info)
    (counters : nat * nat) : M (nat * nat) :=
  let file_name := GDrive.fi_name file_info in
  (bot_call (SendMessage chat_id (Preparing file_name)) ;;;
   try_except
     (file_body index total file_info counters)
     (fun e =>
        let '(successful_uploads, failed_uploads) := counters in
        (if is_ConnectionError e then
           edit_text (GDriveConnectionError file_name e)
         else if is_IOError e then
           edit_text (FileSystemError file_name e)
         else
           edit_text (UnexpectedError file_name e)) ;;;
        ret (successful_uploads, S failed_uploads)))%M.

Fixpoint process_files (index total : nat) (files : list GDrive.file_info)
    (counters : nat * nat) : M (nat * nat) :=
  match files with
  | [] => ret counters
  | file_info :: rest =>
      (counters <- process_file index total file_info counters ;;
       process_files (S index) total rest counters)%M
  end.

Definition send_summary (counters : nat * nat) : M unit :=
  bot_call (SendMessage chat_id (Summary (fst counters) (snd counters))).

(** Lines 146-266, from the enumerated list to the summary. *)
Definition transfer_job (files_to_process : list GDrive.file_info) : M unit :=
  match files_to_process with
  | [] => edit_text NoFilesFound
  | _ :: _ =>
      (edit_text (FoundFiles (length files_to_process)) ;;;
       counters <- process_files 0 (length files_to_process)
                     files_to_process (0%nat, 0%nat) ;;
       send_summary counters)%M
  end.
End Job.


(** *** The lock around handle_message

    A handler runs without interruption from its start to the test of
    [locked()] and on to the acquisition in [async with] (no await in
    between that suspends it); it then stays inside the [async with] block
    until it leaves the block, which releases the lock.  [run] takes the
    bot through any sequence of handlers entering and leaving, as handlers
    run as concurrent tasks would; [dispatch] gives the sequences that
    occur as main() sets the bot up. *)
Record update : Type := Update {
  effective_user : Z;
  effective_chat : Z;
  message_text : string
}.

#[global] Instance update_eq_dec : EqDecision update.
Proof. solve_decision. Defined.

(** [user_processing_locks] maps a chat id to the state of its lock;
    [inside] lists the handlers that are inside their [async with] block. *)
Record bot : Type := Bot {
  user_processing_locks : gmap Z bool;
  inside : list update;
  replies : list (Z * message)
}.

Definition start : bot := Bot ∅ [] [].

(** Lines 87-100 for one incoming update. *)
Definition handle_message_enter (upd : update) (b : bot) : bot :=
  let chat_id := effective_chat upd in
  let locks :=
    match user_processing_locks b !! chat_id with
    | None => <[chat_id := false]> (user_processing_locks b)
    | Some _ => user_processing_locks b
    end in
  if default false (locks !! chat_id) then
    Bot locks (inside b) (replies b ++ [(chat_id, Busy)])%list
  else
    Bot (<[chat_id := true]> locks) (inside b ++ [upd])%list (replies b).

(** A handler inside its block leaves it. *)
Definition handle_message_leave (upd : update) (b : bot) : bot :=
  if bool_decide (upd ∈ inside b) then
    Bot (<[effective_chat upd := false]> (user_processing_locks b))
        (List.filter (fun u => negb (bool_decide (u = upd))) (inside b))
        (replies b)
  else b.

Inductive step : Type :=
| Enter (upd : update)
| Leave (upd : update).

Definition do_step (b : bot) (s : step) : bot :=
  match s with
  | Enter upd => handle_message_enter upd b
  | Leave upd => handle_message_leave upd b
  end.

(** Handlers enter and leave in any order: the states the lock has to
    cope with when handlers run as concurrent tasks. *)
Definition run (steps : list step) : bot := fold_left do_step steps start.


Definition jobs_of_user (user : Z) (b : bot) : list update :=
  List.filter (fun u => bool_decide (effective_user u = user)) (inside b).

Definition jobs_of_chat (chat_id : Z) (b : bot) : list update :=
  List.filter (fun u => bool_decide (effective_chat u = chat_id)) (inside b).

(** *** The link test of handle_message (line 123)

    [https?://drive\.google\.com/(?:file/d/|drive/folders/|open\?id=)]
    followed by the id group: the literal prefixes the pattern can take. *)
Definition DRIVE_LINK_SHAPES : list string :=
  [ "https://drive.google.com/file/d/";
    "https://drive.google.com/drive/folders/";
    "https://drive.google.com/open?id=";
    "http://drive.google.com/file/d/";
    "http://drive.google.com/drive/folders/";
    "http://drive.google.com/open?id=" ].

Definition drive_link_match (message_text : string) : option string :=
  GDrive.re_search DRIVE_LINK_SHAPES message_text.

(** *** The login hint after a failed enumeration (lines 139-144)

    [exn_text] stands for [str(e)] of the exception caught while a folder
    was listed. *)
Section Hint.
Variable exn_text : exn -> string.

(** The error messages of get_drive_items_from_link as texts. *)
Definition error_text (error_msg : GDrive.error_msg) : string :=
  match error_msg with
  | GDrive.InvalidLinkFormat => "Invalid Google Drive link format."
  | GDrive.CouldNotFetchMetadata =>
      "Could not fetch metadata for the provided link. It might be private, invalid, or API access issue."
  | GDrive.ErrorProcessingFolder name e =>
      "Error processing folder '" +:+ name +:+ "': " +:+ exn_text e
  end.

(** Whether "Try /login and then send the link again" is sent. *)
Definition suggests_login (error_msg : GDrive.error_msg)
    (credentials : option AuthManager.credentials_object) : bool :=
  let t := error_text error_msg in
  (contains "401" t || contains "403" t || contains "Credentials" t)
  && negb (bool_decide (is_Some credentials)).
End Hint.

(** A rendering of exceptions for examples. *)
Definition sample_exn_text (e : exn) : string :=
  match e with
  | HttpError status => "<HttpError " +:+ pretty status +:+ ">"
  | AttributeError name =>
      "'HttpError' object has no attribute '" +:+ name +:+ "'"
  | _ => "error"
  end.

(** *** logout_command and status_command (lines 66-83)

    The commands act on the token file and end by sending one reply;
    [reply_ok] tells whether that reply_text call succeeds. *)
Inductive command_reply : Type :=
| LoggedOut             (* "You have been successfully logged out. ..." *)
| NothingToRemove       (* "You were not logged in, or no credentials ..." *)
| LoggedIn              (* "You are currently logged in to Google Drive. ..." *)
| SessionExpired        (* "Your Google Drive session has expired. ..." *)
| NotLoggedIn.          (* "You are not logged in. Files larger than ..." *)

Definition reply_text (reply_ok : bool) (text : command_reply)
  : exn + command_reply :=
  if reply_ok then inr text else inl TelegramError.

Definition logout_command (user_id : Z) (reply_ok : bool)
    (f : AuthManager.token_file)
  : (exn + command_reply) * AuthManager.token_file :=
  match AuthManager.delete_user_credentials user_id f with
  | (inr true, f') => (reply_text reply_ok LoggedOut, f')
  | (inr false, f') => (reply_text reply_ok NothingToRemove, f')
  | (inl e, f') => (inl e, f')
  end.

Section Status.
Variable LARGE_FILE_THRESHOLD_BYTES : Z.
Variable reached : Z -> bool.
Variable refresh
  : AuthManager.credentials_object -> exn + AuthManager.credentials_object.

Definition status_command (user_id : Z) (reply_ok : bool)
    (f : AuthManager.token_file)
  : (exn + command_reply) * AuthManager.token_file :=
  match AuthManager.load_user_credentials reached refresh user_id f with
  | (inl e, f') => (inl e, f')
  | (inr (Some creds), f') =>
      if negb (AuthManager.expired reached creds)
      then (reply_text reply_ok LoggedIn, f')
      else
        match reply_text reply_ok SessionExpired with
        | inl e => (inl e, f')
        | inr text =>
            match AuthManager.delete_user_credentials user_id f' with
            | (inr _, f'') => (inr text, f'')
            | (inl e, f'') => (inl e, f'')
            end
        end
  | (inr None, f') =>
      (* the text holds format_bytes(LARGE_FILE_THRESHOLD_BYTES) *)
      match FileManager.format_bytes (Some LARGE_FILE_THRESHOLD_BYTES) with
      | FileManager.RaisesKeyError n => (inl (KeyError n), f')
      | FileManager.Text _ => (reply_text reply_ok NotLoggedIn, f')
      end
  end.
End Status.

(** Log entries of an upload: the entry into upload_to_telegram and a
    document sent. *)
Definition is_upload_event (ev : event) : bool :=
  match ev with
  | Called_upload_to_telegram _ | SendDocument _ _ _ _ _ => true
  | _ => false
  end.

(** Entries that neither a download, nor an edit of the status message,
    nor the "Preparing" message adds to the log. *)
Definition not_of_a_download (p : event -> bool) : Prop :=
  (forall file_id, p (Called_download_gdrive_file file_id) = false)
  /\ (forall file_id, p (NextChunk file_id) = false)
  /\ (forall text ok, p (EditText text ok) = false)
  /\ (forall chat_id file_name ok,
        p (SendMessage chat_id (Preparing file_name) ok) = false).

(** The notice a download ends in when a chunk read fails with [e]. *)
Definition download_failure_notice (file_name : string) (e : exn) : message :=
  match e with
  | HttpError _ => UnexpectedError file_name (AttributeError "details")
  | _ => FileSystemError file_name IOError_
  end.

Definition lock_held (chat_id : Z) (b : bot) : bool :=
  default false (user_processing_locks b !! chat_id).

(** The lock of a chat is held exactly while one handler of that chat is
    inside its block. *)
Definition consistent (b : bot) : Prop :=
  forall chat_id,
    if lock_held chat_id b then exists upd, jobs_of_chat chat_id b = [upd]
    else jobs_of_chat chat_id b = [].

(** Sample data for the examples: the default thresholds of config.py,
    files of 3000 MiB and of 30 bytes. *)
Definition MiB : Z := 1024 * 1024.
Definition default_LARGE_FILE_THRESHOLD_BYTES : Z := 50 * MiB.
Definition default_MAX_FILE_SIZE_TG_BYTES : Z := 2000 * MiB.

Definition big_file : GDrive.file_info :=
  GDrive.FileInfo "idBig" "big.iso" "application/octet-stream" (3000 * MiB)
    "big.iso" false.

Definition hundred_MiB_file : GDrive.file_info :=
  GDrive.FileInfo "idMid" "mid.bin" "application/octet-stream" (100 * MiB)
    "mid.bin" false.

Definition small_file : GDrive.file_info :=
  GDrive.FileInfo "idA" "a.txt" "text/plain" 30 "Root/a.txt" false.

(** By file id: 3000 MiB for the big file, 30 bytes for any other. *)
Definition sample_media (file_id : string) : FileManager.download :=
  if String.eqb file_id "idBig"
  then FileManager.LastChunk (FileManager.Chunk (Some 100) (3000 * MiB) false)
  else FileManager.LastChunk (FileManager.Chunk (Some 100) 30 false).

(** A media request that delivers [size] bytes in one chunk. *)
Definition one_chunk_media (size : Z) (file_id : string) : FileManager.download :=
  FileManager.LastChunk (FileManager.Chunk (Some 100) size false).

End Main.

(** * Properties *)

(** ** Enumeration (gdrive_handler.py) *)
Section Enumeration.
Import GDrive.

Lemma node_rect' (P : node -> Prop) :
  (forall m ok cs, Forall P cs -> P (Node m ok cs)) -> forall n, P n.
Proof.
  intros step. fix IH 1. intros [m ok cs]. apply step.
  induction cs as [|c cs IHcs]; constructor; [apply IH | exact IHcs].
Qed.

Lemma items_loop_eq current_path items acc :
  (fix items_loop (items : list (drive_file * listing))
       (files_and_folders : list file_info) : exn + list file_info :=
     match items with
     | [] => inr files_and_folders
     | (item, sub_answers) :: items' =>
         let details := item_details current_path item in
         let files_and_folders := (files_and_folders ++ [details])%list in
         if fi_is_folder details then
           match list_files_in_folder_recursive sub_answers (fi_path details) with
           | inl e => inl (except_handlers e)
           | inr sub_items => items_loop items' (files_and_folders ++ sub_items)%list
           end
         else items_loop items' files_and_folders
     end) items acc
  = items_loop current_path items acc.
Proof.
  revert acc. induction items as [|[item sub] items IH]; intros acc; [reflexivity|].
  cbn [items_loop]. cbv zeta.
  destruct (fi_is_folder (item_details current_path item)); [|apply IH].
  destruct (list_files_in_folder_recursive sub _); [reflexivity|apply IH].
Qed.

Lemma list_files_in_folder_recursive_pages ps current_path :
  list_files_in_folder_recursive (Pages ps) current_path
  = pages_loop current_path ps [].
Proof.
  cbn [list_files_in_folder_recursive].
  match goal with
  | |- ?f ps [] = _ =>
      enough (H : forall acc, f ps acc = pages_loop current_path ps acc)
        by apply H
  end.
  induction ps as [|response ps IH]; intros acc; [reflexivity|].
  cbn [pages_loop].
  match goal with
  | |- match ?g response acc with _ => _ end = _ =>
      replace (g response acc) with (items_loop current_path response acc)
        by (symmetry; apply items_loop_eq)
  end.
  destruct (items_loop current_path response acc); [reflexivity|apply IH].
Qed.

(** The page boundaries do not matter. *)
Lemma items_loop_app current_path xs ys acc :
  items_loop current_path (xs ++ ys) acc
  = match items_loop current_path xs acc with
    | inl e => inl e
    | inr acc' => items_loop current_path ys acc'
    end.
Proof.
  revert acc. induction xs as [|[item sub] xs IH]; intros acc; [reflexivity|].
  cbn [items_loop app]. cbv zeta.
  destruct (fi_is_folder (item_details current_path item)); [|apply IH].
  destruct (list_files_in_folder_recursive sub _); [reflexivity|apply IH].
Qed.

Lemma pages_loop_concat current_path ps acc :
  pages_loop current_path ps acc = items_loop current_path (concat ps) acc.
Proof.
  revert acc. induction ps as [|p ps IH]; intros acc; [reflexivity|].
  cbn [pages_loop concat]. rewrite items_loop_app.
  destruct (items_loop current_path p acc); [reflexivity|apply IH].
Qed.

Lemma concat_paginate_fuel {A} fuel k (l : list A) :
  concat (paginate_fuel fuel k l) = l.
Proof.
  revert l. induction fuel as [|fuel IH]; intros [|x l]; cbn [paginate_fuel];
    try reflexivity.
  - cbn. now rewrite app_nil_r.
  - cbn [concat]. rewrite IH. apply (take_drop (S k) (x :: l)).
Qed.

Lemma concat_paginate {A} k (l : list A) : concat (paginate k l) = l.
Proof. apply concat_paginate_fuel. Qed.

(** The model of [orderBy='folder,name'] returns a sorted permutation. *)
Lemma folder_name_le_total a b :
  folder_name_le a b = false -> folder_name_le b a = true.
Proof.
  unfold folder_name_le.
  destruct (mime_is_folder a), (mime_is_folder b); try congruence;
    intros H; destruct (String.leb_total (f_name a) (f_name b)); congruence.
Qed.

Lemma insert_by_perm {B} (x : drive_file * B) l :
  Permutation (insert_by x l) (x :: l).
Proof.
  induction l as [|y l IH]; cbn [insert_by]; [reflexivity|].
  destruct (folder_name_le (fst x) (fst y)); [reflexivity|].
  rewrite IH. apply perm_swap.
Qed.

Lemma order_by_folder_name_perm {B} (l : list (drive_file * B)) :
  Permutation (order_by_folder_name l) l.
Proof.
  induction l as [|x l IH]; cbn [order_by_folder_name]; [reflexivity|].
  rewrite insert_by_perm. now constructor.
Qed.

Lemma insert_by_sorted {B} (x : drive_file * B) l :
  Sorted key_le l -> Sorted key_le (insert_by x l).
Proof.
  induction 1 as [|y l Hs IH Hhd]; cbn [insert_by].
  - repeat constructor.
  - destruct (folder_name_le (fst x) (fst y)) eqn:E.
    + constructor; [constructor; assumption|]. constructor. exact E.
    + constructor; [exact IH|].
      destruct l as [|z l]; cbn [insert_by].
      * constructor. now apply folder_name_le_total.
      * destruct (folder_name_le (fst x) (fst z)).
        -- constructor. now apply folder_name_le_total.
        -- inversion Hhd; subst. now constructor.
Qed.

Lemma order_by_folder_name_sorted {B} (l : list (drive_file * B)) :
  Sorted key_le (order_by_folder_name l).
Proof.
  induction l as [|x l IH]; cbn [order_by_folder_name]; [constructor|].
  now apply insert_by_sorted.
Qed.

Lemma insert_by_map {B C} (f : B -> C) x l :
  insert_by (on_snd f x) (map (on_snd f) l) = map (on_snd f) (insert_by x l).
Proof.
  induction l as [|y l IH]; cbn [insert_by map]; [reflexivity|].
  cbn [on_snd fst]. destruct (folder_name_le (fst x) (fst y)); [reflexivity|].
  cbn [map]. f_equal. apply IH.
Qed.

Lemma order_by_map {B C} (f : B -> C) l :
  order_by_folder_name (map (on_snd f) l)
  = map (on_snd f) (order_by_folder_name l).
Proof.
  induction l as [|x l IH]; cbn [order_by_folder_name map]; [reflexivity|].
  rewrite IH. apply insert_by_map.
Qed.

Lemma keyed_Forall (P : node -> Prop) cs :
  Forall P cs ->
  Forall (fun p => P (snd p) /\ fst p = meta_of (snd p)) (keyed cs).
Proof.
  intros H. unfold keyed.
  eapply Permutation_Forall; [symmetry; apply order_by_folder_name_perm|].
  induction H; cbn [map]; constructor; auto.
Qed.

Lemma files_list_keyed k m cs :
  files_list k (Node m true cs)
  = Pages (paginate k (map (on_snd (files_list k)) (keyed cs))).
Proof.
  cbn [files_list]. unfold keyed. rewrite <- order_by_map.
  now rewrite map_map.
Qed.

Lemma spec_enumerate_keyed m ok cs path_of_n :
  spec_enumerate (Node m ok cs) path_of_n
  = concat (map (fun p => spec_entry path_of_n (snd p)) (keyed cs)).
Proof.
  cbn [spec_enumerate]. unfold keyed.
  change (map (fun c => let d := item_details path_of_n (meta_of c) in
                        (meta_of c, if mime_is_folder (meta_of c)
                                    then spec_enumerate c (fi_path d)
                                    else [d])) cs)
    with (map (fun c => on_snd (spec_entry path_of_n) (meta_of c, c)) cs).
  rewrite <- (map_map (fun c => (meta_of c, c)) (on_snd (spec_entry path_of_n))).
  rewrite order_by_map, map_map. reflexivity.
Qed.

Lemma items_loop_spec k path (S : list (drive_file * node)) :
  Forall (fun p => walk_ok k (snd p) /\ fst p = meta_of (snd p)) S ->
  forall acc out,
    items_loop path (map (on_snd (files_list k)) S) acc = inr out ->
    List.filter not_folder out
    = (List.filter not_folder acc
       ++ concat (map (fun p => spec_entry path (snd p)) S))%list.
Proof.
  induction 1 as [|[m c] S [Hc Hm] _ IH]; intros acc out.
  - cbn. intros [= <-]. now rewrite app_nil_r.
  - cbn [map on_snd fst snd items_loop concat] in *. cbv zeta. subst m.
    unfold spec_entry at 1. cbv zeta.
    change (fi_is_folder (item_details path (meta_of c)))
      with (mime_is_folder (meta_of c)).
    destruct (mime_is_folder (meta_of c)) eqn:E.
    + destruct (list_files_in_folder_recursive _ _) as [e|sub] eqn:R;
        [discriminate|].
      intros Hout. rewrite (IH _ _ Hout).
      rewrite !List.filter_app. cbn [List.filter]. unfold not_folder at 2.
      change (fi_is_folder (item_details path (meta_of c)))
        with (mime_is_folder (meta_of c)). rewrite E. cbn [negb].
      rewrite (Hc _ _ R), app_nil_r, app_assoc. reflexivity.
    + intros Hout. rewrite (IH _ _ Hout).
      rewrite !List.filter_app. cbn [List.filter]. unfold not_folder at 2.
      change (fi_is_folder (item_details path (meta_of c)))
        with (mime_is_folder (meta_of c)). rewrite E. cbn [negb].
      now rewrite <- app_assoc.
Qed.

Lemma walk_spec k n : walk_ok k n.
Proof.
  induction n as [m ok cs IH] using node_rect'. intros path all.
  destruct ok; [|discriminate].
  rewrite files_list_keyed, list_files_in_folder_recursive_pages,
    pages_loop_concat, concat_paginate, spec_enumerate_keyed.
  intros H. apply (items_loop_spec k path) in H; [exact H|].
  now apply keyed_Forall.
Qed.

Lemma items_loop_returns k path (S : list (drive_file * node)) :
  Forall (fun p => (walk_returns k (snd p) /\ all_listable (snd p) = true)
                   /\ fst p = meta_of (snd p)) S ->
  forall acc, exists out,
    items_loop path (map (on_snd (files_list k)) S) acc = inr out.
Proof.
  induction 1 as [|[m c] S [[Hc Hl] Hm] _ IH]; intros acc.
  - now exists acc.
  - cbn [map on_snd fst snd items_loop] in *. cbv zeta.
    destruct (fi_is_folder _); [|apply IH].
    destruct (Hc Hl (fi_path (item_details path m))) as [sub ->]. apply IH.
Qed.

Lemma walk_total k n : walk_returns k n.
Proof.
  induction n as [m ok cs IH] using node_rect'. intros Hl path.
  cbn [all_listable] in Hl. apply andb_prop in Hl as [-> Hcs].
  rewrite files_list_keyed, list_files_in_folder_recursive_pages,
    pages_loop_concat, concat_paginate.
  apply items_loop_returns.
  apply (keyed_Forall (fun c => walk_returns k c /\ all_listable c = true)).
  rewrite forallb_forall in Hcs. rewrite Forall_forall in IH |- *.
  intros c Hc. split; [apply IH, Hc|]. apply Hcs.
  first [ apply list_elem_of_In, Hc | exact Hc ].
Qed.

Lemma string_app_assoc (a b c : string) : (a +:+ b) +:+ c = a +:+ b +:+ c.
Proof.
  induction a as [|x a IH]; [reflexivity|].
  exact (f_equal (String x) IH).
Qed.

Lemma item_path_nested r x a b :
  item_path (item_path r (String x a)) b
  = item_path r (String x a +:+ "/" +:+ b).
Proof.
  destruct r as [|y r]; [reflexivity|].
  change ((String y r +:+ "/" +:+ String x a) +:+ "/" +:+ b
          = String y r +:+ "/" +:+ String x a +:+ "/" +:+ b).
  now rewrite !string_app_assoc.
Qed.

Lemma find_in_drive_head file_id n drive :
  f_id (meta_of n) = file_id -> find_in_drive file_id (n :: drive) = Some n.
Proof.
  intros <-. destruct n as [m ok cs]. cbn [find_in_drive find_node meta_of].
  now rewrite String.eqb_refl.
Qed.

(** What the entry point returns for a link to a folder. *)
Lemma get_drive_items_from_link_folder k drive drive_link root_id root :
  get_file_id_from_link drive_link = Some root_id ->
  find_in_drive root_id drive = Some root ->
  mime_is_folder (meta_of root) = true ->
  get_drive_items_from_link k drive drive_link
  = match list_files_in_folder_recursive (files_list k root)
            (f_name (meta_of root)) with
    | inr all_items => (Some (List.filter not_folder all_items), None)
    | inl e => (None, Some (ErrorProcessingFolder (f_name (meta_of root)) e))
    end.
Proof.
  intros Hid Hfind Hmime. unfold get_drive_items_from_link.
  rewrite Hid. unfold get_file_metadata, files_list_of_id. rewrite Hfind.
  cbn [fmap option_fmap option_map]. unfold mime_is_folder in Hmime.
  rewrite Hmime. reflexivity.
Qed.

Lemma filter_not_folder all :
  Forall (fun item => fi_is_folder item = false) (List.filter not_folder all).
Proof.
  apply Forall_forall. intros item Hin. apply list_elem_of_In in Hin.
  apply List.filter_In in Hin as [_ H]. unfold not_folder in H.
  now destruct (fi_is_folder item).
Qed.

(** At every level [spec_enumerate] goes through the children in an order
    that is a rearrangement of them with folders before files, then by
    name, and puts each child's part in that place. *)
Lemma spec_enumerate_level m ok cs path_of_n :
  exists ordered,
    Permutation cs ordered
    /\ Sorted node_le ordered
    /\ spec_enumerate (Node m ok cs) path_of_n
       = concat (map (spec_entry path_of_n) ordered).
Proof.
  exists (map snd (keyed cs)). split; [|split].
  - unfold keyed.
    rewrite (order_by_folder_name_perm (map (fun c => (meta_of c, c)) cs)).
    rewrite map_map. cbn [snd]. now rewrite map_id.
  - assert (Hall : Forall (fun p : drive_file * node => fst p = meta_of (snd p))
                     (keyed cs)).
    { assert (Ht : Forall (fun _ : node => True) cs) by now apply Forall_forall.
      apply keyed_Forall in Ht. rewrite Forall_forall in Ht |- *.
      intros p Hp. now destruct (Ht p Hp). }
    pose proof (order_by_folder_name_sorted (map (fun c => (meta_of c, c)) cs))
      as Hs. fold (keyed cs) in Hs.
    induction Hs as [|p l Hs IH Hhd]; cbn [map]; [constructor|].
    inversion Hall as [|? ? Hp Hl]; subst. constructor; [now apply IH|].
    destruct Hhd as [|q l Hpq]; cbn [map]; constructor.
    inversion Hl as [|? ? Hq _]; subst.
    unfold node_le. unfold key_le in Hpq. now rewrite <- Hp, <- Hq.
  - rewrite spec_enumerate_keyed. now rewrite map_map.
Qed.

Lemma get_drive_items_from_link_listable k drive drive_link root_id root :
  get_file_id_from_link drive_link = Some root_id ->
  find_in_drive root_id drive = Some root ->
  mime_is_folder (meta_of root) = true ->
  all_listable root = true ->
  get_drive_items_from_link k drive drive_link
  = (Some (spec_enumerate root (f_name (meta_of root))), None).
Proof.
  intros Hid Hfind Hmime Hl.
  rewrite (get_drive_items_from_link_folder _ _ _ _ _ Hid Hfind Hmime).
  destruct (walk_total k root Hl (f_name (meta_of root))) as [all R].
  rewrite R. now rewrite (walk_spec k root _ _ R).
Qed.

(** C9: for a link that resolves to a folder, whatever list the
    enumerator returns holds no folder item and is the enumeration in the
    specification's order (folders before files, then by name, at every
    level, each subfolder's results in place); and it does return that
    list whenever every folder of the tree can be listed. *)
Theorem enumerator_output_files_in_order k drive drive_link root_id root :
  get_file_id_from_link drive_link = Some root_id ->
  find_in_drive root_id drive = Some root ->
  mime_is_folder (meta_of root) = true ->
  (forall files,
      fst (get_drive_items_from_link k drive drive_link) = Some files ->
      Forall (fun item => fi_is_folder item = false) files
      /\ files = spec_enumerate root (f_name (meta_of root)))
  /\ (all_listable root = true ->
      get_drive_items_from_link k drive drive_link
      = (Some (spec_enumerate root (f_name (meta_of root))), None)).
Proof.
  intros Hid Hfind Hmime. split.
  - intros files.
    rewrite (get_drive_items_from_link_folder _ _ _ _ _ Hid Hfind Hmime).
    destruct (list_files_in_folder_recursive _ _) as [e|all] eqn:R;
      cbn [fst]; [discriminate|].
    intros [= <-]. split; [apply filter_not_folder|].
    now apply (walk_spec k root).
  - intros Hl. now apply (get_drive_items_from_link_listable k drive drive_link root_id root).
Qed.

Lemma enumerator_output_files_in_order_witness :
  (forall files,
      fst (get_drive_items_from_link 0 (scenario_drive "ROOT" "Root")
             scenario_link) = Some files ->
      Forall (fun item => fi_is_folder item = false) files
      /\ files = spec_enumerate (folder "ROOT" "Root" scenario_children) "Root")
  /\ (all_listable (folder "ROOT" "Root" scenario_children) = true ->
      get_drive_items_from_link 0 (scenario_drive "ROOT" "Root") scenario_link
      = (Some (spec_enumerate (folder "ROOT" "Root" scenario_children) "Root"),
         None)).
Proof.
  apply (enumerator_output_files_in_order 0 (scenario_drive "ROOT" "Root")
           scenario_link "ROOT" (folder "ROOT" "Root" scenario_children));
    reflexivity.
Defined.

(** C1, as stated, fails: the scenario folder does not enumerate to
    a.txt, b.txt, sub/c.txt. *)
Lemma scenario_paths_not_files_first :
  option_map (map fi_path)
    (fst (get_drive_items_from_link 0 (scenario_drive "ROOT" "Root")
            scenario_link))
  <> Some ["a.txt"; "b.txt"; "sub/c.txt"].
Proof. vm_compute. discriminate. Qed.

(** C1, amended: the scenario folder, under whatever name and id the link
    resolves to and whatever the page size, enumerates to the subfolder's
    file first, then the two files by name, each path starting with the
    linked folder's name. *)
Theorem scenario_enumeration k root_id root_name drive_link :
  get_file_id_from_link drive_link = Some root_id ->
  let result :=
    get_drive_items_from_link k (scenario_drive root_id root_name) drive_link in
  snd result = None
  /\ option_map (map fi_path) (fst result)
     = Some (map (item_path root_name) ["sub/c.txt"; "a.txt"; "b.txt"])
  /\ option_map (map fi_size) (fst result) = Some [5; 20; 10].
Proof.
  intros Hid result. subst result.
  rewrite (get_drive_items_from_link_listable k
             (scenario_drive root_id root_name) drive_link root_id
             (folder root_id root_name scenario_children) Hid);
    [|now apply find_in_drive_head|reflexivity|reflexivity].
  cbn [fst snd option_map].
  split; [reflexivity|]. split; [|reflexivity].
  vm_compute spec_enumerate. cbn [map fi_path]. f_equal.
  change (item_path (item_path root_name "sub") "c.txt"
          :: item_path root_name "a.txt" :: item_path root_name "b.txt" :: nil
          = map (item_path root_name) ["sub/c.txt"; "a.txt"; "b.txt"]).
  now rewrite item_path_nested.
Qed.

Lemma scenario_enumeration_witness :
  let result :=
    get_drive_items_from_link 0 (scenario_drive "ROOT" "Root") scenario_link in
  snd result = None
  /\ option_map (map fi_path) (fst result)
     = Some (map (item_path "Root") ["sub/c.txt"; "a.txt"; "b.txt"])
  /\ option_map (map fi_size) (fst result) = Some [5; 20; 10].
Proof. apply (scenario_enumeration 0 "ROOT" "Root" scenario_link). reflexivity. Defined.

End Enumeration.

(** ** The credential store (auth_manager.py) *)
Section CredentialStore.
Import AuthManager.

(** [save] and [load] take corrupted content for an empty store. *)
Lemma save_on_corrupt_store user_id creds :
  save_user_credentials user_id creds Garbage
  = (inr tt, Stored {[ str user_id := creds ]}).
Proof. reflexivity. Qed.

Lemma load_on_corrupt_store reached refresh user_id :
  load_user_credentials reached refresh user_id Garbage = (inr None, Garbage).
Proof. reflexivity. Qed.

Lemma save_on_usable user_id creds f :
  usable f = true ->
  exists m, save_user_credentials user_id creds f = (inr tt, Stored m)
            /\ m !! str user_id = Some creds.
Proof.
  intros H. destruct f as [| | |v|m]; try discriminate; cbn; eexists;
    (split; [reflexivity|]); apply lookup_insert_eq.
Qed.

(** C3 fails on [delete_user_credentials]: on a token file that is not
    valid JSON the call raises JSONDecodeError and leaves the file as it
    is, where [save] and [load] catch the error. *)
Theorem delete_raises_on_corrupt_store :
  delete_user_credentials 42 Garbage = (inl JSONDecodeError, Garbage).
Proof. reflexivity. Qed.

Lemma delete_raises_on_any_corrupt_store user_id :
  delete_user_credentials user_id Garbage = (inl JSONDecodeError, Garbage).
Proof. reflexivity. Qed.

Lemma delete_on_stored user_id all_tokens :
  delete_user_credentials user_id (Stored all_tokens)
  = match all_tokens !! str user_id with
    | Some _ => (inr true, Stored (delete (str user_id) all_tokens))
    | None => (inr false, Stored all_tokens)
    end.
Proof. reflexivity. Qed.

Lemma load_absent_user reached refresh user_id all_tokens :
  all_tokens !! str user_id = None ->
  load_user_credentials reached refresh user_id (Stored all_tokens)
  = (inr None, Stored all_tokens).
Proof. intros H. cbn. now rewrite H. Qed.

(** The object built from a stored entry has no expiry, so the test of
    line 99 fails and lines 100-108 are never run: [load] is a lookup. *)
Lemma load_is_a_lookup reached refresh user_id f :
  load_user_credentials reached refresh user_id f
  = (match f with
     | Absent | Garbage => inr None
     | Undecodable => inl UnicodeDecodeError_
     | NotAnObject _ => inl (AttributeError "get")
     | Stored all_tokens => inr (from_dict <$> all_tokens !! str user_id)
     end, f).
Proof.
  destruct f as [| | |v|m]; try reflexivity.
  unfold load_user_credentials. cbn [exists_ negb json_load].
  now destruct (m !! str user_id).
Qed.

(** C7 fails on every credential that has really expired.  A user logs
    in and gets an object whose access token expires at time 1000 and which
    has a refresh token; [save] stores its six fields.  At a time past 2000
    the object is expired, but [load] builds an object without expiry from
    the stored fields, does not try the refresh that would succeed, and
    returns the old access token; with a refresh that would be refused it
    neither deletes the entry nor returns None. *)
Theorem load_returns_expired_credential_unrefreshed :
  let f := snd (save_user_credentials 42 (persisted sample_object) Absent) in
  expired after_2000 sample_object = true
  /\ truthy (refresh_token (persisted sample_object)) = true
  /\ load_user_credentials after_2000 refresh_granted 42 f
     = (inr (Some (from_dict sample_credentials)), f)
  /\ load_user_credentials after_2000 refresh_revoked 42 f
     = (inr (Some (from_dict sample_credentials)), f)
  /\ token (persisted (from_dict sample_credentials)) = Some "stale".
Proof.
  cbv zeta. split; [reflexivity|]. split; [reflexivity|].
  rewrite !load_is_a_lookup. cbn [save_user_credentials exists_ snd].
  rewrite lookup_insert_eq. repeat split.
Qed.

End CredentialStore.

(** ** Computations on the world *)
Section Effects.

Lemma bind_inr {A B} (m : M A) (k : A -> M B) w b w' :
  bind m k w = (inr b, w') ->
  exists a w1, m w = (inr a, w1) /\ k a w1 = (inr b, w').
Proof.
  unfold bind. destruct (m w) as [[e|a] w1]; [discriminate|]. eauto.
Qed.

Lemma ret_inr {A} (a b : A) w w' : ret a w = (inr b, w') -> a = b.
Proof. now intros [= -> _]. Qed.


Lemma bind_raises {A B} (m : M A) (k : A -> M B) w e w1 :
  m w = (inl e, w1) -> bind m k w = (inl e, w1).
Proof. unfold bind. now intros ->. Qed.

Lemma bot_call_spec ev w :
  bot_call ev w
  = (if next_answer w then inr tt else inl TelegramError,
     World (fs w) (dirs w) (tail (bot_answers w))
       (log w ++ [ev (next_answer w)])%list).
Proof. unfold bot_call, next_answer. now destruct (bot_answers w) as [|[] rest]. Qed.

Lemma bot_call_quiet ev w :
  bot_answers w = [] ->
  bot_call ev w
  = (inr tt, World (fs w) (dirs w) [] (log w ++ [ev true])%list).
Proof. intros H. unfold bot_call. now rewrite H. Qed.

(** A regular file is not a directory, exists, and has its size. *)
Lemma regular_file p n w :
  fs w !! p = Some n ->
  path_exists p w = true /\ is_directory p w = false
  /\ path_getsize p w = inr n.
Proof.
  intros H. unfold path_exists, is_directory, path_getsize. rewrite H.
  rewrite (bool_decide_eq_true_2 (is_Some (Some n))) by eauto. auto.
Qed.

(** A path that is neither a file nor a directory. *)
Lemma missing_path p w :
  fs w !! p = None -> dirs w !! p = None ->
  path_exists p w = false /\ is_directory p w = false.
Proof.
  intros H1 H2. unfold path_exists, is_directory. rewrite H1, H2.
  rewrite (bool_decide_eq_false_2 (is_Some None))
    by (intros [? ?]; discriminate). auto.
Qed.

(** *** Relations that every step of a computation respects *)
Section Respects.
Context (R : world -> world -> Prop).
Hypothesis R_refl : forall w, R w w.
Hypothesis R_trans : forall w1 w2 w3, R w1 w2 -> R w2 w3 -> R w1 w3.

Lemma respects_ret {A} (a : A) : respects R (ret a).
Proof. intros w. apply R_refl. Qed.

Lemma respects_raise {A} e : respects R (@raise A e).
Proof. intros w. apply R_refl. Qed.

Lemma respects_lift {A} (r : exn + A) : respects R (lift r).
Proof. intros w. apply R_refl. Qed.

(** A step that looks at the world and leaves it as it is. *)
Lemma respects_query {A} (q : world -> exn + A) :
  respects R (fun w => (q w, w)).
Proof. intros w. apply R_refl. Qed.

Lemma respects_bind {A B} (m : M A) (k : A -> M B) :
  respects R m -> (forall a, respects R (k a)) -> respects R (bind m k).
Proof.
  intros Hm Hk w. unfold bind. specialize (Hm w).
  destruct (m w) as [[e|a] w1]; cbn [snd] in *; [exact Hm|].
  exact (R_trans _ _ _ Hm (Hk a w1)).
Qed.

Lemma respects_try_except {A} (m : M A) h :
  respects R m -> (forall e, respects R (h e)) -> respects R (try_except m h).
Proof.
  intros Hm Hh w. unfold try_except. specialize (Hm w).
  destruct (m w) as [[e|a] w1]; cbn [snd] in *; [|exact Hm].
  exact (R_trans _ _ _ Hm (Hh e w1)).
Qed.

Lemma respects_try_finally {A} (m : M A) (c : world -> world) :
  respects R m -> (forall w, R w (c w)) -> respects R (try_finally m c).
Proof.
  intros Hm Hc w. unfold try_finally. specialize (Hm w).
  destruct (m w) as [r w1]. cbn [snd] in *.
  exact (R_trans _ _ _ Hm (Hc w1)).
Qed.

Lemma respects_if {A} (b : bool) (m1 m2 : M A) :
  respects R m1 -> respects R m2 -> respects R (if b then m1 else m2).
Proof. now destruct b. Qed.

(** A step that changes the world in a way [R] allows. *)
Lemma respects_change {A} (a : A) (g : world -> world) :
  (forall w, R w (g w)) -> respects R (fun w => (inr a, g w)).
Proof. intros Hg w. apply Hg. Qed.

Lemma respects_call_format_bytes size :
  respects R (FileManager.call_format_bytes size).
Proof. apply respects_lift. Qed.

End Respects.

End Effects.

(** ** format_bytes (file_manager.py) *)
Section FormatBytes.
Import FileManager.

Lemma power_pos k : 0 <= k -> 0 < power ^ k.
Proof. intros H. apply Z.pow_pos_nonneg; [reflexivity|exact H]. Qed.

Lemma power_mono a b : 0 <= a <= b -> power ^ a <= power ^ b.
Proof. intros H. apply Z.pow_le_mono_r; [reflexivity|lia]. Qed.

Lemma power_mono_lt a b : 0 <= a < b -> power ^ a < power ^ b.
Proof. intros H. apply Z.pow_lt_mono_r; [reflexivity|lia|lia]. Qed.

Lemma scale_spec fuel :
  forall size n,
    size <= power ^ (Z.of_nat n + Z.of_nat fuel + 1) ->
    let m := scale fuel size n in
    (n <= m)%nat
    /\ size <= power ^ (Z.of_nat m + 1)
    /\ ((n < m)%nat -> power ^ Z.of_nat m < size).
Proof.
  induction fuel as [|fuel IH]; intros size n Hfuel; cbn [scale].
  - cbv zeta. replace (Z.of_nat n + Z.of_nat 0 + 1) with (Z.of_nat n + 1)
      in Hfuel by lia. repeat split; [lia|exact Hfuel|lia].
  - destruct (size >? power ^ (Z.of_nat n + 1)) eqn:E.
    + apply Z.gtb_lt in E.
      destruct (IH size (S n)) as (Hle & Hup & Hlow).
      { replace (Z.of_nat (S n) + Z.of_nat fuel + 1)
          with (Z.of_nat n + Z.of_nat (S fuel) + 1) by lia. exact Hfuel. }
      cbv zeta. repeat split; [lia|exact Hup|]. intros _.
      destruct (decide (scale fuel size (S n) = S n)) as [Heq|Hne].
      * rewrite Heq. replace (Z.of_nat (S n)) with (Z.of_nat n + 1) by lia.
        exact E.
      * apply Hlow. lia.
    + cbv zeta. repeat split; [lia| |lia].
      rewrite Z.gtb_ltb in E. apply Z.ltb_ge in E. exact E.
Qed.

Lemma enough_fuel size n :
  size <= power ^ (Z.of_nat n + Z.of_nat (Z.to_nat (Z.log2 size)) + 1).
Proof.
  pose proof (Z.log2_nonneg size) as Hl.
  rewrite Z2Nat.id by exact Hl.
  destruct (Z_le_gt_dec size 0) as [Hneg|Hpos].
  - pose proof (power_pos (Z.of_nat n + Z.log2 size + 1) ltac:(lia)). lia.
  - destruct (Z.log2_spec size) as [_ Hlt]; [lia|].
    assert (2 ^ Z.succ (Z.log2 size)
            <= power ^ (Z.of_nat n + Z.log2 size + 1)).
    { unfold power. rewrite <- Z.pow_mul_r by lia.
      apply Z.pow_le_mono_r; lia. }
    lia.
Qed.

Lemma power_labels_none n : power_labels n = None <-> (5 <= n)%nat.
Proof.
  split.
  - destruct n as [|[|[|[|[|n]]]]]; cbn; try discriminate. lia.
  - intros H. destruct n as [|[|[|[|[|n]]]]]; try lia. reflexivity.
Qed.

(** Below 2^53 the division rounds nothing. *)
Lemma float53_exact size : size < 2 ^ 53 -> float53 size = size.
Proof.
  intros H. unfold float53.
  destruct (Z_le_gt_dec size 0) as [Hneg|Hpos].
  - rewrite (Z.log2_nonpos size Hneg). reflexivity.
  - assert (Z.log2 size < 53) by (apply Z.log2_lt_pow2; lia).
    replace (Z.log2 size + 1 - 53 <=? 0) with true
      by (symmetry; apply Z.leb_le; lia).
    reflexivity.
Qed.

Lemma round_half_even_ge num den : num / den <= round_half_even num den.
Proof.
  unfold round_half_even.
  destruct (2 * (num mod den) <? den); [lia|].
  destruct (den <? 2 * (num mod den)); [lia|].
  destruct (Z.even (num / den)); lia.
Qed.

(** From 2^53 on the rounded value stays at or above 2^53. *)
Lemma float53_large size : 2 ^ 53 <= size -> 2 ^ 53 <= float53 size.
Proof.
  intros H. unfold float53.
  assert (Hl : 53 <= Z.log2 size) by (apply Z.log2_le_pow2; lia).
  set (excess := Z.log2 size + 1 - 53).
  replace (excess <=? 0) with false by (symmetry; apply Z.leb_gt; lia).
  assert (He : 0 < 2 ^ excess) by (apply Z.pow_pos_nonneg; lia).
  assert (Hq : 2 ^ 52 <= size / 2 ^ excess).
  { apply Z.div_le_lower_bound; [exact He|].
    rewrite <- Z.pow_add_r by lia.
    replace (excess + 52) with (Z.log2 size) by lia.
    apply Z.log2_spec. lia. }
  pose proof (round_half_even_ge size (2 ^ excess)) as Hr.
  assert (H2 : 2 <= 2 ^ excess).
  { change 2 with (2 ^ 1) at 1. apply Z.pow_le_mono_r; lia. }
  change (2 ^ 53) with (2 ^ 52 * 2). nia.
Qed.

Lemma format_bytes_turns size :
  format_bytes (Some size)
  = match power_labels (fst (turns size)) with
    | Some label =>
        Text (two_decimals
                (round_half_even (snd (turns size) * 100)
                   (power ^ Z.of_nat (fst (turns size))))
              +:+ " " +:+ label +:+ "B")
    | None => RaisesKeyError (fst (turns size))
    end.
Proof. unfold format_bytes, turns. now destruct (size >? power). Qed.

Lemma turns_spec size :
  let '(n, x) := turns size in
  (size <= power ^ 5 -> x = size)
  /\ (power ^ 5 < size -> power ^ 5 < x)
  /\ x <= power ^ (Z.of_nat n + 1)
  /\ ((0 < n)%nat -> power ^ Z.of_nat n < x).
Proof.
  unfold turns. destruct (size >? power) eqn:E.
  - apply Z.gtb_lt in E.
    assert (Hx : (size <= power ^ 5 -> float53 size = size)
                 /\ (power ^ 5 < size -> power ^ 5 < float53 size)
                 /\ power < float53 size).
    { destruct (Z_lt_ge_dec size (2 ^ 53)) as [Hs|Hs].
      - rewrite (float53_exact size Hs). auto.
      - pose proof (float53_large size ltac:(lia)) as Hb.
        assert (power ^ 5 < 2 ^ 53) by reflexivity.
        assert (power < power ^ 5) by reflexivity.
        repeat split; lia. }
    destruct Hx as (Hsmall & Hbig & Hone).
    destruct (scale_spec _ (float53 size) 1 (enough_fuel (float53 size) 1))
      as (Hle & Hup & Hlow).
    set (m := scale _ _ _) in *.
    split; [exact Hsmall|]. split; [exact Hbig|]. split; [exact Hup|].
    intros _. destruct (decide (m = 1%nat)) as [->|Hne].
    + exact Hone.
    + apply Hlow. lia.
  - rewrite Z.gtb_ltb in E. apply Z.ltb_ge in E.
    assert (power < power ^ 5) by reflexivity.
    split; [reflexivity|]. split; [lia|]. split; [exact E|]. lia.
Qed.

(** Whether format_bytes returns or raises is a matter of the size. *)
Lemma format_bytes_cases size :
  (size <= power ^ 5 /\ exists s, format_bytes (Some size) = Text s)
  \/ (power ^ 5 < size
      /\ exists n, (5 <= n)%nat /\ format_bytes (Some size) = RaisesKeyError n).
Proof.
  rewrite format_bytes_turns. pose proof (turns_spec size) as H.
  destruct (turns size) as [n x]. cbn [fst snd].
  destruct H as (Hsmall & Hbig & Hup & Hlow).
  destruct (Z_le_gt_dec size (power ^ 5)) as [Hs|Hs].
  - left. split; [exact Hs|]. rewrite (Hsmall Hs) in *.
    destruct (power_labels n) as [label|] eqn:E; [eauto|].
    apply power_labels_none in E.
    pose proof (power_mono 5 (Z.of_nat n)). specialize (Hlow ltac:(lia)). lia.
  - right. split; [lia|]. specialize (Hbig ltac:(lia)).
    assert (Hn : (5 <= n)%nat).
    { destruct (le_lt_dec 5 n) as [H|H]; [exact H|].
      pose proof (power_mono (Z.of_nat n + 1) 5). lia. }
    exists n. split; [exact Hn|].
    apply power_labels_none in Hn. now rewrite Hn.
Qed.

Lemma call_format_bytes_returns size :
  size <= power ^ 5 ->
  exists s, forall w, call_format_bytes size w = (inr s, w).
Proof.
  intros H. destruct (format_bytes_cases size) as [[_ [s Hs]]|[Hb _]]; [|lia].
  exists s. intros w. unfold call_format_bytes, lift. now rewrite Hs.
Qed.

Lemma call_format_bytes_raises size :
  power ^ 5 < size ->
  exists n, forall w, call_format_bytes size w = (inl (KeyError n), w).
Proof.
  intros H.
  destruct (format_bytes_cases size) as [[Hs _]|[_ (n & _ & Hn)]]; [lia|].
  exists n. intros w. unfold call_format_bytes, lift. now rewrite Hn.
Qed.

Lemma call_format_bytes_world size w : snd (call_format_bytes size w) = w.
Proof. reflexivity. Qed.

(** X17: format_bytes raises KeyError exactly for the sizes above 1024^5
    bytes; for every other size it returns a text. *)
Theorem format_bytes_raises_above_1024_TB size :
  (exists n, format_bytes (Some size) = RaisesKeyError n) <-> power ^ 5 < size.
Proof.
  destruct (format_bytes_cases size) as [[Hs [s H]]|[Hb (n & _ & H)]];
    rewrite H.
  - split; [intros [k Hk]; discriminate|lia].
  - split; [intros _; exact Hb|eauto].
Qed.

(** X18: for a size of at most 1024^5 bytes the text has the form
    "<number> <unit>B", where the unit is the one reached after [n]
    divisions by 1024, the least [n] for which the size is at most
    1024^(n+1); the number is the size divided by 1024^n, rounded to
    hundredths.  Up to 1024 bytes the text is the size itself with ".00 B":
    1024 bytes are not shown as 1 KB. *)
Theorem format_bytes_unit size :
  size <= power ^ 5 ->
  (exists n label,
      power_labels n = Some label
      /\ size <= power ^ (Z.of_nat n + 1)
      /\ ((0 < n)%nat -> power ^ Z.of_nat n < size)
      /\ format_bytes (Some size)
         = Text (two_decimals (round_half_even (size * 100) (power ^ Z.of_nat n))
                 +:+ " " +:+ label +:+ "B"))
  /\ (0 <= size <= power -> format_bytes (Some size) = Text (pretty size +:+ ".00 B")).
Proof.
  intros Hsmall. rewrite format_bytes_turns.
  pose proof (turns_spec size) as H. split.
  - destruct (turns size) as [n x]. cbn [fst snd].
    destruct H as (Hx & _ & Hup & Hlow). rewrite (Hx Hsmall) in *.
    destruct (power_labels n) as [label|] eqn:E.
    + exists n, label. auto.
    + apply power_labels_none in E.
      pose proof (power_mono 5 (Z.of_nat n)). specialize (Hlow ltac:(lia)). lia.
  - intros [H0 H1]. unfold turns.
    replace (size >? power) with false
      by (symmetry; rewrite Z.gtb_ltb; apply Z.ltb_ge; lia).
    cbn [fst snd power_labels]. change (power ^ Z.of_nat 0) with 1.
    unfold round_half_even. rewrite Z.mod_1_r, Z.div_1_r.
    change (2 * 0 <? 1) with true. cbv iota.
    unfold two_decimals. rewrite Z.abs_eq by lia.
    replace (size * 100 <? 0) with false by (symmetry; apply Z.ltb_ge; lia).
    rewrite Z.div_mul by lia. rewrite Z.mod_mul by lia.
    change (EmptyString +:+ pretty size +:+ "."
            +:+ (if 0 <? 10 then "0" else "") +:+ pretty 0)
      with (pretty size +:+ ".00").
    now rewrite string_app_assoc.
Qed.

Lemma format_bytes_unit_witness :
  (exists n label,
      power_labels n = Some label
      /\ 12345678 <= power ^ (Z.of_nat n + 1)
      /\ ((0 < n)%nat -> power ^ Z.of_nat n < 12345678)
      /\ format_bytes (Some 12345678)
         = Text (two_decimals (round_half_even (12345678 * 100)
                                 (power ^ Z.of_nat n))
                 +:+ " " +:+ label +:+ "B"))
  /\ format_bytes (Some 1024) = Text (pretty 1024 +:+ ".00 B").
Proof.
  split.
  - exact (proj1 (format_bytes_unit 12345678 ltac:(vm_compute; discriminate))).
  - exact (proj2 (format_bytes_unit 1024 ltac:(vm_compute; discriminate))
             ltac:(vm_compute; split; discriminate)).
Defined.

Example format_bytes_samples :
  format_bytes (Some 12345678) = Text "11.77 MB"
  /\ format_bytes (Some 1152) = Text "1.12 KB"
  /\ format_bytes (Some (power ^ 5)) = Text "1024.00 TB"
  /\ format_bytes (Some (power ^ 5 + 1)) = RaisesKeyError 5
  /\ format_bytes (Some (2 ^ 60 + 1)) = RaisesKeyError 5
  /\ format_bytes (Some (2 ^ 60 + 2 ^ 9)) = RaisesKeyError 6
  /\ format_bytes None = Text "0 B".
Proof. vm_compute. auto 10. Qed.

End FormatBytes.

(** ** Download and upload (file_manager.py) *)
Section Transfer.
Import FileManager.

(** The start of a download: the service is built and the size rendered
    for the log. *)
Lemma download_gdrive_file_start get_drive_service get_media file_id file_name
    file_size credentials progress_callback w :
  get_drive_service credentials = inr tt ->
  file_size <= power ^ 5 ->
  let file_path := scratch_path file_id file_name in
  let w0 := World (fs w) (dirs w) (bot_answers w)
              (log w ++ [Called_download_gdrive_file file_id])%list in
  download_gdrive_file get_drive_service get_media file_id file_name file_size
    credentials progress_callback w
  = if path_exists file_path w0
       && match path_getsize file_path w0 with
          | inr n => n =? file_size
          | inl _ => false
          end
       && (file_size >? 0)
    then (inr file_path, w0)
    else
      try_except
        (open_wb file_path ;;;
         chunks_loop file_id file_name file_size file_path
           progress_callback (get_media file_id) 0 ;;;
         match progress_callback with
         | Some cb => cb file_name 100 file_size true
         | None => ret tt
         end ;;;
         ret file_path)%M
        (download_handlers file_path) w0.
Proof.
  intros Hservice Hsize file_path w0.
  destruct (call_format_bytes_returns file_size Hsize) as [s Hs].
  unfold download_gdrive_file, bind at 1, record. fold w0.
  unfold bind at 1, lift. rewrite Hservice.
  unfold bind at 1. rewrite Hs. reflexivity.
Qed.

(** C8, amended: when the Drive service can be built, the expected size
    is positive and at most 1024^5 bytes (the call renders it for its log
    first) and the scratch file exists as a regular file with exactly that
    size, the call returns the scratch path, reads no chunk and leaves the
    files as they are; so does a second call. *)
Theorem download_reuses_matching_scratch get_drive_service get_media file_id
    file_name file_size credentials progress_callback w :
  get_drive_service credentials = inr tt ->
  file_size <= power ^ 5 ->
  fs w !! scratch_path file_id file_name = Some file_size ->
  0 < file_size ->
  let once := download_gdrive_file get_drive_service get_media file_id
                file_name file_size credentials progress_callback w in
  let twice := download_gdrive_file get_drive_service get_media file_id
                 file_name file_size credentials progress_callback
                 (snd once) in
  fst once = inr (scratch_path file_id file_name)
  /\ fs (snd once) = fs w
  /\ chunk_reads (log (snd once)) = chunk_reads (log w)
  /\ fst twice = inr (scratch_path file_id file_name)
  /\ fs (snd twice) = fs w
  /\ chunk_reads (log (snd twice)) = chunk_reads (log w).
Proof.
  intros Hservice Hbound Hsize Hpos.
  assert (Hcall : forall w', fs w' = fs w ->
    download_gdrive_file get_drive_service get_media file_id file_name
      file_size credentials progress_callback w'
    = (inr (scratch_path file_id file_name),
       World (fs w') (dirs w') (bot_answers w')
         (log w' ++ [Called_download_gdrive_file file_id])%list)).
  { intros w' Hfs.
    rewrite (download_gdrive_file_start _ _ _ _ _ _ _ _ Hservice Hbound).
    cbv zeta.
    match goal with |- context [path_exists ?p ?w0] =>
      destruct (regular_file p file_size w0) as (-> & _ & ->) end;
      [cbn [fs]; now rewrite Hfs|].
    rewrite Z.eqb_refl.
    replace (file_size >? 0) with true by (symmetry; apply Z.gtb_lt; lia).
    reflexivity. }
  intros once twice. subst twice once. rewrite (Hcall w eq_refl). cbn [fst snd].
  rewrite Hcall by reflexivity. cbn [fst snd fs log].
  unfold chunk_reads. rewrite !List.filter_app. cbn [List.filter].
  rewrite !app_nil_r. repeat split; reflexivity.
Qed.

Lemma download_reuses_matching_scratch_witness :
  let w := world_with_file "downloads/a.txt" 30 [] in
  let once := download_gdrive_file service_built two_chunk_media "idA" "a.txt"
                30 None None w in
  let twice := download_gdrive_file service_built two_chunk_media "idA" "a.txt"
                 30 None None (snd once) in
  fst once = inr (scratch_path "idA" "a.txt")
  /\ fs (snd once) = fs w
  /\ chunk_reads (log (snd once)) = chunk_reads (log w)
  /\ fst twice = inr (scratch_path "idA" "a.txt")
  /\ fs (snd twice) = fs w
  /\ chunk_reads (log (snd twice)) = chunk_reads (log w).
Proof.
  exact (download_reuses_matching_scratch service_built two_chunk_media "idA"
           "a.txt" 30 None None (world_with_file "downloads/a.txt" 30 [])
           eq_refl ltac:(vm_compute; discriminate) eq_refl eq_refl).
Defined.

(** A first download reads the chunks and writes the scratch file. *)
Example first_download_reads_chunks :
  let once := download_gdrive_file service_built two_chunk_media "idA" "a.txt"
                30 None None empty_world in
  fst once = inr "downloads/a.txt"
  /\ fs (snd once) !! "downloads/a.txt" = Some 30
  /\ chunk_reads (log (snd once)) = 2%nat.
Proof. vm_compute. auto. Qed.

(** C8, as stated, fails for an expected size of 0: the scratch file
    exists with exactly that size, and the call reads a chunk again. *)
Lemma download_rereads_empty_scratch :
  let w := world_with_file "downloads/notes" 0 [] in
  let again := download_gdrive_file service_built empty_media "idN" "notes" 0
                 None None w in
  fs w !! scratch_path "idN" "notes" = Some 0
  /\ chunk_reads (log w) = 0%nat
  /\ chunk_reads (log (snd again)) = 1%nat.
Proof. vm_compute. auto. Qed.

(** What the start of an upload does with a regular file of a size
    format_bytes can render. *)
Lemma upload_to_telegram_start limit chat_id file_path caption
    original_filename progress_callback_telegram w file_size :
  fs w !! file_path = Some file_size ->
  file_size <= power ^ 5 ->
  let w0 := World (fs w) (dirs w) (bot_answers w)
              (log w ++ [Called_upload_to_telegram file_path])%list in
  upload_to_telegram limit chat_id file_path caption original_filename
    progress_callback_telegram w
  = if file_size >? limit then
      (call_format_bytes file_size ;;;
       call_format_bytes limit ;;;
       bot_call (SendMessage chat_id
                   (TooLarge original_filename file_size limit)) ;;;
       ret false)%M w0
    else
      try_finally
        (try_except
           (open_rb file_path ;;;
            match progress_callback_telegram with
            | Some cb => cb original_filename 0 file_size false
            | None => ret tt
            end ;;;
            bot_call (SendDocument chat_id file_path original_filename
                        caption) ;;;
            match progress_callback_telegram with
            | Some cb => cb original_filename 100 file_size true
            | None => ret tt
            end ;;;
            ret true)%M
           (fun e =>
              bot_call (SendMessage chat_id
                          (UploadFailed original_filename e)) ;;;
              ret false)%M)
        (fun w => if path_exists file_path w
                  then snd (try_except (remove file_path) (fun _ => ret tt) w)
                  else w) w0.
Proof.
  intros Hfile Hsize w0.
  destruct (call_format_bytes_returns file_size Hsize) as [s Hs].
  unfold upload_to_telegram, bind at 1, record. fold w0.
  unfold bind at 1.
  destruct (regular_file file_path file_size w0 Hfile) as (_ & _ & ->).
  unfold bind at 1. rewrite Hs. now destruct (file_size >? limit).
Qed.

(** The cleanup of the [finally] removes a regular file. *)
Lemma cleanup_removes file_path w :
  is_Some (fs w !! file_path) ->
  (if path_exists file_path w
   then snd (try_except (remove file_path) (fun _ => ret tt) w)
   else w) = remove_file file_path w.
Proof.
  intros [n Hn]. destruct (regular_file _ _ _ Hn) as (-> & _ & _).
  unfold try_except, remove. now rewrite Hn.
Qed.

(** The cleanup leaves everything but the file as it is. *)
Lemma cleanup_world file_path w :
  let w' := if path_exists file_path w
            then snd (try_except (remove file_path) (fun _ => ret tt) w)
            else w in
  fs w' = delete file_path (fs w) /\ dirs w' = dirs w
  /\ bot_answers w' = bot_answers w /\ log w' = log w.
Proof.
  cbv zeta. unfold try_except, remove, path_exists, is_directory.
  destruct (fs w !! file_path) as [n|] eqn:E.
  - rewrite (bool_decide_eq_true_2 (is_Some (Some n))) by eauto.
    cbn. auto.
  - rewrite (delete_id _ _ E).
    destruct (bool_decide (is_Some None) || bool_decide (is_Some (dirs w !! file_path)));
      [|auto].
    destruct (bool_decide (is_Some (dirs w !! file_path))); cbn; auto.
Qed.

(** Past the size test the scratch file is gone when the call ends,
    whatever happened in between. *)
Lemma upload_within_limit_removes_file limit chat_id file_path caption
    original_filename progress_callback_telegram w file_size :
  fs w !! file_path = Some file_size ->
  file_size <= power ^ 5 ->
  file_size <= limit ->
  fs (snd (upload_to_telegram limit chat_id file_path caption
             original_filename progress_callback_telegram w))
    !! file_path = None.
Proof.
  intros Hfile Hsize Hle.
  rewrite (upload_to_telegram_start _ _ _ _ _ _ _ _ Hfile Hsize). cbv zeta.
  replace (file_size >? limit) with false
    by (symmetry; rewrite Z.gtb_ltb; apply Z.ltb_ge; lia).
  unfold try_finally.
  match goal with |- context [try_except ?m ?h ?w0] =>
    destruct (try_except m h w0) as [r w'] end.
  cbn [snd]. destruct (cleanup_world file_path w') as (-> & _).
  apply lookup_delete_eq.
Qed.


(** C2 fails on the too-large skip: with a limit of 100 bytes and a
    scratch file of 101 bytes the call returns False and the scratch file
    is still there. *)
Theorem upload_too_large_leaves_scratch_file :
  let w := world_with_file "downloads/big.bin" 101 [] in
  let r := upload_to_telegram 100 7 "downloads/big.bin" "big.bin" "big.bin"
             None w in
  fst r = inr false
  /\ path_exists "downloads/big.bin" (snd r) = true
  /\ fs (snd r) !! "downloads/big.bin" = Some 101.
Proof. vm_compute. auto. Qed.

End Transfer.

(** ** The per-file loop (main.py) *)
Section Loop.
Import Main.

(** main.py as written: the test after the download looks up [os], which
    the module never imports. *)
Lemma after_download_as_written file_name file_size downloaded_file_path w :
  after_download false file_name file_size downloaded_file_path w
  = (inl (NameError "os"), w).
Proof. now destruct downloaded_file_path. Qed.

(** *** What a download and a turn of the loop leave alone *)
Section Leaves.
Context (R : world -> world -> Prop).
Hypothesis R_refl : forall w, R w w.
Hypothesis R_trans : forall w1 w2 w3, R w1 w2 -> R w2 w3 -> R w1 w3.
(** [R] allows any change of the files, *)
Hypothesis R_files :
  forall w files, R w (World files (dirs w) (bot_answers w) (log w)).
(** the log entries of a download, *)
Hypothesis R_download : forall file_id,
  respects R (record (Called_download_gdrive_file file_id))
  /\ respects R (record (NextChunk file_id)).
(** the edits of the status message and the "Preparing" message. *)
Hypothesis R_edit : forall text, respects R (bot_call (EditText text)).
Hypothesis R_preparing : forall chat_id file_name,
  respects R (bot_call (SendMessage chat_id (Preparing file_name))).

Ltac leaves :=
  repeat first
    [ apply (respects_ret R R_refl) | apply (respects_raise R R_refl)
    | apply (respects_lift R R_refl)
    | apply (respects_call_format_bytes R R_refl)
    | apply R_edit | apply R_preparing
    | apply (proj1 (R_download _)) | apply (proj2 (R_download _))
    | apply (respects_bind R R_trans); [|intros ?]
    | apply (respects_try_except R R_trans); [|intros ?]
    | assumption ].

Lemma leaves_remove p : respects R (remove p).
Proof.
  intros w. unfold remove. destruct (fs w !! p); [apply R_files|].
  destruct (is_directory p w); apply R_refl.
Qed.

Lemma leaves_open_wb p : respects R (FileManager.open_wb p).
Proof.
  intros w. unfold FileManager.open_wb.
  destruct (is_directory p w); [apply R_refl|apply R_files].
Qed.

Lemma leaves_progress_updater st index total path name perc size fin :
  respects R (progress_updater st index total path name perc size fin).
Proof. unfold progress_updater, edit_text. leaves. Qed.

Lemma leaves_handlers file_path e :
  respects R (FileManager.download_handlers file_path e).
Proof.
  unfold FileManager.download_handlers. leaves.
  intros w. destruct (path_exists file_path w); [apply leaves_remove|].
  apply R_refl.
Qed.

Lemma leaves_chunks_loop index total path file_id file_name file_size
    file_path d :
  forall perc,
    respects R (FileManager.chunks_loop file_id file_name file_size file_path
                  (Some (progress_updater Downloading index total path))
                  d perc).
Proof.
  assert (Hafter : forall c perc,
    respects R (FileManager.after_chunk file_name file_size
                  (Some (progress_updater Downloading index total path))
                  c perc)).
  { intros c perc. unfold FileManager.after_chunk.
    destruct (FileManager.percent c); [|leaves].
    destruct (_ >? _); [|leaves]. destruct (_ || _); leaves. }
  assert (Hwrite : forall n,
    respects R (fun w => (inr tt, FileManager.write_chunk file_path n w)))
    by (intros n w; apply R_files).
  induction d as [c|c rest IH|e]; intros perc; cbn [FileManager.chunks_loop];
    leaves; try apply Hwrite; try apply Hafter.
  apply IH.
Qed.

Lemma leaves_download get_drive_service get_media index total path file_id
    file_name file_size creds :
  respects R (FileManager.download_gdrive_file get_drive_service get_media
                file_id file_name file_size creds
                (Some (progress_updater Downloading index total path))).
Proof.
  unfold FileManager.download_gdrive_file. leaves. intros w.
  destruct (_ && _); [apply R_refl|]. revert w.
  apply (respects_try_except R R_trans); [|apply leaves_handlers].
  leaves; try apply leaves_open_wb; try apply leaves_chunks_loop.
Qed.

Lemma leaves_after_download os_bound file_name file_size p :
  respects R (after_download os_bound file_name file_size p).
Proof.
  assert (Hex : forall q, respects R (os_path_exists os_bound q))
    by (intros q w; unfold os_path_exists; destruct os_bound; apply R_refl).
  assert (Hsz : forall q, respects R (os_path_getsize os_bound q))
    by (intros q w; unfold os_path_getsize; destruct os_bound; apply R_refl).
  assert (Hrm : forall q, respects R (os_remove os_bound q)).
  { intros q w. unfold os_remove. destruct os_bound; [apply leaves_remove|].
    apply R_refl. }
  unfold after_download, edit_text.
  apply (respects_bind R R_trans).
  - destruct (negb _); [leaves|].
    apply (respects_bind R R_trans); [apply Hex|]. intros present.
    destruct (negb present); leaves. apply Hsz.
  - intros [|]; [|leaves].
    apply (respects_bind R R_trans); [apply Hex|]. intros present.
    destruct (_ && _); [leaves|].
    apply (respects_bind R R_trans); [apply Hex|]. intros present'.
    apply (respects_bind R R_trans).
    + destruct present'; leaves. apply Hsz.
    + intros [|]; leaves. apply Hrm.
Qed.

(** The handlers of the loop body. *)
Lemma leaves_loop_handlers file_name (counters : nat * nat) e :
  respects R
    (let '(successful_uploads, failed_uploads) := counters in
     (if is_ConnectionError e then
        edit_text (GDriveConnectionError file_name e)
      else if is_IOError e then
        edit_text (FileSystemError file_name e)
      else
        edit_text (UnexpectedError file_name e)) ;;;
     ret (successful_uploads, S failed_uploads))%M.
Proof.
  destruct counters as [s f]. unfold edit_text.
  destruct (is_ConnectionError e), (is_IOError e); leaves.
Qed.

(** A turn of the loop, given that the upload step respects [R] too;
    as written the upload step is not reached. *)
Section Turn.
Variables (threshold limit : Z).
Variable get_drive_service
  : option AuthManager.credentials_object -> exn + unit.
Variable get_media : string -> FileManager.download.
Variable os_bound : bool.
Variable chat_id : Z.
Variable credentials : option AuthManager.credentials_object.
Hypothesis R_upload_step :
  os_bound = true ->
  forall index total file_info p counters,
    respects R (upload_step limit chat_id index total file_info p counters).

Lemma leaves_file_body index total file_info counters :
  respects R (file_body threshold limit get_drive_service get_media os_bound
                chat_id credentials index total file_info counters).
Proof.
  destruct counters as [s f]. unfold file_body, edit_text.
  destruct (_ && negb _); [leaves|].
  apply (respects_bind R R_trans); [destruct (_ && _); leaves|]. intros _.
  apply (respects_bind R R_trans); [apply leaves_download|]. intros p.
  destruct os_bound eqn:E.
  - apply (respects_bind R R_trans); [apply leaves_after_download|].
    intros [[]|]; [now apply R_upload_step|leaves].
  - intros w. unfold bind. rewrite after_download_as_written. apply R_refl.
Qed.

Lemma leaves_process_file index total file_info counters :
  respects R (process_file threshold limit get_drive_service get_media
                os_bound chat_id credentials index total file_info counters).
Proof.
  unfold process_file. apply (respects_bind R R_trans); [apply R_preparing|].
  intros _. apply (respects_try_except R R_trans); [apply leaves_file_body|].
  intros e. apply leaves_loop_handlers.
Qed.

Lemma leaves_process_files total files :
  forall index counters,
    respects R (process_files threshold limit get_drive_service get_media
                  os_bound chat_id credentials index total files counters).
Proof.
  induction files as [|file_info files IH]; intros index counters;
    cbn [process_files]; [apply (respects_ret R R_refl)|].
  apply (respects_bind R R_trans); [apply leaves_process_file|].
  intros c. apply IH.
Qed.

End Turn.

End Leaves.

(** *** Relations the loop respects *)

Lemma stays_quiet_preorder :
  (forall w, stays_quiet w w)
  /\ (forall w1 w2 w3, stays_quiet w1 w2 -> stays_quiet w2 w3 ->
        stays_quiet w1 w3).
Proof. unfold stays_quiet. split; auto. Qed.

Lemma keeps_quiet_record ev : respects stays_quiet (record ev).
Proof. now intros w H. Qed.

Lemma keeps_quiet_bot_call ev : respects stays_quiet (bot_call ev).
Proof. intros w H. now rewrite (bot_call_quiet _ _ H). Qed.

Lemma stays_quiet_files w files :
  stays_quiet w (World files (dirs w) (bot_answers w) (log w)).
Proof. now intros H. Qed.

Lemma same_entries_preorder p :
  (forall w, same_entries p w w)
  /\ (forall w1 w2 w3, same_entries p w1 w2 -> same_entries p w2 w3 ->
        same_entries p w1 w3).
Proof. unfold same_entries. split; [reflexivity|]. intros * H1 H2. congruence. Qed.

Lemma same_entries_record p ev :
  p ev = false -> respects (same_entries p) (record ev).
Proof.
  intros H w. unfold same_entries. cbn [record snd log].
  rewrite List.filter_app. cbn [List.filter]. rewrite H. apply app_nil_r.
Qed.

Lemma same_entries_bot_call p ev :
  (forall ok, p (ev ok) = false) -> respects (same_entries p) (bot_call ev).
Proof.
  intros H w. unfold same_entries. rewrite bot_call_spec. cbn [snd log].
  rewrite List.filter_app. cbn [List.filter]. rewrite H. apply app_nil_r.
Qed.

Lemma same_entries_files p w files :
  same_entries p w (World files (dirs w) (bot_answers w) (log w)).
Proof. reflexivity. Qed.

(** The loop as written adds no such entry. *)
Lemma as_written_same_entries p threshold limit get_drive_service get_media
    chat_id credentials total files :
  not_of_a_download p ->
  forall index counters,
    respects (same_entries p)
      (process_files threshold limit get_drive_service get_media false
         chat_id credentials index total files counters).
Proof.
  intros (Hcall & Hchunk & Hedit & Hprep).
  destruct (same_entries_preorder p) as [Hrefl Htrans].
  apply (leaves_process_files (same_entries p) Hrefl Htrans).
  - apply same_entries_files.
  - intros file_id. split; apply same_entries_record; auto.
  - intros text. apply same_entries_bot_call. auto.
  - intros c name. apply same_entries_bot_call. auto.
  - discriminate.
Qed.

(** As written a turn of the loop that ends has counted its file as
    failed. *)
Lemma file_body_as_written threshold limit get_drive_service get_media chat_id
    credentials index total file_info s f w counters w' :
  file_body threshold limit get_drive_service get_media false chat_id
    credentials index total file_info (s, f) w = (inr counters, w') ->
  counters = (s, S f).
Proof.
  unfold file_body. destruct (_ && negb _); intros H.
  - apply bind_inr in H as (_ & w1 & _ & H).
    apply bind_inr in H as (_ & w2 & _ & H).
    apply bind_inr in H as (_ & w3 & _ & H). now apply ret_inr in H.
  - apply bind_inr in H as (_ & w1 & _ & H).
    apply bind_inr in H as (p & w2 & _ & H).
    unfold bind in H. rewrite after_download_as_written in H. discriminate.
Qed.

Lemma process_file_as_written threshold limit get_drive_service get_media
    chat_id credentials index total file_info s f w counters w' :
  process_file threshold limit get_drive_service get_media false chat_id
    credentials index total file_info (s, f) w = (inr counters, w') ->
  counters = (s, S f).
Proof.
  unfold process_file. intros H.
  apply bind_inr in H as (_ & w1 & _ & H). unfold try_except in H.
  destruct (file_body _ _ _ _ _ _ _ _ _ _ _ w1) as [[e|c] w2] eqn:B.
  - apply bind_inr in H as (_ & w3 & _ & H). now apply ret_inr in H.
  - inversion H; subst. now apply file_body_as_written in B.
Qed.

(** *** Counting *)

(** Every turn of the loop that ends normally increments exactly one of
    the two counters. *)
Lemma upload_step_counts limit chat_id index total file_info path s f w
    counters w' :
  upload_step limit chat_id index total file_info path (s, f) w
  = (inr counters, w') ->
  counters = (S s, f) \/ counters = (s, S f).
Proof.
  unfold upload_step. intros H.
  apply bind_inr in H as (caption & w1 & _ & H).
  apply bind_inr in H as ([] & w2 & _ & H); apply ret_inr in H; auto.
Qed.

Lemma file_body_counts threshold limit get_drive_service get_media os_bound
    chat_id credentials index total file_info s f w counters w' :
  file_body threshold limit get_drive_service get_media os_bound chat_id
    credentials index total file_info (s, f) w = (inr counters, w') ->
  counters = (S s, f) \/ counters = (s, S f).
Proof.
  unfold file_body.
  destruct ((GDrive.fi_size file_info >? threshold)
            && negb (bool_decide (is_Some credentials))); intros H.
  - apply bind_inr in H as (_ & w1 & _ & H).
    apply bind_inr in H as (_ & w2 & _ & H).
    apply bind_inr in H as (_ & w3 & _ & H). apply ret_inr in H. auto.
  - apply bind_inr in H as (_ & w1 & _ & H).
    apply bind_inr in H as (path & w2 & _ & H).
    apply bind_inr in H as ([[]|] & w3 & _ & H).
    + now apply upload_step_counts in H.
    + apply ret_inr in H. auto.
Qed.

Lemma process_file_counts threshold limit get_drive_service get_media os_bound
    chat_id credentials index total file_info s f w counters w' :
  process_file threshold limit get_drive_service get_media os_bound chat_id
    credentials index total file_info (s, f) w = (inr counters, w') ->
  counters = (S s, f) \/ counters = (s, S f).
Proof.
  unfold process_file. intros H.
  apply bind_inr in H as (_ & w1 & _ & H). unfold try_except in H.
  destruct (file_body _ _ _ _ _ _ _ _ _ _ _ w1) as [[e|c] w2] eqn:B.
  - apply bind_inr in H as (_ & w3 & _ & H). apply ret_inr in H. auto.
  - inversion H; subst. now apply file_body_counts in B.
Qed.

Lemma process_files_counts threshold limit get_drive_service get_media
    os_bound chat_id credentials total files :
  forall index s f w s' f' w',
    process_files threshold limit get_drive_service get_media os_bound chat_id
      credentials index total files (s, f) w = (inr (s', f'), w') ->
    (s' + f' = s + f + length files)%nat.
Proof.
  induction files as [|file_info files IH]; intros index s f w s' f' w' H.
  - apply ret_inr in H. inversion H. cbn. lia.
  - cbn [process_files] in H.
    apply bind_inr in H as ([s1 f1] & w1 & H1 & H).
    apply IH in H. apply process_file_counts in H1.
    cbn [length]. destruct H1 as [[= -> ->]|[= -> ->]]; lia.
Qed.

(** C10: for a non-empty list of files, once the per-file loop has
    completed with counters [s] and [f], the job goes on to send the
    summary with these two counts, and [s + f] is the number of files:
    every turn of the loop that ends increments exactly one of the two
    counters by one. *)
Theorem job_summary_counts_every_file threshold limit get_drive_service
    get_media os_bound chat_id credentials files w w1 w2 s f :
  files <> [] ->
  edit_text (FoundFiles (length files)) w = (inr tt, w1) ->
  process_files threshold limit get_drive_service get_media os_bound chat_id
    credentials 0 (length files) files (0%nat, 0%nat) w1 = (inr (s, f), w2) ->
  (s + f = length files)%nat
  /\ transfer_job threshold limit get_drive_service get_media os_bound chat_id
       credentials files w
     = send_summary chat_id (s, f) w2
  /\ log (snd (transfer_job threshold limit get_drive_service get_media
                 os_bound chat_id credentials files w))
     = (log w2 ++ [SendMessage chat_id (Summary s f) (next_answer w2)])%list
  /\ (forall index file_info s0 f0 w0 counters w0',
        process_file threshold limit get_drive_service get_media os_bound
          chat_id credentials index (length files) file_info (s0, f0) w0
        = (inr counters, w0') ->
        counters = (S s0, f0) \/ counters = (s0, S f0)).
Proof.
  intros Hne Hedit Hloop.
  assert (Hjob : transfer_job threshold limit get_drive_service get_media
                   os_bound chat_id credentials files w
                 = send_summary chat_id (s, f) w2).
  { destruct files as [|file_info files]; [congruence|].
    unfold transfer_job, bind. rewrite Hedit, Hloop. reflexivity. }
  split; [apply process_files_counts in Hloop; lia|].
  split; [exact Hjob|]. split.
  - rewrite Hjob. unfold send_summary. now rewrite bot_call_spec.
  - intros *. apply process_file_counts.
Qed.

Lemma job_summary_counts_every_file_witness :
  let files := [hundred_MiB_file; small_file] in
  let w := empty_world in
  let w1 := snd (edit_text (FoundFiles 2) w) in
  let w2 := snd (process_files default_LARGE_FILE_THRESHOLD_BYTES
                   default_MAX_FILE_SIZE_TG_BYTES FileManager.service_built
                   sample_media false 7 None 0 2 files (0%nat, 0%nat) w1) in
  (0 + 2 = length files)%nat
  /\ transfer_job default_LARGE_FILE_THRESHOLD_BYTES
       default_MAX_FILE_SIZE_TG_BYTES FileManager.service_built sample_media
       false 7 None files w
     = send_summary 7 (0%nat, 2%nat) w2
  /\ log (snd (transfer_job default_LARGE_FILE_THRESHOLD_BYTES
                 default_MAX_FILE_SIZE_TG_BYTES FileManager.service_built
                 sample_media false 7 None files w))
     = (log w2 ++ [SendMessage 7 (Summary 0 2) (next_answer w2)])%list.
Proof.
  intros files w w1 w2.
  refine (let H := job_summary_counts_every_file
                     default_LARGE_FILE_THRESHOLD_BYTES
                     default_MAX_FILE_SIZE_TG_BYTES FileManager.service_built
                     sample_media false 7 None files w w1 w2
                     0%nat 2%nat _ _ _ in
          conj (proj1 H) (conj (proj1 (proj2 H)) (proj1 (proj2 (proj2 H))))).
  - discriminate.
  - reflexivity.
  - vm_compute. reflexivity.
Defined.

(** With [os] bound and a credential: the big file is refused by the
    destination limit, the small one is sent; the summary says 1 and 1. *)
Example job_with_one_success_and_one_failure :
  let job := transfer_job default_LARGE_FILE_THRESHOLD_BYTES
               default_MAX_FILE_SIZE_TG_BYTES FileManager.service_built
               sample_media true 7 (Some AuthManager.sample_object)
               [big_file; small_file] empty_world in
  fst job = inr tt
  /\ last (log (snd job)) = Some (SendMessage 7 (Summary 1 1) true)
  /\ List.filter is_too_large_notice (log (snd job))
     = [SendMessage 7 (TooLarge "big.iso" (3000 * MiB)
                         default_MAX_FILE_SIZE_TG_BYTES) true].
Proof. vm_compute. auto. Qed.

(** As written, a logged-in user's file is downloaded, then counted as
    failed with an "Unexpected Error"; the upload is never entered and the
    scratch file stays. *)
Example as_written_download_then_name_error :
  let r := process_file default_LARGE_FILE_THRESHOLD_BYTES
             default_MAX_FILE_SIZE_TG_BYTES FileManager.service_built
             (one_chunk_media 30) false 7 (Some AuthManager.sample_object)
             0 1 small_file (0%nat, 0%nat) empty_world in
  fst r = inr (0%nat, 1%nat)
  /\ fs (snd r) !! "downloads/a.txt" = Some 30
  /\ log (snd r)
     = [SendMessage 7 (Preparing "a.txt") true;
        Called_download_gdrive_file "idA";
        NextChunk "idA";
        EditText (Progress Downloading 100 "a.txt" 30 false 0 1 "Root/a.txt") true;
        EditText (Progress Downloading 100 "a.txt" 30 true 0 1 "Root/a.txt") true;
        EditText (UnexpectedError "a.txt" (NameError "os")) true].
Proof. vm_compute. auto. Qed.

(** With [os] bound the same file is uploaded and its scratch file
    removed. *)
Example with_os_bound_upload_succeeds :
  let r := process_file default_LARGE_FILE_THRESHOLD_BYTES
             default_MAX_FILE_SIZE_TG_BYTES FileManager.service_built
             (one_chunk_media 30) true 7 (Some AuthManager.sample_object)
             0 1 small_file (0%nat, 0%nat) empty_world in
  fst r = inr (1%nat, 0%nat)
  /\ fs (snd r) !! "downloads/a.txt" = None
  /\ List.filter is_send_document (log (snd r))
     = [SendDocument 7 "downloads/a.txt" "a.txt" "Root/a.txt (30.00 B)" true].
Proof. vm_compute. auto. Qed.

(** *** The loop completes when every Telegram call succeeds *)

Lemma keeps_quiet_upload limit chat_id file_path caption name st index total
    path :
  respects stays_quiet
    (FileManager.upload_to_telegram limit chat_id file_path caption name
       (Some (progress_updater st index total path))).
Proof.
  destruct stays_quiet_preorder as [Hrefl Htrans].
  pose proof (leaves_progress_updater stays_quiet Hrefl Htrans
                (fun text => keeps_quiet_bot_call _)) as Hcb.
  unfold FileManager.upload_to_telegram.
  apply (respects_bind _ Htrans); [apply keeps_quiet_record|]. intros _.
  apply (respects_bind _ Htrans); [apply (respects_query _ Hrefl)|].
  intros file_size.
  apply (respects_bind _ Htrans); [apply (respects_lift _ Hrefl)|]. intros _.
  destruct (_ >? _).
  - repeat first
      [ apply (respects_ret _ Hrefl) | apply (respects_lift _ Hrefl)
      | apply keeps_quiet_bot_call
      | apply (respects_bind _ Htrans); [|intros ?] ].
  - apply (respects_try_finally _ Htrans).
    + repeat first
        [ apply (respects_ret _ Hrefl) | apply keeps_quiet_bot_call
        | apply Hcb
        | apply (respects_bind _ Htrans); [|intros ?]
        | apply (respects_try_except _ Htrans); [|intros ?] ].
      intros w H. unfold FileManager.open_rb.
      destruct (fs w !! file_path); [exact H|].
      now destruct (is_directory file_path w).
    + intros w H. destruct (path_exists file_path w); [|exact H].
      unfold try_except, remove.
      destruct (fs w !! file_path); [exact H|].
      now destruct (is_directory file_path w).
Qed.

Lemma keeps_quiet_upload_step limit chat_id index total file_info p counters :
  respects stays_quiet
    (upload_step limit chat_id index total file_info p counters).
Proof.
  destruct stays_quiet_preorder as [Hrefl Htrans].
  destruct counters as [s f]. unfold upload_step.
  apply (respects_bind _ Htrans).
  - unfold upload_caption.
    apply (respects_bind _ Htrans); [apply (respects_lift _ Hrefl)|].
    intros size_text. destruct (_ <? _)%nat; [|apply (respects_ret _ Hrefl)].
    apply (respects_bind _ Htrans); [apply (respects_lift _ Hrefl)|].
    intros ?. apply (respects_ret _ Hrefl).
  - intros caption.
    apply (respects_bind _ Htrans); [apply keeps_quiet_upload|].
    intros []; apply (respects_ret _ Hrefl).
Qed.


Lemma process_file_completes threshold limit get_drive_service get_media
    os_bound chat_id credentials index total file_info counters w :
  bot_answers w = [] ->
  exists counters' w',
    process_file threshold limit get_drive_service get_media os_bound chat_id
      credentials index total file_info counters w = (inr counters', w')
    /\ bot_answers w' = [].
Proof.
  intros H. unfold process_file, bind at 1. rewrite (bot_call_quiet _ _ H).
  set (w1 := World _ _ _ _). assert (H1 : bot_answers w1 = []) by reflexivity.
  clearbody w1. unfold try_except.
  destruct stays_quiet_preorder as [Hrefl Htrans].
  pose proof (leaves_file_body stays_quiet Hrefl Htrans stays_quiet_files
                (fun file_id => conj (keeps_quiet_record _)
                                     (keeps_quiet_record _))
                (fun text => keeps_quiet_bot_call _) threshold limit
                get_drive_service get_media os_bound chat_id credentials
                (fun _ i t fi p c => keeps_quiet_upload_step limit chat_id
                                       i t fi p c)
                index total file_info counters w1 H1) as H2.
  destruct (file_body _ _ _ _ _ _ _ _ _ _ _ w1) as [[e|c] w2];
    cbn [snd] in H2; [|eauto].
  destruct counters as [s f]. unfold bind, edit_text, ret.
  destruct (is_ConnectionError e), (is_IOError e);
    rewrite (bot_call_quiet _ _ H2); eauto.
Qed.

Lemma process_files_completes threshold limit get_drive_service get_media
    os_bound chat_id credentials total files :
  forall index counters w,
    bot_answers w = [] ->
    exists counters' w',
      process_files threshold limit get_drive_service get_media os_bound
        chat_id credentials index total files counters w
      = (inr counters', w')
      /\ bot_answers w' = [].
Proof.
  induction files as [|file_info files IH]; intros index counters w H.
  - exists counters, w. now split.
  - cbn [process_files]. unfold bind.
    destruct (process_file_completes threshold limit get_drive_service
                get_media os_bound chat_id credentials index total file_info
                counters w H) as (c1 & w1 & -> & H1).
    now apply IH.
Qed.

(** With every Telegram call going through, a job over a non-empty list
    ends with the summary, whose two counts add up to the number of
    files. *)
Lemma job_completes_with_summary threshold limit get_drive_service get_media
    os_bound chat_id credentials files w :
  files <> [] ->
  bot_answers w = [] ->
  let job := transfer_job threshold limit get_drive_service get_media os_bound
               chat_id credentials files w in
  fst job = inr tt
  /\ exists s f,
       (s + f = length files)%nat
       /\ last (log (snd job)) = Some (SendMessage chat_id (Summary s f) true).
Proof.
  intros Hne H job. subst job.
  destruct files as [|file_info files]; [congruence|].
  unfold transfer_job. set (todo := file_info :: files).
  unfold bind, edit_text. rewrite (bot_call_quiet _ _ H).
  set (w1 := World _ _ _ _). assert (H1 : bot_answers w1 = []) by reflexivity.
  clearbody w1.
  destruct (process_files_completes threshold limit get_drive_service
              get_media os_bound chat_id credentials (length todo) todo 0%nat
              (0%nat, 0%nat) w1 H1) as ([s f] & w2 & Hloop & H2).
  rewrite Hloop. unfold send_summary. rewrite (bot_call_quiet _ _ H2).
  cbn [fst snd log].
  split; [reflexivity|]. exists s, f. split.
  - apply process_files_counts in Hloop. lia.
  - apply last_snoc.
Qed.

(** *** The login gate *)





(** *** The destination limit *)




End Loop.

(** ** The lock of handle_message (main.py) *)
Section Lock.
Import Main.

Lemma filter_comm {A} (f g : A -> bool) l :
  List.filter f (List.filter g l) = List.filter g (List.filter f l).
Proof.
  induction l as [|x l IH]; [reflexivity|]. cbn [List.filter].
  destruct (f x) eqn:F, (g x) eqn:G; cbn [List.filter];
    rewrite ?F, ?G, IH; reflexivity.
Qed.

Lemma filter_all {A} (f : A -> bool) l :
  (forall x, In x l -> f x = true) -> List.filter f l = l.
Proof.
  induction l as [|x l IH]; intros H; [reflexivity|]. cbn [List.filter].
  rewrite (H x) by now left. f_equal. apply IH. intros y Hy. apply H. now right.
Qed.

Lemma start_consistent : consistent start.
Proof. intros c. reflexivity. Qed.

(** While the lock of the chat is held, a new message is answered with
    the busy text and no handler enters. *)
Lemma enter_while_locked upd b :
  lock_held (effective_chat upd) b = true ->
  handle_message_enter upd b
  = Bot (user_processing_locks b) (inside b)
        (replies b ++ [(effective_chat upd, Busy)])%list.
Proof.
  unfold lock_held, handle_message_enter. intros H.
  destruct (user_processing_locks b !! effective_chat upd) as [held|] eqn:E;
    [|discriminate].
  rewrite E. cbn in H |- *. now rewrite H.
Qed.

(** With the lock free, the handler takes it and enters. *)
Lemma enter_while_free upd b :
  lock_held (effective_chat upd) b = false ->
  exists locks,
    handle_message_enter upd b = Bot locks (inside b ++ [upd])%list (replies b)
    /\ locks !! effective_chat upd = Some true
    /\ forall c, c <> effective_chat upd ->
         default false (locks !! c) = lock_held c b.
Proof.
  unfold lock_held, handle_message_enter. intros H.
  destruct (user_processing_locks b !! effective_chat upd) as [held|] eqn:E.
  - rewrite E. cbn in H |- *. rewrite H. eexists. split; [reflexivity|].
    split; [apply lookup_insert_eq|]. intros c Hc.
    now rewrite lookup_insert_ne.
  - rewrite lookup_insert_eq. cbn. eexists. split; [reflexivity|].
    split; [apply lookup_insert_eq|]. intros c Hc.
    now rewrite !lookup_insert_ne.
Qed.

Lemma enter_consistent upd b :
  consistent b -> consistent (handle_message_enter upd b).
Proof.
  intros Hb. destruct (lock_held (effective_chat upd) b) eqn:L.
  - rewrite (enter_while_locked _ _ L). exact Hb.
  - destruct (enter_while_free _ _ L) as (locks & -> & Hown & Hother).
    intros c. unfold lock_held, jobs_of_chat. cbn [user_processing_locks inside].
    rewrite List.filter_app. cbn [List.filter].
    pose proof (Hb c) as Hc. unfold jobs_of_chat in Hc.
    destruct (decide (c = effective_chat upd)) as [->|Hne].
    + rewrite Hown, L in *. cbn. rewrite Hc.
      rewrite bool_decide_eq_true_2 by reflexivity. now exists upd.
    + rewrite (Hother c Hne).
      rewrite bool_decide_eq_false_2 by congruence.
      rewrite app_nil_r. exact Hc.
Qed.

Lemma leave_consistent upd b :
  consistent b -> consistent (handle_message_leave upd b).
Proof.
  intros Hb. unfold handle_message_leave.
  destruct (bool_decide (upd ∈ inside b)) eqn:Hin; [|exact Hb].
  apply bool_decide_eq_true_1, list_elem_of_In in Hin.
  assert (Hjob : In upd (jobs_of_chat (effective_chat upd) b)).
  { apply List.filter_In. split; [exact Hin|].
    now apply bool_decide_eq_true_2. }
  intros c. unfold lock_held, jobs_of_chat.
  cbn [user_processing_locks inside]. rewrite filter_comm.
  pose proof (Hb c) as Hc. fold (jobs_of_chat c b).
  destruct (decide (c = effective_chat upd)) as [->|Hne].
  - rewrite lookup_insert_eq. cbn [default].
    destruct (lock_held (effective_chat upd) b).
    + destruct Hc as [u Hu]. rewrite Hu in Hjob |- *.
      destruct Hjob as [->|[]]. cbn [List.filter].
      now rewrite bool_decide_eq_true_2.
    + rewrite Hc in Hjob. destruct Hjob.
  - rewrite lookup_insert_ne by congruence. fold (lock_held c b).
    rewrite filter_all; [exact Hc|].
    intros u Hu. apply List.filter_In in Hu as [_ Hu].
    apply bool_decide_eq_true_1 in Hu.
    apply negb_true_iff, bool_decide_eq_false_2. congruence.
Qed.

Lemma run_snoc steps s : run (steps ++ [s]) = do_step (run steps) s.
Proof. unfold run. now rewrite fold_left_app. Qed.

Lemma run_consistent steps : consistent (run steps).
Proof.
  induction steps as [|s steps IH] using rev_ind; [apply start_consistent|].
  rewrite run_snoc. destruct s; [now apply enter_consistent|].
  now apply leave_consistent.
Qed.

(** In every reachable state a chat has at most one handler inside the
    block; a message of a chat whose handler is inside gets the busy
    answer and starts nothing; after that handler has left, the next
    message of the chat enters. *)
Lemma one_job_per_chat steps chat_id :
  (length (jobs_of_chat chat_id (run steps)) <= 1)%nat.
Proof.
  pose proof (run_consistent steps chat_id) as H.
  destruct (lock_held chat_id (run steps)); [destruct H as [u ->]|rewrite H];
    cbn; lia.
Qed.

Lemma busy_while_job_inside steps first second :
  In first (inside (run steps)) ->
  effective_chat second = effective_chat first ->
  let b := run steps in
  handle_message_enter second b
  = Bot (user_processing_locks b) (inside b)
        (replies b ++ [(effective_chat second, Busy)])%list.
Proof.
  intros Hin Hchat b. apply enter_while_locked.
  pose proof (run_consistent steps (effective_chat second)) as H. fold b in H.
  destruct (lock_held (effective_chat second) b); [reflexivity|].
  assert (Hjob : In first (jobs_of_chat (effective_chat second) b)).
  { apply List.filter_In. split; [exact Hin|].
    now apply bool_decide_eq_true_2. }
  rewrite H in Hjob. destruct Hjob.
Qed.

Lemma accepted_after_leave steps first second :
  In first (inside (run steps)) ->
  effective_chat second = effective_chat first ->
  let b := handle_message_leave first (run steps) in
  inside (handle_message_enter second b) = (inside b ++ [second])%list
  /\ replies (handle_message_enter second b) = replies b.
Proof.
  intros Hin Hchat b.
  assert (L : lock_held (effective_chat second) b = false).
  { subst b. unfold handle_message_leave.
    rewrite bool_decide_eq_true_2 by now apply list_elem_of_In.
    unfold lock_held. cbn [user_processing_locks].
    now rewrite Hchat, lookup_insert_eq. }
  destruct (enter_while_free _ _ L) as (locks & -> & _). now split.
Qed.

(** Were handlers run as concurrent tasks, the lock would work per chat,
    as line 13 says: the second link of user 7, sent from another chat
    while the first is being processed, would get no busy answer and be
    processed as well. *)
Example same_user_two_chats_two_jobs :
  let first := Update 7 7 GDrive.scenario_link in
  let second := Update 7 (-1007) GDrive.scenario_link in
  let b := run [Enter first; Enter second] in
  jobs_of_user 7 b = [first; second]
  /\ replies b = [].
Proof. vm_compute. auto. Qed.

(** The same two links sent from one chat: the second gets the busy
    answer; once the first handler has left, the link is accepted. *)
Example same_chat_second_link_busy :
  let first := Update 7 7 GDrive.scenario_link in
  let second := Update 7 7 "https://drive.google.com/file/d/abc/view" in
  jobs_of_user 7 (run [Enter first; Enter second]) = [first]
  /\ replies (run [Enter first; Enter second]) = [(7, Busy)]
  /\ jobs_of_user 7 (run [Enter first; Leave first; Enter second]) = [second]
  /\ replies (run [Enter first; Leave first; Enter second]) = [].
Proof. vm_compute. auto. Qed.

(** *** The updates as main() has them dispatched *)





End Lock.

(** * Further properties *)

(** ** The link parser (gdrive_handler.py) *)
Section LinkParser.
Import GDrive.

Lemma append_cons c s t : String c s +:+ t = String c (s +:+ t).
Proof. reflexivity. Qed.

Lemma take_id_all s : all_id_chars (take_id s) = true.
Proof.
  induction s as [|c s IH]; [reflexivity|]. cbn [take_id].
  destruct (is_id_char c) eqn:E; [|reflexivity].
  cbn [all_id_chars]. now rewrite E, IH.
Qed.

Lemma match_here_wellformed alt s run :
  match_here alt s = Some run -> run <> EmptyString /\ all_id_chars run = true.
Proof.
  unfold match_here. destruct (strip_prefix alt s) as [rest|]; [|discriminate].
  pose proof (take_id_all rest) as H.
  destruct (take_id rest) as [|c r]; [discriminate|].
  intros [= <-]. split; [discriminate|exact H].
Qed.

Lemma first_match_inv alts s run :
  first_match alts s = Some run ->
  exists alt, In alt alts /\ match_here alt s = Some run.
Proof.
  induction alts as [|alt alts IH]; [discriminate|]. cbn [first_match].
  destruct (match_here alt s) as [r|] eqn:E.
  - intros [= <-]. exists alt. split; [now left|exact E].
  - intros H. destruct (IH H) as (a & Ha & Hm). exists a. split; [now right|exact Hm].
Qed.

Lemma first_match_some alts alt s run :
  In alt alts -> match_here alt s = Some run ->
  exists run', first_match alts s = Some run'.
Proof.
  induction alts as [|a alts IH]; [intros []|].
  intros [<-|Hin] Hm; cbn [first_match].
  - rewrite Hm. eauto.
  - destruct (match_here a s); eauto.
Qed.

Lemma re_search_unfold alts s :
  re_search alts s
  = match first_match alts s with
    | Some run => Some run
    | None => match s with
              | String _ s' => re_search alts s'
              | EmptyString => None
              end
    end.
Proof. destruct s; reflexivity. Qed.

Lemma re_search_skip alts c s :
  first_match alts (String c s) = None ->
  re_search alts (String c s) = re_search alts s.
Proof. intros H. rewrite re_search_unfold. now rewrite H. Qed.

Lemma re_search_here alts s run :
  first_match alts s = Some run -> re_search alts s = Some run.
Proof. intros H. rewrite re_search_unfold. now rewrite H. Qed.

(** A result of the search comes from some position of the text. *)
Lemma re_search_inv alts s run :
  re_search alts s = Some run ->
  exists t alt, tail_of t s /\ In alt alts /\ match_here alt t = Some run.
Proof.
  induction s as [|c s IH]; rewrite re_search_unfold;
    destruct (first_match alts _) as [r|] eqn:E; try discriminate.
  - intros [= <-]. destruct (first_match_inv _ _ _ E) as (alt & Hin & Hm).
    exists EmptyString, alt. repeat split; [constructor|assumption..].
  - intros [= <-]. destruct (first_match_inv _ _ _ E) as (alt & Hin & Hm).
    exists (String c s), alt. repeat split; [constructor|assumption..].
  - intros H. destruct (IH H) as (t & alt & Ht & Hin & Hm).
    exists t, alt. repeat split; [now constructor|assumption..].
Qed.

(** A position at which an alternative matches makes the search succeed. *)
Lemma re_search_some alts alt t s run :
  tail_of t s -> In alt alts -> match_here alt t = Some run ->
  exists run', re_search alts s = Some run'.
Proof.
  intros Ht Hin Hm. induction Ht as [|c s Ht IH].
  - destruct (first_match_some _ _ _ _ Hin Hm) as [r Hr].
    exists r. now apply re_search_here.
  - rewrite re_search_unfold. destruct (first_match alts (String c s)); eauto.
Qed.

(** X1: an id extracted from a link text is never empty and consists of
    letters, digits, underscores and hyphens only. *)
Theorem extracted_id_wellformed drive_link file_id :
  get_file_id_from_link drive_link = Some file_id ->
  file_id <> EmptyString /\ all_id_chars file_id = true.
Proof.
  unfold get_file_id_from_link. intros H.
  assert (Hs : exists alts, re_search alts drive_link = Some file_id).
  { destruct (re_search ["/file/d/"; "id="] drive_link) as [r|] eqn:E.
    - inversion H; subst. eauto.
    - eauto. }
  destruct Hs as [alts Hs].
  destruct (re_search_inv _ _ _ Hs) as (t & alt & _ & _ & Hm).
  now apply match_here_wellformed in Hm.
Qed.

Lemma extracted_id_wellformed_witness :
  "1AbC_d-9" <> EmptyString /\ all_id_chars "1AbC_d-9" = true.
Proof.
  exact (extracted_id_wellformed
           "https://drive.google.com/drive/folders/1AbC_d-9?usp=sharing"
           "1AbC_d-9" eq_refl).
Defined.

Lemma tail_of_trans t u s : tail_of t u -> tail_of u s -> tail_of t s.
Proof. intros Htu Hus. induction Hus; [exact Htu|now constructor]. Qed.

Lemma strip_prefix_tail p t rest :
  strip_prefix p t = Some rest -> tail_of rest t.
Proof.
  revert t. induction p as [|a p IH]; intros t; cbn [strip_prefix].
  - intros [= <-]. constructor.
  - destruct t as [|c t]; [discriminate|].
    destruct (Ascii.eqb a c); [|discriminate].
    intros H. constructor. now apply IH.
Qed.

Lemma strip_prefix_app p1 p2 t rest :
  strip_prefix (p1 +:+ p2) t = Some rest ->
  exists t', strip_prefix p1 t = Some t' /\ strip_prefix p2 t' = Some rest.
Proof.
  revert t. induction p1 as [|a p1 IH]; intros t.
  - change (EmptyString +:+ p2) with p2. intros H. now exists t.
  - rewrite append_cons. cbn [strip_prefix].
    destruct t as [|c t]; [discriminate|].
    destruct (Ascii.eqb a c); [|discriminate]. apply IH.
Qed.

Lemma match_here_app p1 p2 t run :
  match_here (p1 +:+ p2) t = Some run ->
  exists t', tail_of t' t /\ match_here p2 t' = Some run.
Proof.
  unfold match_here.
  destruct (strip_prefix (p1 +:+ p2) t) as [rest|] eqn:E; [|discriminate].
  destruct (strip_prefix_app _ _ _ _ E) as (t' & H1 & H2).
  intros H. exists t'. split; [now apply strip_prefix_tail in H1|].
  now rewrite H2.
Qed.

(** X2: a text in which handle_message finds a Drive link always yields
    an id: for it the enumerator never answers "Invalid Google Drive link
    format". *)
Theorem accepted_link_has_id message_text run :
  Main.drive_link_match message_text = Some run ->
  (exists file_id, get_file_id_from_link message_text = Some file_id)
  /\ forall k drive,
       snd (get_drive_items_from_link k drive message_text)
       <> Some InvalidLinkFormat.
Proof.
  intros H.
  assert (Hid : exists file_id, get_file_id_from_link message_text = Some file_id).
  { destruct (re_search_inv _ _ _ H) as (t & alt & Ht & Hin & Hm).
    assert (Hkey : exists base key,
               alt = base +:+ key
               /\ (In key ["/file/d/"; "id="] \/ key = "/drive/folders/")).
    { cbn [Main.DRIVE_LINK_SHAPES In] in Hin.
      destruct Hin as [<-|[<-|[<-|[<-|[<-|[<-|[]]]]]]].
      - exists "https://drive.google.com", "/file/d/". cbn. auto.
      - exists "https://drive.google.com", "/drive/folders/". cbn. auto.
      - exists "https://drive.google.com/open?", "id=". cbn. auto.
      - exists "http://drive.google.com", "/file/d/". cbn. auto.
      - exists "http://drive.google.com", "/drive/folders/". cbn. auto.
      - exists "http://drive.google.com/open?", "id=". cbn. auto. }
    destruct Hkey as (base & key & -> & Hkey).
    destruct (match_here_app _ _ _ _ Hm) as (t' & Ht' & Hm').
    pose proof (tail_of_trans _ _ _ Ht' Ht) as Htail.
    unfold get_file_id_from_link.
    destruct (re_search ["/file/d/"; "id="] message_text) as [r|] eqn:E;
      [eauto|].
    destruct Hkey as [Hk| ->].
    - destruct (re_search_some _ _ _ _ _ Htail Hk Hm') as [r Hr]. congruence.
    - apply (re_search_some _ "/drive/folders/" t' _ run);
        [exact Htail|now left|exact Hm']. }
  split; [exact Hid|]. intros k drive. destruct Hid as [file_id Hid].
  unfold get_drive_items_from_link. rewrite Hid.
  destruct (get_file_metadata drive file_id) as [meta|]; [|discriminate].
  destruct (String.eqb _ _); [|discriminate].
  destruct (list_files_in_folder_recursive _ _); discriminate.
Qed.

Lemma accepted_link_has_id_witness :
  (exists file_id, get_file_id_from_link scenario_link = Some file_id)
  /\ forall k drive,
       snd (get_drive_items_from_link k drive scenario_link)
       <> Some InvalidLinkFormat.
Proof. exact (accepted_link_has_id scenario_link "ROOT" eq_refl). Defined.

(** *** Links built from an id *)

Lemma take_id_app file_id suffix :
  all_id_chars file_id = true -> stops_id suffix = true ->
  take_id (file_id +:+ suffix) = file_id.
Proof.
  intros Hid Hs. induction file_id as [|c r IH].
  - change (EmptyString +:+ suffix) with suffix.
    destruct suffix as [|c s]; [reflexivity|]. cbn in Hs |- *.
    now destruct (is_id_char c).
  - rewrite append_cons. cbn [take_id all_id_chars] in *.
    apply andb_prop in Hid as [-> Hr]. now rewrite IH.
Qed.

Lemma strip_prefix_id_zone p t u :
  all_id_chars p = false -> no_qmark p = true ->
  all_id_chars t = true -> query_or_end u = true ->
  strip_prefix p (t +:+ u) = None.
Proof.
  revert t. induction p as [|a p IH]; intros t Hp Hq Ht Hu; [discriminate|].
  cbn [no_qmark] in Hq. apply andb_prop in Hq as [Ha Hq].
  destruct t as [|c t].
  - change (EmptyString +:+ u) with u. destruct u as [|x u]; [reflexivity|].
    cbn [strip_prefix query_or_end] in *.
    apply Ascii.eqb_eq in Hu. subst x.
    now destruct (Ascii.eqb a "?").
  - rewrite append_cons. cbn [strip_prefix all_id_chars] in *.
    apply andb_prop in Ht as [Hc Ht].
    destruct (Ascii.eqb a c) eqn:E; [|reflexivity].
    apply Ascii.eqb_eq in E. subst c. rewrite Hc in Hp. now apply IH.
Qed.

(** Inside an id no alternative with a character foreign to ids matches. *)
Lemma re_search_id_zone alts t u :
  Forall (fun alt => all_id_chars alt = false /\ no_qmark alt = true) alts ->
  all_id_chars t = true -> query_or_end u = true ->
  re_search alts (t +:+ u) = re_search alts u.
Proof.
  intros Halts Ht Hu.
  assert (Hfm : forall t', all_id_chars t' = true ->
                           first_match alts (t' +:+ u) = None).
  { intros t' Ht'. induction Halts as [|alt alts [Ha Hq] _ IHa]; [reflexivity|].
    cbn [first_match]. unfold match_here at 1.
    now rewrite strip_prefix_id_zone by assumption. }
  induction t as [|c t IH]; [reflexivity|].
  pose proof (Hfm _ Ht) as Hhere. rewrite append_cons in Hhere |- *.
  cbn [all_id_chars] in Ht. apply andb_prop in Ht as [Hc Ht].
  rewrite re_search_skip by exact Hhere. now apply IH.
Qed.

Ltac skip_chars :=
  rewrite ?append_cons;
  repeat (rewrite re_search_skip by reflexivity).

(** X3: the links Drive hands out resolve to the id they carry.  For a
    non-empty id of id characters: a file link and an open link give the id
    whatever follows it (after a character that ends the id); a folder link
    gives the id when nothing or a query string without "/file/d/" and "id="
    follows. *)
Theorem link_of_id_resolves file_id suffix :
  file_id <> EmptyString ->
  all_id_chars file_id = true ->
  stops_id suffix = true ->
  get_file_id_from_link
    ("https://drive.google.com/file/d/" +:+ file_id +:+ suffix) = Some file_id
  /\ get_file_id_from_link
       ("https://drive.google.com/open?id=" +:+ file_id +:+ suffix) = Some file_id
  /\ (query_or_end suffix = true ->
      re_search ["/file/d/"; "id="] suffix = None ->
      get_file_id_from_link
        ("https://drive.google.com/drive/folders/" +:+ file_id +:+ suffix)
      = Some file_id).
Proof.
  intros Hne Hid Hs.
  assert (Hrun : match take_id (file_id +:+ suffix) with
                 | EmptyString => None
                 | run => Some run
                 end = Some file_id).
  { rewrite take_id_app by assumption. now destruct file_id. }
  split; [|split].
  - unfold get_file_id_from_link. skip_chars.
    rewrite (re_search_here _ _ file_id); [reflexivity|].
    cbn [first_match match_here strip_prefix]. cbn.
    change (EmptyString +:+ file_id +:+ suffix) with (file_id +:+ suffix).
    now rewrite Hrun.
  - unfold get_file_id_from_link. skip_chars.
    rewrite (re_search_here _ _ file_id); [reflexivity|].
    cbn [first_match match_here strip_prefix]. cbn.
    change (EmptyString +:+ file_id +:+ suffix) with (file_id +:+ suffix).
    now rewrite Hrun.
  - intros Hq Hnone. unfold get_file_id_from_link.
    assert (Hfirst : re_search ["/file/d/"; "id="]
                       ("https://drive.google.com/drive/folders/"
                        +:+ file_id +:+ suffix) = None).
    { skip_chars. rewrite re_search_skip.
      - change (EmptyString +:+ file_id +:+ suffix) with (file_id +:+ suffix).
        rewrite re_search_id_zone; [exact Hnone| |assumption..].
        repeat constructor.
      - change (EmptyString +:+ file_id +:+ suffix) with (file_id +:+ suffix).
        cbn [first_match]. unfold match_here.
        change (strip_prefix "/file/d/" (String "/" (file_id +:+ suffix)))
          with (strip_prefix "file/d/" (file_id +:+ suffix)).
        now rewrite (strip_prefix_id_zone "file/d/") by auto. }
    rewrite Hfirst. skip_chars.
    rewrite (re_search_here _ _ file_id); [reflexivity|].
    cbn [first_match match_here strip_prefix]. cbn.
    change (EmptyString +:+ file_id +:+ suffix) with (file_id +:+ suffix).
    now rewrite Hrun.
Qed.

Lemma link_of_id_resolves_witness :
  get_file_id_from_link
    ("https://drive.google.com/file/d/" +:+ "1AbC_d-9" +:+ "/view") = Some "1AbC_d-9"
  /\ get_file_id_from_link
       ("https://drive.google.com/open?id=" +:+ "1AbC_d-9" +:+ "") = Some "1AbC_d-9"
  /\ get_file_id_from_link
       ("https://drive.google.com/drive/folders/" +:+ "1AbC_d-9" +:+ "?usp=sharing")
     = Some "1AbC_d-9".
Proof.
  split; [|split].
  - exact (proj1 (link_of_id_resolves "1AbC_d-9" "/view"
                    ltac:(discriminate) eq_refl eq_refl)).
  - exact (proj1 (proj2 (link_of_id_resolves "1AbC_d-9" ""
                           ltac:(discriminate) eq_refl eq_refl))).
  - exact (proj2 (proj2 (link_of_id_resolves "1AbC_d-9" "?usp=sharing"
                           ltac:(discriminate) eq_refl eq_refl))
             eq_refl eq_refl).
Defined.

End LinkParser.

(** ** The walk over a folder (gdrive_handler.py) *)
Section Walk.
Import GDrive.

Lemma forallb_Permutation {A} (f : A -> bool) l l' :
  Permutation l l' -> forallb f l = forallb f l'.
Proof.
  induction 1 as [|x l l' _ IH|x y l|l l' l'' _ IH1 _ IH2]; cbn [forallb].
  - reflexivity.
  - now rewrite IH.
  - now destruct (f x), (f y).
  - now rewrite IH1.
Qed.

Lemma keyed_children cs : Permutation (map snd (keyed cs)) cs.
Proof.
  unfold keyed.
  rewrite (order_by_folder_name_perm (map (fun c => (meta_of c, c)) cs)).
  rewrite map_map. cbn [snd]. now rewrite map_id.
Qed.

Lemma items_loop_decided k path (S : list (drive_file * node)) :
  Forall (fun p => walk_decided k (snd p) /\ fst p = meta_of (snd p)) S ->
  forall acc,
    if forallb child_ok (map snd S)
    then exists out, items_loop path (map (on_snd (files_list k)) S) acc = inr out
    else items_loop path (map (on_snd (files_list k)) S) acc
         = inl (AttributeError "details").
Proof.
  induction 1 as [|[m c] S [Hc Hm] _ IH]; intros acc.
  - cbn. now exists acc.
  - cbn [map on_snd fst snd items_loop forallb] in *. cbv zeta. subst m.
    unfold child_ok at 1.
    change (fi_is_folder (item_details path (meta_of c)))
      with (mime_is_folder (meta_of c)).
    destruct (mime_is_folder (meta_of c)); cbn [negb orb andb].
    + specialize (Hc (fi_path (item_details path (meta_of c)))).
      destruct (walkable c); cbn [andb].
      * destruct Hc as [sub ->]. apply IH.
      * now rewrite Hc.
    + apply IH.
Qed.

Lemma walk_is_decided k n : walk_decided k n.
Proof.
  induction n as [m ok cs IH] using node_rect'. intros path.
  cbn [walkable]. destruct ok; cbn [andb]; [|reflexivity].
  rewrite files_list_keyed, list_files_in_folder_recursive_pages,
    pages_loop_concat, concat_paginate.
  fold child_ok. rewrite <- (forallb_Permutation child_ok _ _ (keyed_children cs)).
  apply items_loop_decided. now apply keyed_Forall.
Qed.

(** X4: enumeration of a folder link is all or nothing.  It returns a list
    exactly when the linked folder and every folder reached from it through
    folders can be listed; otherwise it returns no file at all, and the
    error message carries not the HttpError of the listing but the
    AttributeError that the handler of line 93 raises on [error.details]. *)
Theorem enumeration_all_or_nothing k drive drive_link root_id root :
  get_file_id_from_link drive_link = Some root_id ->
  find_in_drive root_id drive = Some root ->
  mime_is_folder (meta_of root) = true ->
  if walkable root
  then exists files,
         get_drive_items_from_link k drive drive_link = (Some files, None)
  else get_drive_items_from_link k drive drive_link
       = (None, Some (ErrorProcessingFolder (f_name (meta_of root))
                        (AttributeError "details"))).
Proof.
  intros Hid Hfind Hmime.
  rewrite (get_drive_items_from_link_folder _ _ _ _ _ Hid Hfind Hmime).
  pose proof (walk_is_decided k root (f_name (meta_of root))) as H.
  destruct (walkable root).
  - destruct H as [all ->]. eauto.
  - now rewrite H.
Qed.

Lemma enumeration_all_or_nothing_witness :
  (exists files,
      get_drive_items_from_link 0 (scenario_drive "ROOT" "Root") scenario_link
      = (Some files, None))
  /\ get_drive_items_from_link 0 locked_drive scenario_link
     = (None, Some (ErrorProcessingFolder "Root" (AttributeError "details"))).
Proof.
  split.
  - exact (enumeration_all_or_nothing 0 (scenario_drive "ROOT" "Root")
             scenario_link "ROOT" (folder "ROOT" "Root" scenario_children)
             eq_refl eq_refl eq_refl).
  - exact (enumeration_all_or_nothing 0 locked_drive scenario_link "ROOT"
             (folder "ROOT" "Root"
                (scenario_children
                 ++ [ Node (DriveFile "idPriv" "private" FOLDER_MIME None) false
                        [ plain_file "idD" "d.txt" 7 ] ])%list)
             eq_refl eq_refl eq_refl).
Defined.

(** *** The page size of the listing does not show *)

Lemma items_loop_page_size k k' path (S : list (drive_file * node)) :
  Forall (fun p => forall path',
            list_files_in_folder_recursive (files_list k (snd p)) path'
            = list_files_in_folder_recursive (files_list k' (snd p)) path') S ->
  forall acc,
    items_loop path (map (on_snd (files_list k)) S) acc
    = items_loop path (map (on_snd (files_list k')) S) acc.
Proof.
  induction 1 as [|[m c] S Hc _ IH]; intros acc; [reflexivity|].
  cbn [map on_snd fst snd items_loop] in *. cbv zeta.
  destruct (fi_is_folder _); [|apply IH].
  rewrite Hc. destruct (list_files_in_folder_recursive _ _); [reflexivity|apply IH].
Qed.

Lemma walk_page_size k k' n path :
  list_files_in_folder_recursive (files_list k n) path
  = list_files_in_folder_recursive (files_list k' n) path.
Proof.
  revert path. induction n as [m ok cs IH] using node_rect'. intros path.
  destruct ok; [|reflexivity].
  rewrite !files_list_keyed, !list_files_in_folder_recursive_pages,
    !pages_loop_concat, !concat_paginate.
  apply items_loop_page_size.
  assert (H := keyed_Forall _ cs IH). rewrite Forall_forall in H |- *.
  intros p Hp. now destruct (H p Hp).
Qed.

(** X5: the result of the enumerator does not depend on the size of the
    pages in which the service delivers a listing: following nextPageToken
    to the end collects the same items in the same order. *)
Theorem enumeration_independent_of_page_size k k' drive drive_link :
  get_drive_items_from_link k drive drive_link
  = get_drive_items_from_link k' drive drive_link.
Proof.
  unfold get_drive_items_from_link, files_list_of_id.
  destruct (get_file_id_from_link drive_link) as [file_id|]; [|reflexivity].
  destruct (get_file_metadata drive file_id) as [meta|]; [|reflexivity].
  destruct (String.eqb _ _); [|reflexivity].
  destruct (find_in_drive file_id drive) as [n|]; [|reflexivity].
  now rewrite (walk_page_size k k').
Qed.

(** *** Nothing is lost and nothing is made up *)

Lemma Permutation_concat_same {A B} (f : A -> list B) l l' :
  Permutation l l' -> Permutation (concat (map f l)) (concat (map f l')).
Proof.
  induction 1 as [|x l l' _ IH|x y l|l l' l'' _ IH1 _ IH2]; cbn [map concat].
  - constructor.
  - now apply Permutation_app.
  - rewrite !app_assoc. apply Permutation_app; [|reflexivity].
    apply Permutation_app_comm.
  - now transitivity (concat (map f l')).
Qed.

Lemma Permutation_concat_pointwise {A B} (f g : A -> list B) l :
  Forall (fun a => Permutation (f a) (g a)) l ->
  Permutation (concat (map f l)) (concat (map g l)).
Proof.
  induction 1; cbn [map concat]; [constructor|]. now apply Permutation_app.
Qed.

Lemma Permutation_concat_map {A B} (f g : A -> list B) l l' :
  Permutation l l' ->
  Forall (fun a => Permutation (f a) (g a)) l ->
  Permutation (concat (map f l)) (concat (map g l')).
Proof.
  intros Hperm Hall.
  transitivity (concat (map g l)).
  - now apply Permutation_concat_pointwise.
  - now apply Permutation_concat_same.
Qed.

Lemma spec_enumerate_stored n :
  forall path, Permutation (spec_enumerate n path) (stored_files n path).
Proof.
  induction n as [m ok cs IH] using node_rect'. intros path.
  destruct (spec_enumerate_level m ok cs path) as (ordered & Hperm & _ & ->).
  cbn [stored_files].
  change (fun c => let d := item_details path (meta_of c) in
                   if mime_is_folder (meta_of c) then stored_files c (fi_path d)
                   else [d])
    with (fun c => if mime_is_folder (meta_of c)
                   then stored_files c (fi_path (item_details path (meta_of c)))
                   else [item_details path (meta_of c)]).
  symmetry. apply Permutation_concat_map; [exact Hperm|].
  rewrite Forall_forall in IH |- *. intros c Hc. unfold spec_entry. cbv zeta.
  destruct (mime_is_folder (meta_of c)); [|reflexivity].
  symmetry. now apply IH.
Qed.

(** X6: for a folder link the files returned are exactly the files that
    lie below the linked folder, each of them once: the returned list is a
    rearrangement of the files found by going through the stored tree. *)
Theorem enumeration_returns_every_file_once k drive drive_link root_id root
    files :
  get_file_id_from_link drive_link = Some root_id ->
  find_in_drive root_id drive = Some root ->
  mime_is_folder (meta_of root) = true ->
  fst (get_drive_items_from_link k drive drive_link) = Some files ->
  Permutation files (stored_files root (f_name (meta_of root)))
  /\ length files = length (stored_files root (f_name (meta_of root))).
Proof.
  intros Hid Hfind Hmime.
  rewrite (get_drive_items_from_link_folder _ _ _ _ _ Hid Hfind Hmime).
  destruct (list_files_in_folder_recursive _ _) as [e|all] eqn:R;
    cbn [fst]; [discriminate|].
  intros [= <-]. rewrite (walk_spec k root _ _ R).
  pose proof (spec_enumerate_stored root (f_name (meta_of root))) as H.
  split; [exact H|]. now apply Permutation_length.
Qed.

Lemma enumeration_returns_every_file_once_witness :
  let files :=
    spec_enumerate (folder "ROOT" "Root" scenario_children) "Root" in
  Permutation files
    (stored_files (folder "ROOT" "Root" scenario_children) "Root")
  /\ length files
     = length (stored_files (folder "ROOT" "Root" scenario_children) "Root").
Proof.
  exact (enumeration_returns_every_file_once 0 (scenario_drive "ROOT" "Root")
           scenario_link "ROOT" (folder "ROOT" "Root" scenario_children) _
           eq_refl eq_refl eq_refl eq_refl).
Defined.

(** *** The shape of the paths *)

Lemma stored_files_paths n :
  forall path, path <> EmptyString ->
    Forall (fun item => exists middle,
              fi_path item = path +:+ "/" +:+ middle +:+ fi_name item)
           (stored_files n path).
Proof.
  induction n as [m ok cs IH] using node_rect'. intros path Hpath.
  cbn [stored_files]. induction IH as [|c cs Hc _ IHcs]; [constructor|].
  cbn [map concat]. apply Forall_app. split; [|exact IHcs]. cbv zeta.
  assert (Hp : fi_path (item_details path (meta_of c))
               = path +:+ "/" +:+ f_name (meta_of c)).
  { cbn [item_details fi_path]. unfold item_path. now destruct path. }
  destruct (mime_is_folder (meta_of c)).
  - rewrite Hp.
    assert (Hne : path +:+ "/" +:+ f_name (meta_of c) <> EmptyString)
      by (destruct path; [congruence|discriminate]).
    specialize (Hc _ Hne). rewrite Forall_forall in Hc |- *.
    intros item Hin. destruct (Hc item Hin) as [middle ->].
    exists (f_name (meta_of c) +:+ "/" +:+ middle).
    now rewrite !string_app_assoc.
  - constructor; [|constructor]. exists EmptyString. exact Hp.
Qed.

(** X7: every file returned for a link to a folder with a non-empty name
    has a path that starts with that name and a slash and ends with the
    file's own name. *)
Theorem enumerated_paths_start_at_root k drive drive_link root_id root files :
  get_file_id_from_link drive_link = Some root_id ->
  find_in_drive root_id drive = Some root ->
  mime_is_folder (meta_of root) = true ->
  f_name (meta_of root) <> EmptyString ->
  fst (get_drive_items_from_link k drive drive_link) = Some files ->
  Forall (fun item => exists middle,
            fi_path item
            = f_name (meta_of root) +:+ "/" +:+ middle +:+ fi_name item) files.
Proof.
  intros Hid Hfind Hmime Hname.
  rewrite (get_drive_items_from_link_folder _ _ _ _ _ Hid Hfind Hmime).
  destruct (list_files_in_folder_recursive _ _) as [e|all] eqn:R;
    cbn [fst]; [discriminate|].
  intros [= <-]. rewrite (walk_spec k root _ _ R).
  eapply Permutation_Forall;
    [symmetry; apply spec_enumerate_stored|now apply stored_files_paths].
Qed.

Lemma enumerated_paths_start_at_root_witness :
  Forall (fun item => exists middle,
            fi_path item = "Root" +:+ "/" +:+ middle +:+ fi_name item)
    (spec_enumerate (folder "ROOT" "Root" scenario_children) "Root").
Proof.
  exact (enumerated_paths_start_at_root 0 (scenario_drive "ROOT" "Root")
           scenario_link "ROOT" (folder "ROOT" "Root" scenario_children) _
           eq_refl eq_refl eq_refl ltac:(discriminate) eq_refl).
Defined.

End Walk.

(** ** More on the credential store (auth_manager.py) *)
Section Store.
Import AuthManager.

Lemma str_inj u u' : str u = str u' -> u = u'.
Proof. unfold str. apply (inj pretty). Qed.

(** X8: what [save] stores, [load] returns, when the token file was
    missing, not JSON or written by [save] before: the object [load] builds
    has the six fields saved and no expiry; [load] leaves the file as it
    is. *)
Theorem save_then_load reached refresh user_id creds f :
  usable f = true ->
  let f' := snd (save_user_credentials user_id creds f) in
  load_user_credentials reached refresh user_id f'
  = (inr (Some (from_dict creds)), f').
Proof.
  intros Hf f'. subst f'.
  destruct (save_on_usable user_id creds f Hf) as (m & -> & Hm).
  rewrite load_is_a_lookup. cbn [snd]. now rewrite Hm.
Qed.

Lemma save_then_load_witness :
  let f' := snd (save_user_credentials 42 sample_credentials Garbage) in
  load_user_credentials after_2000 refresh_revoked 42 f'
  = (inr (Some (from_dict sample_credentials)), f').
Proof.
  exact (save_then_load after_2000 refresh_revoked 42 sample_credentials
           Garbage eq_refl).
Defined.

(** X9: on a valid token file [save] and [delete] for one user leave the
    entry of every other user as it was. *)
Theorem other_users_untouched user_id other creds all_tokens :
  other <> user_id ->
  (exists m, snd (save_user_credentials user_id creds (Stored all_tokens))
             = Stored m
             /\ m !! str other = all_tokens !! str other)
  /\ (exists m, snd (delete_user_credentials user_id (Stored all_tokens))
                = Stored m
                /\ m !! str other = all_tokens !! str other).
Proof.
  intros Hne.
  assert (Hs : str user_id <> str other)
    by (intros H; apply str_inj in H; congruence).
  split.
  - eexists. split; [reflexivity|]. now apply lookup_insert_ne.
  - rewrite delete_on_stored. destruct (all_tokens !! str user_id).
    + eexists. split; [reflexivity|]. now apply lookup_delete_ne.
    + eexists. split; reflexivity.
Qed.

Lemma other_users_untouched_witness :
  (exists m, snd (save_user_credentials 42 sample_credentials
                    (Stored {[ str 7 := with_token "seven" sample_credentials ]}))
             = Stored m
             /\ m !! str 7
                = ({[ str 7 := with_token "seven" sample_credentials ]}
                     : gmap string credentials) !! str 7)
  /\ (exists m, snd (delete_user_credentials 42
                       (Stored {[ str 7 := with_token "seven" sample_credentials ]}))
                = Stored m
                /\ m !! str 7
                   = ({[ str 7 := with_token "seven" sample_credentials ]}
                        : gmap string credentials) !! str 7).
Proof.
  exact (other_users_untouched 42 7 sample_credentials
           {[ str 7 := with_token "seven" sample_credentials ]}
           ltac:(discriminate)).
Defined.

(** X10: on a token file that is missing or was written by [save],
    [delete] returns whether the user had an entry and removes that entry
    and nothing else; when there was no entry the file is left as it is (a
    missing file stays missing).  Afterwards the user has no entry: [load]
    returns None and a second [delete] returns False, both without changing
    the file. *)
Theorem delete_then_absent reached refresh user_id f :
  well_formed f = true ->
  let f' := snd (delete_user_credentials user_id f) in
  fst (delete_user_credentials user_id f) = inr (has_entry user_id f)
  /\ f' = match f with
          | Stored all_tokens =>
              if has_entry user_id f
              then Stored (delete (str user_id) all_tokens)
              else f
          | _ => f
          end
  /\ has_entry user_id f' = false
  /\ load_user_credentials reached refresh user_id f' = (inr None, f')
  /\ delete_user_credentials user_id f' = (inr false, f').
Proof.
  intros Hf f'. subst f'. destruct f as [| | |v|m]; try discriminate.
  - repeat split.
  - rewrite delete_on_stored. cbn [has_entry].
    destruct (m !! str user_id) as [c|] eqn:E; cbn [fst snd].
    + rewrite bool_decide_eq_true_2 by eauto.
      split; [reflexivity|]. split; [reflexivity|].
      assert (Hgone : (delete (str user_id) m : gmap string credentials)
                      !! str user_id = None) by apply lookup_delete_eq.
      split; [|split].
      * cbn [has_entry]. rewrite Hgone. apply bool_decide_eq_false_2.
        intros [? ?]; discriminate.
      * now apply load_absent_user.
      * rewrite delete_on_stored. now rewrite Hgone.
    + rewrite bool_decide_eq_false_2 by (intros [? ?]; discriminate).
      split; [reflexivity|]. split; [reflexivity|]. split; [|split].
      * cbn [has_entry]. rewrite E. apply bool_decide_eq_false_2.
        intros [? ?]; discriminate.
      * now apply load_absent_user.
      * rewrite delete_on_stored. now rewrite E.
Qed.

Lemma delete_then_absent_witness :
  let f := Stored {[ str 42 := sample_credentials ]} in
  let f' := snd (delete_user_credentials 42 f) in
  fst (delete_user_credentials 42 f) = inr (has_entry 42 f)
  /\ f' = (if has_entry 42 f
           then Stored (delete (str 42) {[ str 42 := sample_credentials ]})
           else f)
  /\ has_entry 42 f' = false
  /\ load_user_credentials after_2000 refresh_granted 42 f' = (inr None, f')
  /\ delete_user_credentials 42 f' = (inr false, f').
Proof.
  exact (delete_then_absent after_2000 refresh_granted 42
           (Stored {[ str 42 := sample_credentials ]}) eq_refl).
Defined.

(** X11: [load] never refreshes.  Whatever the clock and whatever the
    refresh would do, it leaves the token file as it is and gives the same
    result; a credential it returns is never reported expired, because the
    object is built without an expiry. *)
Theorem load_never_refreshes reached refresh reached' refresh' user_id f :
  snd (load_user_credentials reached refresh user_id f) = f
  /\ load_user_credentials reached refresh user_id f
     = load_user_credentials reached' refresh' user_id f
  /\ forall credentials,
       fst (load_user_credentials reached refresh user_id f)
       = inr (Some credentials) ->
       expiry credentials = None /\ expired reached credentials = false.
Proof.
  rewrite !load_is_a_lookup. cbn [fst snd]. split; [reflexivity|].
  split; [reflexivity|]. intros credentials H.
  destruct f as [| | |v|m]; try discriminate.
  destruct (m !! str user_id) as [d|]; [|discriminate].
  injection H as <-. now split.
Qed.

(** X12: an authorization flow is used up by one exchange.  Whatever the
    outcome, the user's flow is gone afterwards, so a second exchange
    returns None and changes nothing; a refused code leaves the token file
    as it was, an accepted one leaves the credential in it. *)
Theorem exchange_uses_up_the_flow fetch_token user_id code code' active_flows f :
  let '(result, flows', f') :=
    exchange_code_for_credentials fetch_token user_id code active_flows f in
  flows' !! str user_id = None
  /\ exchange_code_for_credentials fetch_token user_id code' flows' f'
     = (None, flows', f')
  /\ (result = None -> f' = f)
  /\ (forall creds, result = Some creds ->
        exists m, f' = Stored m /\ m !! str user_id = Some creds).
Proof.
  unfold exchange_code_for_credentials at 1.
  destruct (active_flows !! str user_id) as [user_flow|] eqn:E.
  - assert (Hgone : (delete (str user_id) active_flows : gmap string flow)
                    !! str user_id = None) by apply lookup_delete_eq.
    destruct (fetch_token user_flow code) as [e|creds].
    + cbn. unfold exchange_code_for_credentials. rewrite ?Hgone.
      split; [first [exact Hgone|reflexivity]|]. split; [reflexivity|]. split; [reflexivity|].
      discriminate.
    + destruct f as [| | |v|m]; cbn; unfold exchange_code_for_credentials;
        rewrite ?Hgone; (split; [first [exact Hgone|reflexivity]|]);
        (split; [reflexivity|]);
        first [ split; [reflexivity|discriminate]
              | (split; [discriminate|]); intros c [= <-]; eexists;
                (split; [reflexivity|apply lookup_insert_eq]) ].
  - unfold exchange_code_for_credentials. rewrite E.
    split; [first [exact E|reflexivity]|]. split; [reflexivity|].
    split; [reflexivity|].
    discriminate.
Qed.

(** X29: /login replaces the user's pending flow.  The exchange that
    follows works on the flow of the latest link, whatever flow the user had
    before: it returns the credential fetched when the code is accepted and
    the token file can be written (it is missing, not JSON or written by
    [save]), and None otherwise; it leaves the flows as they were before
    the login, the user's own removed. *)
Theorem login_then_exchange authorization_url fetch_token user_id code
    active_flows f :
  let latest := Flow (snd (authorization_url user_id)) in
  let flows1 := snd (get_auth_url authorization_url user_id active_flows) in
  let '(result, flows2, f') :=
    exchange_code_for_credentials fetch_token user_id code flows1 f in
  result = match fetch_token latest code with
           | inr creds => if usable f then Some creds else None
           | inl _ => None
           end
  /\ flows2 = delete (str user_id) active_flows.
Proof.
  unfold get_auth_url. destruct (authorization_url user_id) as [url state].
  cbn [snd]. unfold exchange_code_for_credentials. rewrite lookup_insert_eq.
  destruct (fetch_token (Flow state) code) as [e|creds].
  - split; [reflexivity|]. apply delete_insert_eq.
  - unfold save_user_credentials.
    destruct f as [| | |v|m]; cbn [exists_ json_load usable];
      (split; [reflexivity|]); apply delete_insert_eq.
Qed.

End Store.

(** ** More on download and upload (file_manager.py) *)
Section Files.
Import FileManager.

Lemma safe_char_kept c : is_safe_char c = true ->
  (if isalnum c || Ascii.eqb c "." || Ascii.eqb c "_" || Ascii.eqb c "-"
   then c else "_"%char) = c.
Proof. unfold is_safe_char. now intros ->. Qed.

Lemma sanitized_char_safe c :
  is_safe_char (if isalnum c || Ascii.eqb c "." || Ascii.eqb c "_"
                   || Ascii.eqb c "-" then c else "_"%char) = true.
Proof.
  destruct (isalnum c || Ascii.eqb c "." || Ascii.eqb c "_" || Ascii.eqb c "-")
    eqn:E; [exact E|reflexivity].
Qed.

Lemma safe_char_not_slash c : is_safe_char c = true -> Ascii.eqb c "/" = false.
Proof.
  destruct (Ascii.eqb c "/") eqn:E; [|reflexivity].
  apply Ascii.eqb_eq in E. subst c. discriminate.
Qed.

Lemma all_safe_no_slash s : all_safe s = true -> has_slash s = false.
Proof.
  induction s as [|c s IH]; [reflexivity|]. cbn [all_safe has_slash].
  intros H. apply andb_prop in H as [Hc Hs].
  now rewrite (safe_char_not_slash c Hc), IH.
Qed.

Lemma sanitize_safe s : all_safe (sanitize s) = true.
Proof.
  induction s as [|c s IH]; [reflexivity|]. cbn [sanitize all_safe].
  now rewrite sanitized_char_safe, IH.
Qed.

(** A name without a slash in front is put into the download directory. *)
Lemma join_safe_name s :
  all_safe s = true -> join_download_dir s = "downloads/" +:+ s.
Proof.
  destruct s as [|c s]; [reflexivity|]. cbn [all_safe join_download_dir].
  intros H. apply andb_prop in H as [Hc _].
  now rewrite (safe_char_not_slash c Hc).
Qed.

(** X13: sanitising a file name keeps its length, yields only characters
    that are alphanumeric for Python, dots, underscores and hyphens (so no
    slash), and changes nothing in a name that is already of that kind; the
    scratch path of a file with a non-empty name is the download directory,
    a slash and such a name. *)
Theorem sanitize_makes_safe_names file_id file_name :
  String.length (sanitize file_name) = String.length file_name
  /\ all_safe (sanitize file_name) = true
  /\ has_slash (sanitize file_name) = false
  /\ (all_safe file_name = true -> sanitize file_name = file_name)
  /\ sanitize (sanitize file_name) = sanitize file_name
  /\ (file_name <> EmptyString ->
      scratch_path file_id file_name = "downloads/" +:+ sanitize file_name).
Proof.
  assert (Hid : forall s, all_safe s = true -> sanitize s = s).
  { induction s as [|c s IH]; [reflexivity|]. cbn [all_safe sanitize].
    intros H. apply andb_prop in H as [Hc Hs].
    now rewrite (safe_char_kept c Hc), IH. }
  split; [|split; [|split; [|split; [|split]]]].
  - induction file_name as [|c s IH]; [reflexivity|]. cbn. now rewrite IH.
  - apply sanitize_safe.
  - apply all_safe_no_slash, sanitize_safe.
  - apply Hid.
  - apply Hid, sanitize_safe.
  - intros Hne. unfold scratch_path.
    rewrite <- (join_safe_name _ (sanitize_safe file_name)).
    destruct file_name as [|c s]; [congruence|]. reflexivity.
Qed.

(** A name with an e acute (U+00E9, alphanumeric for Python), a
    degree sign (U+00B0, not alphanumeric), a space and a slash. *)
Example sanitize_latin_name :
  let e_acute := ascii_of_nat 233 in
  let degree := ascii_of_nat 176 in
  let name := "caf" +:+ String e_acute (String degree " 1/2.txt") in
  sanitize name = "caf" +:+ String e_acute "__1_2.txt"
  /\ scratch_path "idC" name
     = "downloads/caf" +:+ String e_acute "__1_2.txt".
Proof. vm_compute. auto. Qed.

(** *** What a download does *)

Lemma chunk_reads_app l l' :
  chunk_reads (l ++ l') = (chunk_reads l + chunk_reads l')%nat.
Proof. unfold chunk_reads. now rewrite List.filter_app, length_app. Qed.

Lemma chunk_reads_edits evs : forallb is_edit evs = true -> chunk_reads evs = 0%nat.
Proof.
  induction evs as [|ev evs IH]; [reflexivity|]. cbn [forallb].
  intros H. apply andb_prop in H as [Hev Hevs].
  destruct ev; try discriminate. exact (IH Hevs).
Qed.

Lemma harmless_for_every_size cb size : harmless cb -> harmless_for size cb.
Proof. intros H f Hf name perc fin w. exact (H f Hf name perc size fin w). Qed.

Lemma after_chunk_harmless file_name file_size cb c perc w :
  harmless_for file_size cb ->
  exists perc' w' evs,
    after_chunk file_name file_size cb c perc w = (inr perc', w')
    /\ fs w' = fs w
    /\ log w' = (log w ++ evs)%list
    /\ forallb is_edit evs = true.
Proof.
  intros Hcb. unfold after_chunk.
  assert (Hret : forall p : Z, exists perc' w' evs,
             ret p w = (inr perc', w') /\ fs w' = fs w
             /\ log w' = (log w ++ evs)%list /\ forallb is_edit evs = true).
  { intros p. exists p, w, []. now rewrite app_nil_r. }
  destruct (percent c) as [current|]; [|apply Hret].
  destruct (current >? perc); [|apply Hret].
  destruct cb as [f|]; [|apply Hret].
  destruct (clock_over_2s c || (current mod 5 =? 0)); [|apply Hret].
  destruct (Hcb f eq_refl file_name current false w)
    as (w' & evs & Hf & Hfs & Hlog & Hed).
  exists current, w', evs. unfold bind. now rewrite Hf.
Qed.

Lemma chunks_loop_outcome file_id file_name file_size file_path cb :
  harmless_for file_size cb ->
  forall d perc w,
    let r := chunks_loop file_id file_name file_size file_path cb d perc w in
    chunk_reads (log (snd r)) = (chunk_reads (log w) + script_reads d)%nat
    /\ delete file_path (fs (snd r)) = delete file_path (fs w)
    /\ (is_Some (fs w !! file_path) -> is_Some (fs (snd r) !! file_path))
    /\ match script_result d with
       | inr total =>
           fst r = inr tt
           /\ fs (snd r) !! file_path
              = Some (default 0 (fs w !! file_path) + total)
       | inl e => fst r = inl e
       end.
Proof.
  intros Hcb.
  assert (Hstep : forall c perc w,
    exists perc' w',
      ((fun w0 => (inr tt, write_chunk file_path (received c) w0)) ;;;
       after_chunk file_name file_size cb c perc)%M
        (snd (record (NextChunk file_id) w)) = (inr perc', w')
      /\ fs w' = <[file_path := default 0 (fs w !! file_path) + received c]> (fs w)
      /\ chunk_reads (log w') = S (chunk_reads (log w))).
  { intros c perc w. unfold bind. cbn [snd record].
    set (w1 := write_chunk _ _ _).
    destruct (after_chunk_harmless file_name file_size cb c perc w1 Hcb)
      as (perc' & w' & evs & -> & Hfs & Hlog & Hed).
    exists perc', w'. split; [reflexivity|]. split; [now rewrite Hfs|].
    rewrite Hlog, chunk_reads_app, (chunk_reads_edits _ Hed).
    subst w1. cbn [log write_chunk]. rewrite chunk_reads_app. cbn. lia. }
  induction d as [c|c rest IH|e]; intros perc w r; subst r;
    cbn [chunks_loop script_result script_reads].
  - destruct (Hstep c perc w) as (perc' & w' & Hrun & Hfs & Hreads).
    unfold bind in Hrun |- *. cbn [record snd] in Hrun |- *.
    destruct (after_chunk _ _ _ _ _ _) as [[e|p] w2]; inversion Hrun; subst.
    cbn [fst snd ret]. rewrite Hfs, Hreads.
    split; [lia|]. split; [apply delete_insert_eq|].
    rewrite lookup_insert_eq. split; [eauto|]. split; reflexivity.
  - destruct (Hstep c perc w) as (perc' & w' & Hrun & Hfs & Hreads).
    unfold bind in Hrun |- *. cbn [record snd] in Hrun |- *.
    destruct (after_chunk _ _ _ _ _ _) as [[e|p] w2]; inversion Hrun; subst.
    destruct (IH perc' w') as (Hr & Hdel & Hsome & Hres).
    rewrite Hr, Hdel, Hfs, Hreads. split; [lia|].
    split; [apply delete_insert_eq|].
    split; [intros _; apply Hsome; rewrite Hfs, lookup_insert_eq; eauto|].
    destruct (script_result rest) as [e|total]; [exact Hres|].
    destruct Hres as [Hok Hsize]. split; [exact Hok|].
    rewrite Hsize, Hfs, lookup_insert_eq. cbn [default from_option id].
    apply (f_equal Some). lia.
  - unfold bind, record, raise. cbn [fst snd log fs].
    rewrite chunk_reads_app. cbn. split; [lia|]. auto.
Qed.

Lemma download_gdrive_file_outcome get_drive_service get_media file_id
    file_name file_size credentials cb w :
  get_drive_service credentials = inr tt ->
  file_size <= power ^ 5 ->
  harmless_for file_size cb ->
  is_directory (scratch_path file_id file_name) w = false ->
  reuses (scratch_path file_id file_name) file_size w = false ->
  let file_path := scratch_path file_id file_name in
  let r := download_gdrive_file get_drive_service get_media file_id file_name
             file_size credentials cb w in
  chunk_reads (log (snd r))
  = (chunk_reads (log w) + script_reads (get_media file_id))%nat
  /\ match script_result (get_media file_id) with
     | inr total =>
         fst r = inr file_path /\ fs (snd r) = <[file_path := total]> (fs w)
     | inl e =>
         fst r = inl (download_error e) /\ fs (snd r) = delete file_path (fs w)
     end.
Proof.
  intros Hservice Hsize Hcb Hdir Hfresh file_path r. subst r.
  rewrite (download_gdrive_file_start _ _ _ _ _ _ _ _ Hservice Hsize).
  cbv zeta. fold file_path.
  set (w0 := World (fs w) (dirs w) (bot_answers w)
               (log w ++ [Called_download_gdrive_file file_id])%list).
  change (path_exists file_path w0
          && match path_getsize file_path w0 with
             | inr n => n =? file_size
             | inl _ => false
             end
          && (file_size >? 0)) with (reuses file_path file_size w).
  fold file_path in Hfresh, Hdir. rewrite Hfresh.
  match goal with |- context [try_except ?m ?h w0] =>
    set (r := try_except m h w0) end.
  assert (Hr : r = let '(res, w1) :=
                     chunks_loop file_id file_name file_size file_path cb
                       (get_media file_id) 0 (truncate file_path w0) in
                   match res with
                   | inl e => download_handlers file_path e w1
                   | inr _ =>
                       let '(res, w2) :=
                         match cb with
                         | Some f => f file_name 100 file_size true
                         | None => ret tt
                         end w1 in
                       match res with
                       | inl e => download_handlers file_path e w2
                       | inr _ => (inr file_path, w2)
                       end
                   end).
  { subst r. unfold try_except, bind, open_wb.
    change (is_directory file_path w0) with (is_directory file_path w).
    rewrite Hdir.
    destruct (chunks_loop _ _ _ _ _ _ _ _) as [[e|[]] w1]; [reflexivity|].
    destruct cb as [f|]; [|reflexivity].
    now destruct (f file_name 100 file_size true w1) as [[e|[]] w2]. }
  rewrite Hr. clear Hr r.
  pose proof (chunks_loop_outcome file_id file_name file_size file_path cb Hcb
                (get_media file_id) 0 (truncate file_path w0)) as H.
  cbv zeta in H. destruct H as (Hreads & Hdel & Hsome & Hres).
  specialize (Hsome ltac:(cbn [truncate fs]; rewrite lookup_insert_eq; eauto)).
  destruct (chunks_loop _ _ _ _ _ _ _ _) as [[e|[]] w1]; cbn [fst snd] in *.
  - destruct (script_result (get_media file_id)) as [e'|total];
      [|destruct Hres; discriminate].
    inversion Hres; subst e'. destruct Hsome as [n Hn].
    destruct (regular_file _ _ _ Hn) as (Hex & _ & _).
    assert (Hh : download_handlers file_path e w1
                 = (inl (download_error e), remove_file file_path w1)).
    { unfold download_handlers, bind, remove, raise. rewrite Hex, Hn.
      now destruct e. }
    rewrite Hh. cbn [fst snd remove_file fs log]. split.
    + rewrite Hreads. cbn [truncate log w0]. rewrite chunk_reads_app. cbn. lia.
    + split; [reflexivity|]. rewrite Hdel. cbn [truncate fs w0].
      apply delete_insert_eq.
  - destruct (script_result (get_media file_id)) as [e'|total];
      [discriminate|].
    destruct Hres as [_ Hfile].
    assert (Hfs1 : fs w1 = <[file_path := total]> (fs w)).
    { apply map_eq. intros q. destruct (decide (q = file_path)) as [->|Hq].
      - rewrite Hfile, lookup_insert_eq. cbn [truncate fs w0].
        now rewrite lookup_insert_eq.
      - rewrite lookup_insert_ne by congruence.
        rewrite <- (lookup_delete_ne (fs w1) file_path q) by congruence.
        rewrite Hdel. cbn [truncate fs w0].
        rewrite lookup_delete_ne by congruence.
        now rewrite lookup_insert_ne by congruence. }
    destruct cb as [f|].
    + destruct (Hcb f eq_refl file_name 100 true w1)
        as (w2 & evs & Hf & Hfs2 & Hlog2 & Hed).
      rewrite Hf. cbn [fst snd]. split.
      * rewrite Hlog2, chunk_reads_app, (chunk_reads_edits _ Hed), Hreads.
        cbn [truncate log w0]. rewrite chunk_reads_app. cbn. lia.
      * split; [reflexivity|]. now rewrite Hfs2.
    + cbn [fst snd ret]. split.
      * rewrite Hreads. cbn [truncate log w0]. rewrite chunk_reads_app. cbn. lia.
      * split; [reflexivity|exact Hfs1].
Qed.

(** X14: a download for which the Drive service is built, of a file whose
    size format_bytes can render (the call logs it first), whose scratch
    path is not a directory, that does not reuse a scratch file and is run
    with a progress callback harmless for that size, reads the chunks of
    the media request one after the other.  When all reads succeed it
    returns the scratch path and the scratch file holds the bytes received;
    when a read fails no scratch file is left and the call raises: IOError
    for a failure other than an HttpError, and for an HttpError the
    AttributeError of its handler, which looks up [error.details].  Other
    files stay as they are. *)
Theorem download_outcome get_drive_service get_media file_id file_name
    file_size credentials cb w :
  get_drive_service credentials = inr tt ->
  file_size <= power ^ 5 ->
  harmless_for file_size cb ->
  is_directory (scratch_path file_id file_name) w = false ->
  reuses (scratch_path file_id file_name) file_size w = false ->
  let file_path := scratch_path file_id file_name in
  let r := download_gdrive_file get_drive_service get_media file_id file_name
             file_size credentials cb w in
  chunk_reads (log (snd r))
  = (chunk_reads (log w) + script_reads (get_media file_id))%nat
  /\ match script_result (get_media file_id) with
     | inr total =>
         fst r = inr file_path /\ fs (snd r) = <[file_path := total]> (fs w)
     | inl e =>
         fst r = inl (download_error e) /\ fs (snd r) = delete file_path (fs w)
     end.
Proof. apply download_gdrive_file_outcome. Qed.

Lemma harmless_none : harmless None.
Proof. intros f H. discriminate. Qed.

Lemma harmless_for_none size : harmless_for size None.
Proof. intros f H. discriminate. Qed.

Lemma download_outcome_witness :
  (let r := download_gdrive_file service_built two_chunk_media "idA" "a.txt"
              30 None None empty_world in
   chunk_reads (log (snd r)) = 2%nat
   /\ fst r = inr "downloads/a.txt"
   /\ fs (snd r) = {[ "downloads/a.txt" := 30 ]})
  /\ (let r := download_gdrive_file service_built
                 (fun _ => MoreChunks (Chunk (Some 50) 15 false)
                             (ChunkRaises (HttpError 500)))
                 "idA" "a.txt" 30 None None
                 (world_with_file "downloads/a.txt" 12 []) in
      chunk_reads (log (snd r)) = 2%nat
      /\ fst r = inl (AttributeError "details")
      /\ fs (snd r) = ∅).
Proof.
  split.
  - destruct (download_outcome service_built two_chunk_media "idA" "a.txt" 30
                None None empty_world eq_refl ltac:(vm_compute; discriminate)
                (harmless_for_none 30) ltac:(vm_compute; reflexivity)
                ltac:(vm_compute; reflexivity)) as [H1 [H2 H3]].
    cbv zeta. split; [exact H1|]. split; [exact H2|]. rewrite H3.
    vm_compute. reflexivity.
  - destruct (download_outcome service_built
                (fun _ => MoreChunks (Chunk (Some 50) 15 false)
                            (ChunkRaises (HttpError 500)))
                "idA" "a.txt" 30 None None
                (world_with_file "downloads/a.txt" 12 [])
                eq_refl ltac:(vm_compute; discriminate)
                (harmless_for_none 30) ltac:(vm_compute; reflexivity)
                ltac:(vm_compute; reflexivity)) as [H1 [H2 H3]].
    cbv zeta. split; [exact H1|]. split; [exact H2|]. rewrite H3.
    vm_compute. reflexivity.
Defined.

(** What the hypotheses of the download outcome exclude: a file named
    [..] has the parent of the download directory as its scratch path, and
    the call ends in IsADirectoryError with no chunk read; a file whose size
    format_bytes cannot render ends the call in KeyError; and when the
    service cannot be built its exception leaves the call. *)
Example download_outside_the_hypotheses :
  (let r := download_gdrive_file service_built two_chunk_media "idD" ".." 30
              None None empty_world in
   fst r = inl IsADirectoryError_ /\ chunk_reads (log (snd r)) = 0%nat)
  /\ (let r := download_gdrive_file service_built two_chunk_media "idH"
                 "huge.img" (2 ^ 51) None None empty_world in
      fst r = inl (KeyError 5) /\ chunk_reads (log (snd r)) = 0%nat)
  /\ (let r := download_gdrive_file (fun _ => inl ServiceError)
                 two_chunk_media "idA" "a.txt" 30 None None empty_world in
      fst r = inl ServiceError /\ chunk_reads (log (snd r)) = 0%nat).
Proof. vm_compute. auto 10. Qed.

(** *** What an upload within the limit does *)

Lemma send_documents_edits evs :
  forallb is_edit evs = true -> List.filter is_send_document evs = [].
Proof.
  induction evs as [|ev evs IH]; [reflexivity|]. cbn [forallb].
  intros H. apply andb_prop in H as [Hev Hevs].
  destruct ev; try discriminate. exact (IH Hevs).
Qed.

Lemma harmless_call cb name perc size fin w :
  harmless cb ->
  exists w' evs,
    match cb with
    | Some f => f name perc size fin
    | None => ret tt
    end w = (inr tt, w')
    /\ fs w' = fs w
    /\ log w' = (log w ++ evs)%list
    /\ forallb is_edit evs = true.
Proof.
  intros Hcb. destruct cb as [f|]; [now apply Hcb|].
  exists w, []. now rewrite app_nil_r.
Qed.

(** X15: an upload of a scratch file within the destination limit, of a
    size format_bytes can render (the call logs it first), run with a
    harmless progress callback, tries to send the document exactly
    once and removes the scratch file whatever happens; it returns True when
    the document was sent, and when it was not it returns False or, if the
    failure notice cannot be sent either, raises. *)
Theorem upload_outcome limit chat_id file_path caption original_filename cb w
    file_size :
  file_size <= power ^ 5 ->
  harmless cb ->
  fs w !! file_path = Some file_size ->
  file_size <= limit ->
  let r := upload_to_telegram limit chat_id file_path caption original_filename
             cb w in
  fs (snd r) = delete file_path (fs w)
  /\ exists ok,
       List.filter is_send_document (log (snd r))
       = (List.filter is_send_document (log w)
          ++ [SendDocument chat_id file_path original_filename caption ok])%list
       /\ if ok then fst r = inr true
          else fst r = inr false \/ fst r = inl TelegramError.
Proof.
  intros Hrender Hcb Hsize Hle r. subst r.
  rewrite (upload_to_telegram_start _ _ _ _ _ _ _ _ Hsize Hrender). cbv zeta.
  replace (file_size >? limit) with false
    by (symmetry; rewrite Z.gtb_ltb; apply Z.ltb_ge; lia).
  set (w0 := World (fs w) (dirs w) (bot_answers w)
               (log w ++ [Called_upload_to_telegram file_path])%list).
  assert (Hclean : forall w', fs w' = fs w ->
            fs (if path_exists file_path w'
                then snd (try_except (remove file_path) (fun _ => ret tt) w')
                else w') = delete file_path (fs w)).
  { intros w' Hfs. destruct (cleanup_world file_path w') as (-> & _).
    now rewrite Hfs. }
  assert (Hlogc : forall w',
            log (if path_exists file_path w'
                 then snd (try_except (remove file_path) (fun _ => ret tt) w')
                 else w') = log w')
    by (intros w'; now destruct (cleanup_world file_path w') as (_ & _ & _ & ->)).
  match goal with |- context [try_finally ?m ?c w0] =>
    set (cleanup := c); set (r := try_finally m cleanup w0) end.
  assert (Hr : exists res w3,
            r = (res, cleanup w3)
            /\ fs w3 = fs w
            /\ exists ok,
                 List.filter is_send_document (log w3)
                 = (List.filter is_send_document (log w)
                    ++ [SendDocument chat_id file_path original_filename
                          caption ok])%list
                 /\ if ok then res = inr true
                    else res = inr false \/ res = inl TelegramError).
  { subst r. unfold try_finally, try_except, bind, open_rb, ret.
    change (fs w0 !! file_path) with (fs w !! file_path). rewrite Hsize.
    destruct (harmless_call cb original_filename 0 file_size false w0 Hcb)
      as (w1 & evs1 & Hrun1 & Hfs1 & Hlog1 & Hed1).
    unfold ret in Hrun1. rewrite Hrun1, bot_call_spec.
    set (w2 := World (fs w1) (dirs w1) (tail (bot_answers w1)) _).
    assert (Hfs2 : fs w2 = fs w) by (subst w2 w0; cbn [fs]; now rewrite Hfs1).
    assert (Hsent : forall ok tl,
              List.filter is_send_document
                ((log w1 ++ [SendDocument chat_id file_path original_filename
                               caption ok]) ++ tl)
              = (List.filter is_send_document (log w)
                 ++ [SendDocument chat_id file_path original_filename caption
                       ok]
                 ++ List.filter is_send_document tl)%list).
    { intros ok tl. rewrite Hlog1. subst w0. cbn [log].
      rewrite !List.filter_app, (send_documents_edits _ Hed1). cbn.
      rewrite !app_nil_r. now rewrite <- app_assoc. }
    destruct (next_answer w1) eqn:Hok.
    - destruct (harmless_call cb original_filename 100 file_size true w2 Hcb)
        as (w3 & evs3 & Hrun3 & Hfs3 & Hlog3 & Hed3).
      unfold ret in Hrun3. rewrite Hrun3.
      exists (inr true), w3. split; [reflexivity|].
      split; [now rewrite Hfs3|]. exists true. split; [|reflexivity].
      rewrite Hlog3. subst w2. cbn [log].
      rewrite Hsent, (send_documents_edits _ Hed3). reflexivity.
    - rewrite bot_call_spec.
      set (w3 := World (fs w2) (dirs w2) (tail (bot_answers w2)) _).
      exists (if next_answer w2 then inr false else inl TelegramError), w3.
      split; [now destruct (next_answer w2)|]. split; [exact Hfs2|].
      exists false. split.
      + subst w3 w2. cbn [log]. rewrite Hsent. reflexivity.
      + destruct (next_answer w2); auto. }
  destruct Hr as (res & w3 & -> & Hfs3 & ok & Hlog & Hres). cbn [fst snd].
  split; [now apply Hclean|]. exists ok. subst cleanup. cbv beta.
  rewrite Hlogc. now split.
Qed.

Lemma upload_outcome_witness :
  let w := world_with_file "downloads/a.txt" 30 [false; true] in
  let r := upload_to_telegram 100 7 "downloads/a.txt" "Root/a.txt (30.00 B)"
             "a.txt" None w in
  fs (snd r) = delete "downloads/a.txt" (fs w)
  /\ exists ok,
       List.filter is_send_document (log (snd r))
       = (List.filter is_send_document (log w)
          ++ [SendDocument 7 "downloads/a.txt" "a.txt" "Root/a.txt (30.00 B)"
                ok])%list
       /\ if ok then fst r = inr true
          else fst r = inr false \/ fst r = inl TelegramError.
Proof.
  exact (upload_outcome 100 7 "downloads/a.txt" "Root/a.txt (30.00 B)" "a.txt"
           None (world_with_file "downloads/a.txt" 30 [false; true]) 30
           ltac:(vm_compute; discriminate) harmless_none
           ltac:(vm_compute; reflexivity) ltac:(discriminate)).
Defined.

End Files.

(** ** The progress reports of a download (file_manager.py, main.py) *)
Section Progress.
Import FileManager Main.

(** For a size format_bytes can render the progress updaters do nothing
    but try one edit. *)
Lemma progress_updater_harmless st index total path size :
  size <= power ^ 5 ->
  harmless_for size (Some (progress_updater st index total path)).
Proof.
  intros Hsize f [= <-] name perc fin w.
  destruct (call_format_bytes_returns size Hsize) as [s Hs].
  unfold progress_updater, bind, try_except, edit_text.
  rewrite Hs, bot_call_spec.
  destruct (next_answer w); eexists _, [_]; cbn [fs log];
    (split; [reflexivity|]); (split; [reflexivity|]); split; reflexivity.
Qed.

(** What a progress updater adds to the log: one edit, or nothing when
    the text cannot be built. *)
Lemma progress_updater_log st index total path name perc size fin w :
  let r := progress_updater st index total path name perc size fin w in
  (exists n, fst r = inl (KeyError n) /\ log (snd r) = log w)
  \/ (fst r = inr tt
      /\ exists ok,
           log (snd r)
           = (log w ++ [EditText (Progress st perc name size fin index total
                                    path) ok])%list).
Proof.
  unfold progress_updater, bind, call_format_bytes, lift, try_except,
    edit_text.
  destruct (format_bytes (Some size)) as [s|n]; [right|left; eauto].
  rewrite bot_call_spec. destruct (next_answer w); cbn; eauto.
Qed.

Lemma download_percentages_app l l' :
  download_percentages (l ++ l')
  = (download_percentages l ++ download_percentages l')%list.
Proof.
  induction l as [|ev l IH]; [reflexivity|]. cbn [app download_percentages].
  destruct ev as [| | | |[] ?|]; try exact IH.
  destruct st; [|exact IH]. destruct is_final; [exact IH|].
  cbn [app]. now rewrite IH.
Qed.

Lemma increasing_from_weaken bound bound' l :
  bound <= bound' -> increasing_from bound' l -> increasing_from bound l.
Proof. destruct l as [|x l]; [auto|]. cbn. intros H [H1 H2]. split; [lia|exact H2]. Qed.

Lemma after_chunk_percentages index total path file_name file_size c perc w :
  let r := after_chunk file_name file_size
             (Some (progress_updater Downloading index total path)) c perc w in
  exists evs,
    log (snd r) = (log w ++ evs)%list
    /\ match fst r with
       | inr perc' =>
           perc <= perc'
           /\ (download_percentages evs = []
               \/ (download_percentages evs = [perc'] /\ perc < perc'))
       | inl _ => download_percentages evs = []
       end.
Proof.
  unfold after_chunk.
  assert (Hret : forall p : Z, perc <= p ->
            exists evs,
              log (snd (ret p w)) = (log w ++ evs)%list
              /\ match fst (ret p w) with
                 | inr perc' =>
                     perc <= perc'
                     /\ (download_percentages evs = []
                         \/ (download_percentages evs = [perc']
                             /\ perc < perc'))
                 | inl _ => download_percentages evs = []
                 end).
  { intros p Hp. exists []. cbn. rewrite app_nil_r. auto. }
  destruct (percent c) as [current|]; [|apply Hret; lia].
  destruct (current >? perc) eqn:E; [|apply Hret; lia].
  apply Z.gtb_lt in E.
  destruct (clock_over_2s c || (current mod 5 =? 0)); [|apply Hret; lia].
  cbv zeta. unfold bind.
  destruct (progress_updater_log Downloading index total path file_name
              current file_size false w) as [(n & Hres & Hlog)|(Hres & ok & Hlog)];
    cbv zeta in Hres, Hlog;
    destruct (progress_updater _ _ _ _ _ _ _ _ w) as [res w'];
    cbn [fst snd] in *; subst res; cbn [fst snd ret].
  - exists []. rewrite app_nil_r. auto.
  - eexists. split; [exact Hlog|]. split; [lia|]. right. split; [reflexivity|lia].
Qed.

Lemma chunks_loop_percentages index total path file_id file_name file_size
    file_path d :
  forall perc w,
    exists evs,
      log (snd (chunks_loop file_id file_name file_size file_path
                  (Some (progress_updater Downloading index total path))
                  d perc w))
      = (log w ++ evs)%list
      /\ increasing_from perc (download_percentages evs).
Proof.
  induction d as [c|c rest IH|e]; intros perc w; cbn [chunks_loop].
  - unfold bind at 1. cbn [record]. unfold bind at 1. cbn beta iota.
    set (w1 := write_chunk _ _ _).
    destruct (after_chunk_percentages index total path file_name file_size c
                perc w1) as (evs & Hlog & Hp).
    cbv zeta in Hlog, Hp. unfold bind.
    destruct (after_chunk _ _ _ _ _ w1) as [[e|perc'] w'];
      cbn [fst snd ret] in *;
      exists (NextChunk file_id :: evs); rewrite Hlog; subst w1;
      cbn [write_chunk log]; (split; [now rewrite <- app_assoc|]);
      cbn [download_percentages].
    + now rewrite Hp.
    + destruct Hp as [Hle [->|[-> Hlt]]]; cbn; auto.
  - unfold bind at 1. cbn [record]. unfold bind at 1. cbn beta iota.
    set (w1 := write_chunk _ _ _).
    destruct (after_chunk_percentages index total path file_name file_size c
                perc w1) as (evs & Hlog & Hp).
    cbv zeta in Hlog, Hp. unfold bind at 1.
    destruct (after_chunk _ _ _ _ _ w1) as [[e|perc'] w'];
      cbn [fst snd] in *.
    + exists (NextChunk file_id :: evs). rewrite Hlog. subst w1.
      cbn [write_chunk log]. split; [now rewrite <- app_assoc|].
      cbn [download_percentages]. now rewrite Hp.
    + destruct (IH perc' w') as (evs' & Hlog' & Hinc).
      exists (NextChunk file_id :: evs ++ evs')%list. rewrite Hlog', Hlog.
      subst w1. cbn [write_chunk log].
      split; [now rewrite <- !app_assoc|].
      cbn [download_percentages]. rewrite download_percentages_app.
      destruct Hp as [Hle [->|[-> Hlt]]]; cbn [app increasing_from].
      * now apply (increasing_from_weaken perc perc').
      * auto.
  - unfold bind, record, raise. cbn [snd log].
    exists [NextChunk file_id]. now split.
Qed.

Lemma download_handlers_log file_path e w :
  log (snd (download_handlers file_path e w)) = log w.
Proof.
  unfold download_handlers, bind, remove, raise.
  destruct (path_exists file_path w); [|reflexivity].
  destruct (fs w !! file_path); [reflexivity|].
  now destruct (is_directory file_path w).
Qed.

(** X16: during a download started by handle_message the percentages of
    the progress texts sent before the final one go strictly upwards and
    start above 0: no percentage is reported twice and none goes back. *)
Theorem download_progress_increases get_drive_service get_media index total
    path file_id file_name file_size credentials w :
  exists evs,
    log (snd (download_gdrive_file get_drive_service get_media file_id
                file_name file_size credentials
                (Some (progress_updater Downloading index total path)) w))
    = (log w ++ evs)%list
    /\ increasing_from 0 (download_percentages evs).
Proof.
  unfold download_gdrive_file, bind at 1, record.
  set (w0 := World (fs w) (dirs w) (bot_answers w) _).
  unfold bind at 1, lift.
  destruct (get_drive_service credentials) as [e|[]];
    [exists [Called_download_gdrive_file file_id]; now split|].
  unfold bind at 1, call_format_bytes, lift.
  destruct (format_bytes (Some file_size)) as [s|n];
    [|exists [Called_download_gdrive_file file_id]; now split].
  destruct (_ && _).
  - exists [Called_download_gdrive_file file_id]. now split.
  - set (file_path := scratch_path file_id file_name).
    unfold try_except, bind at 1, open_wb.
    destruct (is_directory file_path w0).
    { exists [Called_download_gdrive_file file_id].
      rewrite download_handlers_log. now split. }
    unfold bind at 1.
    destruct (chunks_loop_percentages index total path file_id file_name
                file_size file_path (get_media file_id) 0
                (truncate file_path w0))
      as (evs & Hlog & Hinc).
    destruct (chunks_loop _ _ _ _ _ _ _ _) as [[e|[]] w1]; cbn [snd] in Hlog.
    + exists (Called_download_gdrive_file file_id :: evs).
      split; [|exact Hinc].
      rewrite download_handlers_log, Hlog. subst w0.
      cbn [truncate log]. now rewrite <- app_assoc.
    + unfold bind, ret.
      destruct (progress_updater_log Downloading index total path file_name
                  100 file_size true w1)
        as [(k & Hres & Hlog1)|(Hres & ok & Hlog1)];
        cbv zeta in Hres, Hlog1;
        destruct (progress_updater _ _ _ _ _ _ _ _ w1) as [res w2];
        cbn [fst snd] in *; subst res.
      * exists (Called_download_gdrive_file file_id :: evs).
        split; [|exact Hinc].
        rewrite download_handlers_log, Hlog1, Hlog. subst w0.
        cbn [truncate log]. now rewrite <- app_assoc.
      * exists (Called_download_gdrive_file file_id
                :: evs ++ [EditText (Progress Downloading 100 file_name
                                       file_size true index total path) ok])%list.
        split.
        -- cbn [snd]. rewrite Hlog1, Hlog. subst w0.
           cbn [truncate log]. now rewrite <- !app_assoc.
        -- cbn [download_percentages]. rewrite download_percentages_app. cbn.
           now rewrite app_nil_r.
Qed.

End Progress.

(** ** More on the lock of handle_message (main.py) *)
Section MoreLock.
Import Main.

(** X19: a chat none of whose messages is being handled is served at once,
    whatever goes on in other chats. *)
Theorem free_chat_is_served steps upd :
  jobs_of_chat (effective_chat upd) (run steps) = [] ->
  let b := run steps in
  inside (handle_message_enter upd b) = (inside b ++ [upd])%list
  /\ replies (handle_message_enter upd b) = replies b.
Proof.
  intros Hfree b.
  assert (L : lock_held (effective_chat upd) b = false).
  { pose proof (run_consistent steps (effective_chat upd)) as H. fold b in H.
    destruct (lock_held (effective_chat upd) b); [|reflexivity].
    destruct H as [u Hu]. fold b in Hfree. congruence. }
  destruct (enter_while_free _ _ L) as (locks & -> & _). now split.
Qed.

Lemma free_chat_is_served_witness :
  let first := Update 7 7 GDrive.scenario_link in
  let other := Update 8 8 GDrive.scenario_link in
  let b := run [Enter first] in
  inside (handle_message_enter other b) = (inside b ++ [other])%list
  /\ replies (handle_message_enter other b) = replies b.
Proof.
  exact (free_chat_is_served [Enter (Update 7 7 GDrive.scenario_link)]
           (Update 8 8 GDrive.scenario_link) eq_refl).
Defined.

(** X20: in every reachable state a chat has at most one handler inside
    the block, and its lock is held exactly when there is one. *)
Theorem chat_serves_one_at_a_time steps chat_id :
  (length (jobs_of_chat chat_id (run steps)) <= 1)%nat
  /\ (lock_held chat_id (run steps) = true
      <-> jobs_of_chat chat_id (run steps) <> []).
Proof.
  pose proof (run_consistent steps chat_id) as H.
  destruct (lock_held chat_id (run steps)).
  - destruct H as [u ->]. cbn. split; [lia|]. split; [discriminate|reflexivity].
  - rewrite H. cbn. split; [lia|]. split; [discriminate|congruence].
Qed.

(** X21: while the handler of a message is inside the block, a further
    message of the same chat gets the busy answer and changes nothing else;
    once that handler has left, the message is taken up. *)
Theorem busy_until_handler_leaves steps first second :
  In first (inside (run steps)) ->
  effective_chat second = effective_chat first ->
  let b := run steps in
  let b' := handle_message_leave first b in
  handle_message_enter second b
  = Bot (user_processing_locks b) (inside b)
        (replies b ++ [(effective_chat second, Busy)])%list
  /\ inside (handle_message_enter second b') = (inside b' ++ [second])%list
  /\ replies (handle_message_enter second b') = replies b'.
Proof.
  intros Hin Hchat b b'. split.
  - apply enter_while_locked.
    pose proof (run_consistent steps (effective_chat second)) as H. fold b in H.
    destruct (lock_held (effective_chat second) b); [reflexivity|].
    assert (Hjob : In first (jobs_of_chat (effective_chat second) b)).
    { apply List.filter_In. split; [exact Hin|].
      now apply bool_decide_eq_true_2. }
    rewrite H in Hjob. destruct Hjob.
  - assert (L : lock_held (effective_chat second) b' = false).
    { subst b'. unfold handle_message_leave.
      rewrite bool_decide_eq_true_2 by now apply list_elem_of_In.
      unfold lock_held. cbn [user_processing_locks].
      now rewrite Hchat, lookup_insert_eq. }
    destruct (enter_while_free _ _ L) as (locks & -> & _). now split.
Qed.

Lemma busy_until_handler_leaves_witness :
  let first := Update 7 7 GDrive.scenario_link in
  let second := Update 9 7 GDrive.scenario_link in
  let b := run [Enter first] in
  let b' := handle_message_leave first b in
  handle_message_enter second b
  = Bot (user_processing_locks b) (inside b)
        (replies b ++ [(effective_chat second, Busy)])%list
  /\ inside (handle_message_enter second b') = (inside b' ++ [second])%list
  /\ replies (handle_message_enter second b') = replies b'.
Proof.
  exact (busy_until_handler_leaves [Enter (Update 7 7 GDrive.scenario_link)]
           (Update 7 7 GDrive.scenario_link) (Update 9 7 GDrive.scenario_link)
           ltac:(vm_compute; auto) eq_refl).
Defined.

End MoreLock.

(** ** More on the per-file loop (main.py) *)
Section MoreLoop.
Import Main.

(** X22: main.py as written (no [import os]): whatever the files, the
    credential and the answers of Drive and Telegram, the loop never enters
    upload_to_telegram and never sends a document; when it completes, the
    success counter is where it started and every file has been counted as
    failed. *)
Theorem as_written_nothing_is_uploaded threshold limit get_drive_service
    get_media chat_id credentials total files :
  forall index s f w,
    let r := process_files threshold limit get_drive_service get_media false
               chat_id credentials index total files (s, f) w in
    List.filter is_upload_event (log (snd r))
    = List.filter is_upload_event (log w)
    /\ forall s' f', fst r = inr (s', f') ->
         s' = s /\ f' = (f + length files)%nat.
Proof.
  intros index s f w r. split.
  - exact (as_written_same_entries is_upload_event threshold limit
             get_drive_service get_media chat_id credentials total files
             ltac:(repeat split) index (s, f) w).
  - subst r. revert index s f w.
    induction files as [|file_info files IH]; intros index s f w.
    + cbn. intros s' f' [= <- <-]. split; lia.
    + cbn [process_files]. unfold bind.
      destruct (process_file _ _ _ _ _ _ _ _ _ _ _ w) as [[e|[s1 f1]] w1] eqn:E;
        cbn [fst]; [discriminate|].
      apply process_file_as_written in E. inversion E; subst.
      intros s' f' H. destruct (IH _ _ _ _ s' f' H) as [-> ->].
      cbn [length]. split; lia.
Qed.

(** Tests on a path depend on the files and directories only. *)
Lemma same_files_same_tests p size w w' :
  fs w' = fs w -> dirs w' = dirs w ->
  is_directory p w' = is_directory p w
  /\ FileManager.reuses p size w' = FileManager.reuses p size w.
Proof.
  intros Hfs Hdirs.
  unfold FileManager.reuses, is_directory, path_exists, path_getsize.
  now rewrite Hfs, Hdirs.
Qed.

(** X23: a file that passes the login gate, of a size format_bytes can
    render, for which the Drive service is built, whose scratch path is not
    a directory and holds no file to reuse, and whose download fails at a
    chunk read, is counted as failed, with every Telegram call going
    through: the turn of the loop returns with the failure counter
    incremented, no scratch file is left, no upload is tried, and its last
    act is a notice: of a file system error for a failure other than an
    HttpError, and for an HttpError that of an unexpected error, the
    AttributeError raised by the handler in download_gdrive_file.  This
    holds with or without [os] bound. *)
Theorem failed_download_is_counted threshold limit get_drive_service get_media
    os_bound chat_id credentials index total file_info s f e w :
  let file_id := GDrive.fi_id file_info in
  let file_name := GDrive.fi_name file_info in
  let file_size := GDrive.fi_size file_info in
  let file_path := FileManager.scratch_path file_id file_name in
  bot_answers w = [] ->
  get_drive_service credentials = inr tt ->
  file_size <= FileManager.power ^ 5 ->
  (file_size >? threshold) && negb (bool_decide (is_Some credentials)) = false ->
  is_directory file_path w = false ->
  FileManager.reuses file_path file_size w = false ->
  FileManager.script_result (get_media file_id) = inl e ->
  let r := process_file threshold limit get_drive_service get_media os_bound
             chat_id credentials index total file_info (s, f) w in
  fst r = inr (s, S f)
  /\ last (log (snd r)) = Some (EditText (download_failure_notice file_name e) true)
  /\ fs (snd r) = delete file_path (fs w)
  /\ List.filter is_upload_event (log (snd r))
     = List.filter is_upload_event (log w).
Proof.
  intros file_id file_name file_size file_path Hq Hservice Hsize Hgate Hdir
    Hfresh Hscript r.
  enough (exists w',
            r = (inr (s, S f), w')
            /\ last (log w')
               = Some (EditText (download_failure_notice file_name e) true)
            /\ fs w' = delete file_path (fs w)
            /\ List.filter is_upload_event (log w')
               = List.filter is_upload_event (log w))
    as (w' & Hr & H) by (rewrite Hr; now split).
  subst r. unfold process_file, bind at 1. rewrite (bot_call_quiet _ _ Hq).
  set (w1 := World _ _ _ _).
  assert (H1 : bot_answers w1 = [] /\ fs w1 = fs w /\ dirs w1 = dirs w
               /\ List.filter is_upload_event (log w1)
                  = List.filter is_upload_event (log w)).
  { subst w1. cbn [bot_answers fs dirs log]. repeat split.
    now rewrite List.filter_app, app_nil_r. }
  clearbody w1. unfold try_except, file_body.
  fold file_id file_name file_size. rewrite Hgate. unfold bind at 1.
  set (notice := if _ && _ then _ else _).
  assert (H2 : exists w2, notice w1 = (inr tt, w2)
               /\ bot_answers w2 = [] /\ fs w2 = fs w /\ dirs w2 = dirs w
               /\ List.filter is_upload_event (log w2)
                  = List.filter is_upload_event (log w)).
  { destruct H1 as (Hq1 & Hfs1 & Hdirs1 & Hlog1). subst notice.
    destruct (contains _ _ && _).
    - unfold edit_text. eexists. rewrite (bot_call_quiet _ _ Hq1).
      split; [reflexivity|].
      cbn [bot_answers fs dirs log]. repeat split; [exact Hfs1|exact Hdirs1|].
      now rewrite List.filter_app, app_nil_r.
    - exists w1. now repeat split. }
  destruct H2 as (w2 & -> & Hq2 & Hfs2 & Hdirs2 & Hlog2). clear H1.
  unfold bind at 1.
  destruct (same_files_same_tests file_path file_size w w2 Hfs2 Hdirs2)
    as [Hdir2 Hfresh2].
  rewrite Hdir in Hdir2. rewrite Hfresh in Hfresh2.
  pose proof (download_gdrive_file_outcome get_drive_service get_media file_id
                file_name file_size credentials
                (Some (progress_updater Downloading index total
                         (GDrive.fi_path file_info))) w2 Hservice Hsize
                (progress_updater_harmless _ _ _ _ _ Hsize) Hdir2 Hfresh2)
    as Hd.
  cbv zeta in Hd. fold file_id in Hscript. rewrite Hscript in Hd.
  destruct Hd as (_ & Hres & Hfsd).
  destruct stays_quiet_preorder as [Hqrefl Hqtrans].
  pose proof (leaves_download stays_quiet Hqrefl Hqtrans stays_quiet_files
                (fun file_id => conj (keeps_quiet_record _)
                                     (keeps_quiet_record _))
                (fun text => keeps_quiet_bot_call _)
                get_drive_service get_media index total
                (GDrive.fi_path file_info) file_id file_name file_size
                credentials w2 Hq2) as Hqd.
  destruct (same_entries_preorder is_upload_event) as [Hurefl Hutrans].
  pose proof (leaves_download (same_entries is_upload_event) Hurefl Hutrans
                (same_entries_files _)
                (fun file_id => conj (same_entries_record _ _ eq_refl)
                                     (same_entries_record _ _ eq_refl))
                (fun text => same_entries_bot_call _ _ (fun ok => eq_refl))
                get_drive_service get_media index total
                (GDrive.fi_path file_info) file_id file_name file_size
                credentials w2) as Hud.
  unfold same_entries in Hud.
  destruct (FileManager.download_gdrive_file _ _ _ _ _ _ _ w2) as [res wd].
  cbn [fst snd] in *. subst res. rewrite Hfs2 in Hfsd.
  rewrite Hlog2 in Hud. unfold edit_text, bind, ret.
  destruct e; cbn [FileManager.download_error download_failure_notice
                   is_ConnectionError is_IOError];
    rewrite (bot_call_quiet _ _ Hqd); eexists; (split; [reflexivity|]);
    cbn [log fs]; (split; [apply last_snoc|]); (split; [exact Hfsd|]);
    now rewrite List.filter_app, app_nil_r.
Qed.

Lemma failed_download_is_counted_witness :
  let file_info := small_file in
  let r := process_file default_LARGE_FILE_THRESHOLD_BYTES
             default_MAX_FILE_SIZE_TG_BYTES FileManager.service_built
             (fun _ => FileManager.ChunkRaises (HttpError 404))
             true 7 None 1 1 file_info (0, 0)%nat empty_world in
  fst r = inr (0, 1)%nat
  /\ last (log (snd r))
     = Some (EditText (UnexpectedError "a.txt" (AttributeError "details"))
               true)
  /\ fs (snd r)
     = delete (FileManager.scratch_path (GDrive.fi_id file_info)
                 (GDrive.fi_name file_info)) (fs empty_world)
  /\ List.filter is_upload_event (log (snd r))
     = List.filter is_upload_event (log empty_world).
Proof.
  exact (failed_download_is_counted default_LARGE_FILE_THRESHOLD_BYTES
           default_MAX_FILE_SIZE_TG_BYTES FileManager.service_built
           (fun _ => FileManager.ChunkRaises (HttpError 404))
           true 7 None 1 1 small_file 0 0
           (HttpError 404) empty_world
           eq_refl eq_refl ltac:(vm_compute; discriminate)
           ltac:(vm_compute; reflexivity)
           ltac:(vm_compute; reflexivity)
           ltac:(vm_compute; reflexivity) eq_refl).
Defined.

(** X24: with every Telegram call going through, a job over a non-empty
    list always runs to its end, whatever Drive, the file system and the
    missing [os] do to its files: no failure of a file stops the loop.  The
    job returns after sending the summary, whose two counts add up to the
    number of files. *)
Theorem job_ends_with_summary threshold limit get_drive_service get_media
    os_bound chat_id credentials files w :
  files <> [] ->
  bot_answers w = [] ->
  let job := transfer_job threshold limit get_drive_service get_media os_bound
               chat_id credentials files w in
  fst job = inr tt
  /\ exists s f,
       (s + f = length files)%nat
       /\ last (log (snd job)) = Some (SendMessage chat_id (Summary s f) true).
Proof. apply job_completes_with_summary. Qed.

Lemma job_ends_with_summary_witness :
  let job := transfer_job default_LARGE_FILE_THRESHOLD_BYTES
               default_MAX_FILE_SIZE_TG_BYTES FileManager.service_built
               (fun _ => FileManager.ChunkRaises (HttpError 500))
               true 7 None [big_file; small_file] empty_world in
  fst job = inr tt
  /\ exists s f,
       (s + f = length [big_file; small_file])%nat
       /\ last (log (snd job)) = Some (SendMessage 7 (Summary s f) true).
Proof.
  exact (job_ends_with_summary default_LARGE_FILE_THRESHOLD_BYTES
           default_MAX_FILE_SIZE_TG_BYTES FileManager.service_built
           (fun _ => FileManager.ChunkRaises (HttpError 500))
           true 7 None [big_file; small_file] empty_world
           ltac:(discriminate) eq_refl).
Defined.

End MoreLoop.

(** ** The commands and the login hint (main.py) *)
Section Commands.
Import Main AuthManager.

Lemma prefix_app n : forall s b,
  String.prefix n s = true -> String.prefix n (s +:+ b) = true.
Proof.
  induction n as [|c n IH]; intros s b H.
  - now destruct (s +:+ b).
  - destruct s as [|d s]; [discriminate|].
    change (String d s +:+ b) with (String d (s +:+ b)). cbn in *.
    destruct (ascii_dec c d); [now apply IH|discriminate].
Qed.

Lemma contains_unfold n h :
  contains n h
  = if String.prefix n h then true
    else match h with
         | EmptyString => false
         | String _ rest => contains n rest
         end.
Proof. now destruct h. Qed.

Lemma contains_app_r n : forall s b,
  contains n s = true -> contains n (s +:+ b) = true.
Proof.
  induction s as [|d s IH]; intros b H; rewrite contains_unfold in H;
    rewrite contains_unfold.
  - destruct (String.prefix n "") eqn:E; [|discriminate].
    now rewrite (prefix_app _ _ b E).
  - destruct (String.prefix n (String d s)) eqn:E.
    + now rewrite (prefix_app _ _ b E).
    + change (String d s +:+ b) with (String d (s +:+ b)).
      destruct (String.prefix n (String d (s +:+ b))); [reflexivity|].
      now apply IH.
Qed.

Lemma contains_app_l n s : forall a,
  contains n s = true -> contains n (a +:+ s) = true.
Proof.
  induction a as [|d a IH]; intros H; [exact H|].
  change (String d a +:+ s) with (String d (a +:+ s)).
  rewrite contains_unfold.
  destruct (String.prefix n (String d (a +:+ s))); [reflexivity|].
  now apply IH.
Qed.

(** X25: when the link cannot be resolved, "Try /login and then send the link
    again" is sent only to a user without credentials and only after a
    failed folder listing: never for a malformed link or for metadata that
    could not be fetched. *)
Theorem login_hint_only_after_folder_error exn_text k drive drive_link files
    err credentials :
  GDrive.get_drive_items_from_link k drive drive_link = (files, Some err) ->
  suggests_login exn_text err credentials = true ->
  credentials = None
  /\ files = None
  /\ exists name e, err = GDrive.ErrorProcessingFolder name e.
Proof.
  intros Hres Hhint.
  assert (Hcred : credentials = None).
  { unfold suggests_login in Hhint. apply andb_true_iff in Hhint as [_ H].
    destruct credentials; [|reflexivity].
    rewrite bool_decide_eq_true_2 in H by eauto. discriminate. }
  assert (Hfiles : files = None).
  { unfold GDrive.get_drive_items_from_link in Hres.
    destruct (GDrive.get_file_id_from_link drive_link); [|congruence].
    destruct (GDrive.get_file_metadata drive s); [|congruence].
    destruct (String.eqb _ _); [|discriminate].
    destruct (GDrive.list_files_in_folder_recursive _ _); congruence. }
  repeat split; [exact Hcred|exact Hfiles|].
  destruct err as [| |name e]; [| |eauto].
  - vm_compute in Hhint. discriminate.
  - vm_compute in Hhint. discriminate.
Qed.

Lemma login_hint_only_after_folder_error_witness :
  None = (None : option credentials_object)
  /\ None = (None : option (list GDrive.file_info))
  /\ exists name e,
       GDrive.ErrorProcessingFolder "Credentials" (AttributeError "details")
       = GDrive.ErrorProcessingFolder name e.
Proof.
  exact (login_hint_only_after_folder_error sample_exn_text 0
           (GDrive.unlistable_drive "ROOT" "Credentials") GDrive.scenario_link
           None
           (GDrive.ErrorProcessingFolder "Credentials" (AttributeError "details"))
           None
           ltac:(vm_compute; reflexivity) ltac:(vm_compute; reflexivity)).
Defined.

(** X26: the test for the hint reads the whole error text, which quotes the
    name of the folder: after any failed listing of a folder whose name
    contains "401", "403" or "Credentials", a user without credentials gets
    the hint, whatever the failure was. *)
Theorem folder_name_triggers_login_hint exn_text name e :
  contains "401" name || contains "403" name || contains "Credentials" name
  = true ->
  suggests_login exn_text (GDrive.ErrorProcessingFolder name e) None = true.
Proof.
  intros H. unfold suggests_login, error_text.
  rewrite andb_true_iff. split; [|reflexivity].
  assert (Hin : forall needle, contains needle name = true ->
            contains needle
              ("Error processing folder '" +:+ name +:+ "': " +:+ exn_text e)
            = true).
  { intros needle Hn. apply contains_app_l. now apply contains_app_r. }
  apply orb_true_iff in H as [H|H]; [apply orb_true_iff in H as [H|H]|].
  - now rewrite (Hin _ H).
  - rewrite (Hin _ H). now rewrite orb_true_r.
  - rewrite (Hin _ H). now rewrite orb_true_r.
Qed.

Lemma folder_name_triggers_login_hint_witness :
  suggests_login sample_exn_text
    (GDrive.ErrorProcessingFolder "Invoices 403" ConnectionError_) None = true.
Proof.
  exact (folder_name_triggers_login_hint sample_exn_text "Invoices 403"
           ConnectionError_ ltac:(vm_compute; reflexivity)).
Defined.

(** X27: /status never reports an expired session and never changes the
    token file.  With the file missing, not JSON or written by [save], a
    threshold format_bytes can render and the reply delivered, it answers
    "logged in" exactly when the user has an entry, whatever the age of the
    token, and "not logged in" otherwise. *)
Theorem status_command_outcome threshold reached refresh user_id reply_ok f :
  snd (status_command threshold reached refresh user_id reply_ok f) = f
  /\ fst (status_command threshold reached refresh user_id reply_ok f)
     <> inr SessionExpired
  /\ (usable f = true ->
      threshold <= FileManager.power ^ 5 ->
      status_command threshold reached refresh user_id true f
      = (inr (if has_entry user_id f then LoggedIn else NotLoggedIn), f)).
Proof.
  unfold status_command. rewrite !load_is_a_lookup.
  assert (Hnone : forall ok,
            snd (match FileManager.format_bytes (Some threshold) with
                 | FileManager.RaisesKeyError n => (inl (KeyError n), f)
                 | FileManager.Text _ => (reply_text ok NotLoggedIn, f)
                 end) = f
            /\ fst (match FileManager.format_bytes (Some threshold) with
                    | FileManager.RaisesKeyError n => (inl (KeyError n), f)
                    | FileManager.Text _ => (reply_text ok NotLoggedIn, f)
                    end) <> inr SessionExpired
            /\ (threshold <= FileManager.power ^ 5 ->
                match FileManager.format_bytes (Some threshold) with
                | FileManager.RaisesKeyError n => (inl (KeyError n), f)
                | FileManager.Text _ => (reply_text true NotLoggedIn, f)
                end = (inr NotLoggedIn, f))).
  { intros ok.
    destruct (format_bytes_cases threshold) as [[_ [s ->]]|[Hb (n & _ & ->)]].
    - split; [reflexivity|]. split; [destruct ok; discriminate|reflexivity].
    - split; [reflexivity|]. split; [discriminate|]. intros H.
      unfold FileManager.power in *. lia. }
  destruct f as [| | |v|m]; cbn [usable has_entry];
    try (destruct (Hnone reply_ok) as (H1 & H2 & H3);
         split; [exact H1|]; split; [exact H2|]; intros _; exact H3);
    try (split; [reflexivity|]; split; discriminate).
  destruct (m !! str user_id) as [d|] eqn:E; cbn [fmap option_fmap option_map].
  - rewrite bool_decide_eq_true_2 by eauto.
    change (expired reached (from_dict d)) with false. cbn [negb].
    split; [reflexivity|]. split; [destruct reply_ok; discriminate|reflexivity].
  - rewrite bool_decide_eq_false_2 by (intros [? ?]; discriminate).
    destruct (Hnone reply_ok) as (H1 & H2 & H3).
    split; [exact H1|]. split; [exact H2|]. intros _; exact H3.
Qed.

(** X28: /logout on a token file that is missing or was written by
    [save], its reply delivered: the reply is "logged out" exactly when the
    user had an entry, and afterwards the user has none, while every other
    user's entry is as before. *)
Theorem logout_command_outcome user_id f :
  well_formed f = true ->
  let had := match f with
             | Stored m => bool_decide (is_Some (m !! str user_id))
             | _ => false
             end in
  exists f',
    logout_command user_id true f
    = (inr (if had then LoggedOut else NothingToRemove), f')
    /\ match f' with
       | Stored m' =>
           m' !! str user_id = None
           /\ forall other, other <> user_id ->
                m' !! str other
                = match f with Stored m => m !! str other | _ => None end
       | Absent => f = Absent
       | _ => False
       end.
Proof.
  intros Hf had. subst had. unfold logout_command, delete_user_credentials.
  destruct f as [| | |v|m]; try discriminate.
  - eexists. split; reflexivity.
  - cbn [exists_ json_load]. destruct (m !! str user_id) as [c|] eqn:E.
    + rewrite bool_decide_eq_true_2 by eauto. eexists. split; [reflexivity|].
      split; [apply lookup_delete_eq|]. intros other Hne.
      apply lookup_delete_ne. intros Heq. apply Hne. symmetry.
      now apply str_inj.
    + rewrite bool_decide_eq_false_2 by (intros [? ?]; discriminate).
      eexists. split; [reflexivity|]. now split.
Qed.

Lemma logout_command_outcome_witness :
  exists f',
    logout_command 7 true (Stored {[ str 7 := sample_credentials ]})
    = (inr LoggedOut, f')
    /\ match f' with
       | Stored m' =>
           m' !! str 7 = None
           /\ forall other, other <> 7 ->
                m' !! str other
                = ({[ str 7 := sample_credentials ]}
                     : gmap string credentials) !! str other
       | Absent => Stored {[ str 7 := sample_credentials ]} = Absent
       | _ => False
       end.
Proof.
  exact (logout_command_outcome 7 (Stored {[ str 7 := sample_credentials ]})
           eq_refl).
Defined.

End Commands.
